(** * Mach-O dynamic binding interpreter (cle/backends/macho/binding.py)

    A shallow embedding of the binding-opcode interpreter: the LEB128
    decoders, the register file [BindingState], the opcode handlers, the
    dispatcher [_do_bind_generic], the two entry points and the default
    fixup handler, followed by the properties of the interpreter. *)

From Stdlib Require Import ZArith Lia Bool List.
From Stdlib Require Import Strings.String Strings.Ascii Strings.Byte.
From stdpp Require Import base option list gmap.
From Equations Require Import Equations.
Import ListNotations.

Local Open Scope Z_scope.

(** ** Bytes *)

(** [chh] is the identity on the integers that indexing a [bytes] object
    yields; here it reads a byte as its value in [0, 256). *)
Definition chh (x : byte) : Z := Z.of_N (Byte.to_N x).

(** [chr] builds the one-character string with that code point. *)
Definition chr (x : byte) : string := String (ascii_of_byte x) EmptyString.

(** ** LEB decoders *)

(** The body of the [while index < len(blob)] loop of [read_uleb], run on
    the bytes from [index] on; [n] is [index - offset]. *)
Fixpoint read_uleb_loop (rest : list byte) (result shift : Z) (n : nat)
  : Z * nat :=
  match rest with
  | [] => (result, n)
  | x :: rest' =>
      let b := chh x in
      let result := Z.lor result (Z.shiftl (Z.land b 0x7f) shift) in
      let shift := shift + 7 in
      let n := S n in
      if Z.land b 0x80 =? 0 then (result, n)
      else read_uleb_loop rest' result shift n
  end.

Definition read_uleb (blob : list byte) (offset : nat) : Z * nat :=
  read_uleb_loop (drop offset blob) 0 0 0%nat.

Fixpoint read_sleb_loop (rest : list byte) (result shift : Z) (n : nat)
  : Z * nat :=
  match rest with
  | [] => (result, n)
  | x :: rest' =>
      let b := chh x in
      let result := Z.lor result (Z.shiftl (Z.land b 0x7f) shift) in
      let shift := shift + 7 in
      let n := S n in
      if Z.land b 0x80 =? 0 then
        if negb (Z.land b 0x40 =? 0) then (result - Z.shiftl 1 shift, n)
        else (result, n)
      else read_sleb_loop rest' result shift n
  end.

Definition read_sleb (blob : list byte) (offset : nat) : Z * nat :=
  read_sleb_loop (drop offset blob) 0 0 0%nat.

(** ** The standard LEB128 encoders

    The encoders are not part of the loader; they are the reference
    encoders of the DWARF standard that the decoders are compared with. *)

Definition byte_of_Z (v : Z) : byte :=
  match Byte.of_N (Z.to_N v) with
  | Some x => x
  | None => x00
  end.

(** Unsigned: emit the low seven bits, set the continuation bit while a
    non-zero rest remains. *)
Equations? encode_uleb (n : Z) : list byte by wf (Z.to_nat n) lt :=
  encode_uleb n with Z_lt_dec 0 (Z.shiftr n 7) => {
    | left _ := byte_of_Z (Z.lor (Z.land n 0x7f) 0x80)
                  :: encode_uleb (Z.shiftr n 7);
    | right _ := [byte_of_Z (Z.land n 0x7f)] }.
Proof.
  rewrite Z.shiftr_div_pow2 in * by lia.
  change (2 ^ 7) with 128 in *.
  assert (0 < n) by (destruct (Z_lt_le_dec 0 n); [lia |];
    assert (n / 128 <= 0) by (apply Z.div_le_upper_bound; lia); lia).
  assert (n / 128 < n) by (apply Z.div_lt; lia).
  lia.
Qed.

(** Signed: stop when the rest is all sign bits and agrees with bit 6 of
    the byte just emitted. *)
Definition sleb_last (n : Z) : bool :=
  ((Z.shiftr n 7 =? 0) && (Z.land (Z.land n 0x7f) 0x40 =? 0))
  || ((Z.shiftr n 7 =? -1) && negb (Z.land (Z.land n 0x7f) 0x40 =? 0)).

Equations? encode_sleb (n : Z) : list byte by wf (Z.abs_nat n) lt :=
  encode_sleb n with sumbool_of_bool (sleb_last n) => {
    | left _ := [byte_of_Z (Z.land n 0x7f)];
    | right _ := byte_of_Z (Z.lor (Z.land n 0x7f) 0x80)
                   :: encode_sleb (Z.shiftr n 7) }.
Proof.
  assert (Hn0 : n <> 0) by (intros ->; discriminate).
  assert (Hn1 : n <> -1) by (intros ->; discriminate).
  rewrite Z.shiftr_div_pow2 by lia. change (2 ^ 7) with 128.
  pose proof (Z.div_mod n 128 ltac:(lia)) as Hdm.
  pose proof (Z.mod_pos_bound n 128 ltac:(lia)) as Hm.
  lia.
Qed.

(** ** Constants of [macholib.mach_o] (Apple's mach-o/loader.h) *)

Module mach_o.
Definition BIND_OPCODE_MASK : Z := 0xF0.
Definition BIND_IMMEDIATE_MASK : Z := 0x0F.
Definition BIND_OPCODE_DONE : Z := 0x00.
Definition BIND_OPCODE_SET_DYLIB_ORDINAL_IMM : Z := 0x10.
Definition BIND_OPCODE_SET_DYLIB_ORDINAL_ULEB : Z := 0x20.
Definition BIND_OPCODE_SET_DYLIB_SPECIAL_IMM : Z := 0x30.
Definition BIND_OPCODE_SET_SYMBOL_TRAILING_FLAGS_IMM : Z := 0x40.
Definition BIND_OPCODE_SET_TYPE_IMM : Z := 0x50.
Definition BIND_OPCODE_SET_ADDEND_SLEB : Z := 0x60.
Definition BIND_OPCODE_SET_SEGMENT_AND_OFFSET_ULEB : Z := 0x70.
Definition BIND_OPCODE_ADD_ADDR_ULEB : Z := 0x80.
Definition BIND_OPCODE_DO_BIND : Z := 0x90.
Definition BIND_OPCODE_DO_BIND_ADD_ADDR_ULEB : Z := 0xA0.
Definition BIND_OPCODE_DO_BIND_ADD_ADDR_IMM_SCALED : Z := 0xB0.
Definition BIND_OPCODE_DO_BIND_ULEB_TIMES_SKIPPING_ULEB : Z := 0xC0.
End mach_o.

(** ** The image: segments, symbols, memory *)

Record Segment := { vaddr : Z; memsize : Z }.

Record Symbol := {
  name : string;
  library_ordinal : Z;
  is_stab : bool;
  linked_addr : Z;
  bind_xrefs : list Z }.

Inductive byteorder := little_endian | big_endian.

(** Modelled from the spec: [binary.memory], the byte-addressable
    writable buffer of the enclosing loader (memory.py is not among these
    sources). It holds bytes at addresses and can be written only where
    the image backs it. The empty memory [∅] holds no byte yet and is
    backed everywhere. *)
Record Clemory := { contents : gmap Z byte; backed : Z -> bool }.

#[global] Instance Clemory_empty : Empty Clemory :=
  {| contents := ∅; backed := fun _ => true |}.

#[global] Instance Clemory_lookup : Lookup Z byte Clemory :=
  fun a m => contents m !! a.

#[global] Instance Clemory_insert : Insert Z byte Clemory :=
  fun a x m => {| contents := <[a := x]> (contents m); backed := backed m |}.

(** Symbols are objects shared between [symbols] and [_ordered_symbols]
    and mutated in place ([bind_xrefs.append]): [heap] is the object
    store, and both collections hold references (positions) into it.
    [lva_to_rva] stands for [AT.from_lva(_, binary).to_rva()], supplied by
    the address translator of the enclosing loader. *)
Record Binary := {
  arch_bits : Z;
  struct_byteorder : byteorder;
  segments : list Segment;
  heap : list Symbol;
  symbols : list nat;
  _ordered_symbols : list nat;
  memory : Clemory;
  lva_to_rva : Z -> Z }.

Definition set_memory (m : Clemory) (b : Binary) : Binary :=
  {| arch_bits := arch_bits b; struct_byteorder := struct_byteorder b;
     segments := segments b; heap := heap b; symbols := symbols b;
     _ordered_symbols := _ordered_symbols b; memory := m;
     lva_to_rva := lva_to_rva b |}.

Definition set_heap (h : list Symbol) (b : Binary) : Binary :=
  {| arch_bits := arch_bits b; struct_byteorder := struct_byteorder b;
     segments := segments b; heap := h; symbols := symbols b;
     _ordered_symbols := _ordered_symbols b; memory := memory b;
     lva_to_rva := lva_to_rva b |}.

Definition set_symbols (l : list nat) (b : Binary) : Binary :=
  {| arch_bits := arch_bits b; struct_byteorder := struct_byteorder b;
     segments := segments b; heap := heap b; symbols := l;
     _ordered_symbols := _ordered_symbols b; memory := memory b;
     lva_to_rva := lva_to_rva b |}.

Definition set_ordered_symbols (l : list nat) (b : Binary) : Binary :=
  {| arch_bits := arch_bits b; struct_byteorder := struct_byteorder b;
     segments := segments b; heap := heap b; symbols := symbols b;
     _ordered_symbols := l; memory := memory b;
     lva_to_rva := lva_to_rva b |}.

(** Modelled from the spec: the class [BindingSymbol] of symbol.py, which
    is not among these sources. A placeholder carries the given name and
    library ordinal, is not a stab, is unresolved ([linked_addr] is 0) and
    has no cross references yet. *)
Definition BindingSymbol (sym_name : string) (lib_ordinal : Z) : Symbol :=
  {| name := sym_name; library_ordinal := lib_ordinal; is_stab := false;
     linked_addr := 0; bind_xrefs := [] |}.

(** Python indexing [l[i]]: negative indices count from the end. *)
Definition getitem {A : Type} (l : list A) (i : Z) : option A :=
  if 0 <=? i then l !! Z.to_nat i
  else if - Z.of_nat (length l) <=? i then l !! Z.to_nat (Z.of_nat (length l) + i)
  else None.

(** ** Exceptions and the interpreter monad

    The image is mutated in place and keeps what was done to it when an
    exception passes: a computation maps the image to an outcome and the
    image it leaves. [Stuck] is no outcome of the program: it marks a loop
    of the model that was given too few iterations, or a reference with no
    object behind it. *)

(** [KeyError] is what the memory raises when it refuses a store; the
    dispatcher catches it, as it catches the [KeyError] of the failed
    lookup in the handler table. *)
Inductive exn := CLEInvalidBinaryError | IndexError | struct_error | KeyError.

Inductive outcome (A : Type) :=
| Returns (a : A)
| Raises (e : exn)
| Stuck.
Arguments Returns {A} a.
Arguments Raises {A} e.
Arguments Stuck {A}.

Definition M (A : Type) : Type := Binary -> outcome A * Binary.

#[global] Instance M_ret : MRet M := fun A a b => (Returns a, b).

#[global] Instance M_bind : MBind M := fun A B k m b =>
  match m b with
  | (Returns a, b') => k a b'
  | (Raises e, b') => (Raises e, b')
  | (Stuck, b') => (Stuck, b')
  end.

Definition raise {A : Type} (e : exn) : M A := fun b => (Raises e, b).

Definition stuck {A : Type} : M A := fun b => (Stuck, b).

(** [binary.segments[i]] *)
Definition segments_getitem (i : Z) : M Segment := fun b =>
  match getitem (segments b) i with
  | Some seg => (Returns seg, b)
  | None => (Raises IndexError, b)
  end.

(** [binary.arch.bits == 64] *)
Definition arch_is_64 : M bool := fun b => (Returns (arch_bits b =? 64), b).

(** ** Binding state *)

Record BindingState := {
  index : nat;
  done : bool;
  lib_ord : Z;
  sym_name : string;
  sym_flags : Z;
  binding_type : Z;
  addend : Z;
  segment_index : Z;
  address : Z;
  seg_end_address : Z;
  wraparound : Z;
  sizeof_intptr_t : Z }.

(** [BindingState.__init__]. The field [bind_handler] is held outside the
    record: it is the handler parameter of the interpreter below, and both
    entry points install [default_binding_handler]. *)
Definition BindingState_init (is_64 : bool) : BindingState :=
  {| index := 0; done := false; lib_ord := 0; sym_name := EmptyString;
     sym_flags := 0; binding_type := 0; addend := 0; segment_index := 0;
     address := 0; seg_end_address := 0; wraparound := 2 ^ 64;
     sizeof_intptr_t := if is_64 then 8 else 4 |}.

Definition set_index (v : nat) (s : BindingState) : BindingState :=
  {| index := v; done := done s; lib_ord := lib_ord s;
     sym_name := sym_name s; sym_flags := sym_flags s;
     binding_type := binding_type s; addend := addend s;
     segment_index := segment_index s; address := address s;
     seg_end_address := seg_end_address s; wraparound := wraparound s;
     sizeof_intptr_t := sizeof_intptr_t s |}.

Definition set_done (v : bool) (s : BindingState) : BindingState :=
  {| index := index s; done := v; lib_ord := lib_ord s;
     sym_name := sym_name s; sym_flags := sym_flags s;
     binding_type := binding_type s; addend := addend s;
     segment_index := segment_index s; address := address s;
     seg_end_address := seg_end_address s; wraparound := wraparound s;
     sizeof_intptr_t := sizeof_intptr_t s |}.

Definition set_lib_ord (v : Z) (s : BindingState) : BindingState :=
  {| index := index s; done := done s; lib_ord := v;
     sym_name := sym_name s; sym_flags := sym_flags s;
     binding_type := binding_type s; addend := addend s;
     segment_index := segment_index s; address := address s;
     seg_end_address := seg_end_address s; wraparound := wraparound s;
     sizeof_intptr_t := sizeof_intptr_t s |}.

Definition set_sym_name (v : string) (s : BindingState) : BindingState :=
  {| index := index s; done := done s; lib_ord := lib_ord s;
     sym_name := v; sym_flags := sym_flags s;
     binding_type := binding_type s; addend := addend s;
     segment_index := segment_index s; address := address s;
     seg_end_address := seg_end_address s; wraparound := wraparound s;
     sizeof_intptr_t := sizeof_intptr_t s |}.

Definition set_sym_flags (v : Z) (s : BindingState) : BindingState :=
  {| index := index s; done := done s; lib_ord := lib_ord s;
     sym_name := sym_name s; sym_flags := v;
     binding_type := binding_type s; addend := addend s;
     segment_index := segment_index s; address := address s;
     seg_end_address := seg_end_address s; wraparound := wraparound s;
     sizeof_intptr_t := sizeof_intptr_t s |}.

Definition set_binding_type (v : Z) (s : BindingState) : BindingState :=
  {| index := index s; done := done s; lib_ord := lib_ord s;
     sym_name := sym_name s; sym_flags := sym_flags s;
     binding_type := v; addend := addend s;
     segment_index := segment_index s; address := address s;
     seg_end_address := seg_end_address s; wraparound := wraparound s;
     sizeof_intptr_t := sizeof_intptr_t s |}.

Definition set_addend (v : Z) (s : BindingState) : BindingState :=
  {| index := index s; done := done s; lib_ord := lib_ord s;
     sym_name := sym_name s; sym_flags := sym_flags s;
     binding_type := binding_type s; addend := v;
     segment_index := segment_index s; address := address s;
     seg_end_address := seg_end_address s; wraparound := wraparound s;
     sizeof_intptr_t := sizeof_intptr_t s |}.

Definition set_segment_index (v : Z) (s : BindingState) : BindingState :=
  {| index := index s; done := done s; lib_ord := lib_ord s;
     sym_name := sym_name s; sym_flags := sym_flags s;
     binding_type := binding_type s; addend := addend s;
     segment_index := v; address := address s;
     seg_end_address := seg_end_address s; wraparound := wraparound s;
     sizeof_intptr_t := sizeof_intptr_t s |}.

Definition set_address (v : Z) (s : BindingState) : BindingState :=
  {| index := index s; done := done s; lib_ord := lib_ord s;
     sym_name := sym_name s; sym_flags := sym_flags s;
     binding_type := binding_type s; addend := addend s;
     segment_index := segment_index s; address := v;
     seg_end_address := seg_end_address s; wraparound := wraparound s;
     sizeof_intptr_t := sizeof_intptr_t s |}.

Definition set_seg_end_address (v : Z) (s : BindingState) : BindingState :=
  {| index := index s; done := done s; lib_ord := lib_ord s;
     sym_name := sym_name s; sym_flags := sym_flags s;
     binding_type := binding_type s; addend := addend s;
     segment_index := segment_index s; address := address s;
     seg_end_address := v; wraparound := wraparound s;
     sizeof_intptr_t := sizeof_intptr_t s |}.

(** [BindingState.add_address_ov]: one subtraction of [wraparound], taken
    when the sum is strictly greater than it. *)
Definition add_address_ov (s : BindingState) (address addend : Z)
  : BindingState :=
  let tmp := address + addend in
  let tmp := if wraparound s <? tmp then tmp - wraparound s else tmp in
  set_address tmp s.

(** [BindingState.check_address_bounds] *)
Definition check_address_bounds (s : BindingState) : M unit :=
  if seg_end_address s <=? address s then raise CLEInvalidBinaryError
  else mret tt.

(** ** The default fixup handler *)

(** [struct.pack(byteorder + "Q"/"I", value)]: an unsigned integer of
    [width] bytes in the given byte order; [struct.error] when the value
    does not fit. *)
Fixpoint le_bytes (width : nat) (v : Z) : list byte :=
  match width with
  | O => []
  | S w => byte_of_Z (v mod 256) :: le_bytes w (v / 256)
  end.

Definition struct_pack (order : byteorder) (width : nat) (value : Z)
  : option (list byte) :=
  if (0 <=? value) && (value <? 2 ^ (8 * Z.of_nat width)) then
    Some match order with
         | little_endian => le_bytes width value
         | big_endian => rev (le_bytes width value)
         end
  else None.

(** The unsigned integer that [data] denotes in the given byte order
    ([struct.unpack]). *)
Fixpoint le_value (data : list byte) : Z :=
  match data with
  | [] => 0
  | x :: data' => chh x + 256 * le_value data'
  end.

Definition struct_unpack (order : byteorder) (data : list byte) : Z :=
  match order with
  | little_endian => le_value data
  | big_endian => le_value (rev data)
  end.

(** Modelled from the spec: [Clemory.store(rva, data)] writes the bytes
    in order while the address is backed; at the first address that is
    not, it stops with [KeyError] and keeps the bytes written so far. The
    result tells whether every byte was written. *)
Fixpoint store (rva : Z) (data : list byte) (m : Clemory) : bool * Clemory :=
  match data with
  | [] => (true, m)
  | x :: data' =>
      if backed m rva then store (rva + 1) data' (<[rva := x]> m)
      else (false, m)
  end.

(** [binary.memory.store(rva, data)] *)
Definition memory_store (rva : Z) (data : list byte) : M unit := fun b =>
  let (ok, m) := store rva data (memory b) in
  (if ok then Returns tt else Raises KeyError, set_memory m b).

(** [symbol.bind_xrefs.append(location)] on the object behind [r] *)
Definition xref_append_sym (location : Z) (sym : Symbol) : Symbol :=
  {| name := name sym; library_ordinal := library_ordinal sym;
     is_stab := is_stab sym; linked_addr := linked_addr sym;
     bind_xrefs := bind_xrefs sym ++ [location] |}.

Definition bind_xrefs_append (r : nat) (location : Z) : M unit := fun b =>
  (Returns tt, set_heap (alter (xref_append_sym location) r (heap b)) b).

(** The filter of the lookup: name, library ordinal, and not a stab. *)
Definition symbol_matches (state : BindingState) (b : Binary) (r : nat)
  : bool :=
  match heap b !! r with
  | Some s =>
      String.eqb (name s) (sym_name state)
      && (library_ordinal s =? lib_ord state)
      && negb (is_stab s)
  | None => false
  end.

(** A fresh [BindingSymbol], put into [binary.symbols] and appended to
    [binary._ordered_symbols]; the result is the reference to it. *)
Definition add_binding_symbol (state : BindingState) : M nat := fun b =>
  let r := length (heap b) in
  (Returns r,
   set_ordered_symbols (_ordered_symbols b ++ [r])
     (set_symbols (symbols b ++ [r])
        (set_heap (heap b ++ [BindingSymbol (sym_name state) (lib_ord state)])
           b))).

(** First half of [default_binding_handler] (up to [symbol = matches[0]]):
    locate the symbol. *)
Definition locate_symbol (state : BindingState) : M nat := fun binary =>
  let matches := List.filter (symbol_matches state binary) (symbols binary) in
  if (1 <? length matches)%nat then raise CLEInvalidBinaryError binary
  else if (length matches <? 1)%nat then add_binding_symbol state binary
  else match matches with
       | symbol :: _ => (Returns symbol, binary)
       | [] => stuck binary
       end.

(** Second half of [default_binding_handler]: compute the value and patch
    the image according to the binding type. *)
Definition bind_location (state : BindingState) (symbol : nat) : M unit :=
  fun binary =>
  match heap binary !! symbol with
  | None => stuck binary
  | Some sym =>
      let location := address state in
      let value :=
        if negb (linked_addr sym =? 0) then linked_addr sym + addend state
        else 0 in
      if binding_type state =? 1 then
        match struct_pack (struct_byteorder binary)
                (if arch_bits binary =? 64 then 8 else 4) value with
        | None => raise struct_error binary
        | Some data =>
            (memory_store (lva_to_rva binary location) data ;;
             bind_xrefs_append symbol location : M unit) binary
        end
      else if binding_type state =? 2 then
        let location_32 := location mod 2 ^ 32 in
        let value_32 := value mod 2 ^ 32 in
        match struct_pack (struct_byteorder binary) 4 value_32 with
        | None => raise struct_error binary
        | Some data =>
            (memory_store (lva_to_rva binary location_32) data ;;
             bind_xrefs_append symbol location_32 : M unit) binary
        end
      else if binding_type state =? 3 then
        let location_32 := location mod 2 ^ 32 in
        let value_32 := (value - (location + 4)) mod 2 ^ 32 in
        match struct_pack (struct_byteorder binary) 4 value_32 with
        | None => raise struct_error binary
        | Some data =>
            (memory_store (lva_to_rva binary location_32) data ;;
             bind_xrefs_append symbol location_32 : M unit) binary
        end
      else raise CLEInvalidBinaryError binary
  end.

Definition default_binding_handler (state : BindingState) : M unit :=
  symbol ← locate_symbol state; bind_location state symbol.

(** ** Opcode handlers and dispatcher

    A handler takes the state, the immediate and the blob; the image is
    the one threaded by the monad. The handlers of the source update the
    state object in place and return that same object, so when a handler
    raises, the object is as the handler has left it. The dispatcher sees
    it again in one case only, after the [KeyError] that it catches:
    [at_KeyError] is the state object at that point. Only the fixup
    handler can raise [KeyError] inside a handler, so for the handlers
    that invoke no fixup the field is never consulted and is the state as
    passed. *)

Record handler : Type := Handler {
  call :> BindingState -> Z -> list byte -> M BindingState;
  at_KeyError : BindingState -> Z -> list byte -> Binary -> BindingState }.

(** The loop [while blob[s.index] != 0] of
    [n_opcode_set_trailing_flags_imm], on the bytes from [s.index] on;
    [None] is the [IndexError] of reading past the last byte. *)
Fixpoint read_sym_name (rest : list byte) (s : BindingState)
  : option BindingState :=
  match rest with
  | [] => None
  | x :: rest' =>
      if negb (chh x =? 0) then
        read_sym_name rest'
          (set_index (S (index s))
             (set_sym_name (sym_name s ++ chr x)%string s))
      else Some s
  end.

Section Interpreter.

(** [s.bind_handler] *)
Variable bind_handler : BindingState -> M unit.

Definition n_opcode_done : handler :=
  {| call := fun s i blob =>
       mret (set_done true s);
     at_KeyError := fun s i blob b => s |}.

Definition n_opcode_set_dylib_ordinal_imm : handler :=
  {| call := fun s i blob =>
       mret (set_lib_ord i s);
     at_KeyError := fun s i blob b => s |}.

Definition n_opcode_set_dylib_ordinal_uleb : handler :=
  {| call := fun s i blob =>
       let uleb := read_uleb blob (index s) in
       let s := set_lib_ord (fst uleb) s in
       mret (set_index (index s + snd uleb) s);
     at_KeyError := fun s i blob b => s |}.

Definition n_opcode_set_dylib_special_imm : handler :=
  {| call := fun s i blob =>
       if i =? 0 then mret (set_lib_ord 0 s)
       else mret (set_lib_ord (Z.lor i mach_o.BIND_OPCODE_MASK - 256) s);
     at_KeyError := fun s i blob b => s |}.

Definition n_opcode_set_trailing_flags_imm : handler :=
  {| call := fun s i blob =>
       let s := set_sym_name EmptyString s in
       let s := set_sym_flags i s in
       match read_sym_name (drop (index s) blob) s with
       | None => raise IndexError
       | Some s => mret (set_index (index s + 1) s)
       end;
     at_KeyError := fun s i blob b => s |}.

Definition n_opcode_set_type_imm : handler :=
  {| call := fun s i blob =>
       mret (set_binding_type i s);
     at_KeyError := fun s i blob b => s |}.

Definition n_opcode_set_addend_sleb : handler :=
  {| call := fun s i blob =>
       let sleb := read_sleb blob (index s) in
       let s := set_addend (fst sleb) s in
       mret (set_index (index s + snd sleb) s);
     at_KeyError := fun s i blob b => s |}.

Definition n_opcode_set_segment_and_offset_uleb : handler :=
  {| call := fun s i blob =>
       let s := set_segment_index i s in
       let uleb := read_uleb blob (index s) in
       let s := set_index (index s + snd uleb) s in
       seg ← segments_getitem (segment_index s);
       let s := add_address_ov s (vaddr seg) (fst uleb) in
       mret (set_seg_end_address (vaddr seg + memsize seg) s);
     at_KeyError := fun s i blob b => s |}.

Definition l_opcode_set_segment_and_offset_uleb : handler :=
  {| call := fun s i blob =>
       let uleb := read_uleb blob (index s) in
       seg ← segments_getitem i;
       let s := add_address_ov s (vaddr seg) (fst uleb) in
       mret (set_index (index s + snd uleb) s);
     at_KeyError := fun s i blob b => s |}.

Definition n_opcode_add_addr_uleb : handler :=
  {| call := fun s i blob =>
       let uleb := read_uleb blob (index s) in
       let s := add_address_ov s (address s) (fst uleb) in
       mret (set_index (index s + snd uleb) s);
     at_KeyError := fun s i blob b => s |}.

Definition n_opcode_do_bind : handler :=
  {| call := fun s i blob =>
       check_address_bounds s ;;
       bind_handler s ;;
       mret (add_address_ov s (address s) (sizeof_intptr_t s));
     at_KeyError := fun s i blob b => s |}.

Definition l_opcode_do_bind : handler :=
  {| call := fun s i blob =>
       bind_handler s ;;
       mret s;
     at_KeyError := fun s i blob b => s |}.

Definition n_opcode_do_bind_add_addr_uleb : handler :=
  {| call := fun s i blob =>
       let uleb := read_uleb blob (index s) in
       if seg_end_address s <=? address s then raise CLEInvalidBinaryError
       else
         let s := set_index (index s + snd uleb) s in
         bind_handler s ;;
         mret (add_address_ov s (address s) (fst uleb + sizeof_intptr_t s));
     at_KeyError := fun s i blob b =>
       let uleb := read_uleb blob (index s) in
       set_index (index s + snd uleb) s |}.

Definition n_opcode_do_bind_add_addr_imm_scaled : handler :=
  {| call := fun s i blob =>
       if seg_end_address s <=? address s then raise CLEInvalidBinaryError
       else
         bind_handler s ;;
         mret (add_address_ov s (address s)
                 (i * sizeof_intptr_t s + sizeof_intptr_t s));
     at_KeyError := fun s i blob b => s |}.

(** The [for i in range(0, count[0])] loop. *)
Fixpoint do_bind_times (count : nat) (skip : Z) (s : BindingState)
  : M BindingState :=
  match count with
  | O => mret s
  | S count' =>
      if seg_end_address s <=? address s then raise CLEInvalidBinaryError
      else
        bind_handler s ;;
        do_bind_times count' skip
          (add_address_ov s (address s) (skip + sizeof_intptr_t s))
  end.

(** The state object when that loop ends in a [KeyError] of the fixup
    handler: as the iterations before have left it. *)
Fixpoint do_bind_times_at_KeyError (count : nat) (skip : Z)
  (s : BindingState) (b : Binary) : BindingState :=
  match count with
  | O => s
  | S count' =>
      if seg_end_address s <=? address s then s
      else
        match bind_handler s b with
        | (Returns _, b') =>
            do_bind_times_at_KeyError count' skip
              (add_address_ov s (address s) (skip + sizeof_intptr_t s)) b'
        | _ => s
        end
  end.

Definition n_opcode_do_bind_uleb_times_skipping_uleb : handler :=
  {| call := fun s i blob =>
       let count := read_uleb blob (index s) in
       let s := set_index (index s + snd count) s in
       let skip := read_uleb blob (index s) in
       let s := set_index (index s + snd skip) s in
       do_bind_times (Z.to_nat (fst count)) (fst skip) s;
     at_KeyError := fun s i blob b =>
       let count := read_uleb blob (index s) in
       let s := set_index (index s + snd count) s in
       let skip := read_uleb blob (index s) in
       let s := set_index (index s + snd skip) s in
       do_bind_times_at_KeyError (Z.to_nat (fst count)) (fst skip) s b |}.

(** The handler tables of the two entry points. *)
Definition normal_opcodes : list (Z * handler) :=
  [ (mach_o.BIND_OPCODE_DONE, n_opcode_done);
    (mach_o.BIND_OPCODE_SET_DYLIB_ORDINAL_IMM, n_opcode_set_dylib_ordinal_imm);
    (mach_o.BIND_OPCODE_SET_DYLIB_ORDINAL_ULEB, n_opcode_set_dylib_ordinal_uleb);
    (mach_o.BIND_OPCODE_SET_DYLIB_SPECIAL_IMM, n_opcode_set_dylib_special_imm);
    (mach_o.BIND_OPCODE_SET_SYMBOL_TRAILING_FLAGS_IMM, n_opcode_set_trailing_flags_imm);
    (mach_o.BIND_OPCODE_SET_TYPE_IMM, n_opcode_set_type_imm);
    (mach_o.BIND_OPCODE_SET_ADDEND_SLEB, n_opcode_set_addend_sleb);
    (mach_o.BIND_OPCODE_SET_SEGMENT_AND_OFFSET_ULEB, n_opcode_set_segment_and_offset_uleb);
    (mach_o.BIND_OPCODE_ADD_ADDR_ULEB, n_opcode_add_addr_uleb);
    (mach_o.BIND_OPCODE_DO_BIND, n_opcode_do_bind);
    (mach_o.BIND_OPCODE_DO_BIND_ADD_ADDR_ULEB, n_opcode_do_bind_add_addr_uleb);
    (mach_o.BIND_OPCODE_DO_BIND_ADD_ADDR_IMM_SCALED, n_opcode_do_bind_add_addr_imm_scaled);
    (mach_o.BIND_OPCODE_DO_BIND_ULEB_TIMES_SKIPPING_ULEB, n_opcode_do_bind_uleb_times_skipping_uleb) ].

Definition lazy_opcodes : list (Z * handler) :=
  [ (mach_o.BIND_OPCODE_DONE, n_opcode_done);
    (mach_o.BIND_OPCODE_SET_DYLIB_ORDINAL_IMM, n_opcode_set_dylib_ordinal_imm);
    (mach_o.BIND_OPCODE_SET_DYLIB_ORDINAL_ULEB, n_opcode_set_dylib_ordinal_uleb);
    (mach_o.BIND_OPCODE_SET_DYLIB_SPECIAL_IMM, n_opcode_set_dylib_special_imm);
    (mach_o.BIND_OPCODE_SET_SYMBOL_TRAILING_FLAGS_IMM, n_opcode_set_trailing_flags_imm);
    (mach_o.BIND_OPCODE_SET_TYPE_IMM, n_opcode_set_type_imm);
    (mach_o.BIND_OPCODE_SET_SEGMENT_AND_OFFSET_ULEB, l_opcode_set_segment_and_offset_uleb);
    (mach_o.BIND_OPCODE_DO_BIND, l_opcode_do_bind) ].

(** The call of a handler under [try: ... except KeyError]: a [KeyError]
    raised inside the handler is logged and the loop goes on, with the
    state object as the handler has left it and the image as it is. Any
    other exception passes. *)
Definition except_KeyError (binding_handler : handler) (s : BindingState)
  (immediate : Z) (blob : list byte) : M BindingState := fun b =>
  match binding_handler s immediate blob b with
  | (Raises KeyError, b') =>
      (Returns (at_KeyError binding_handler s immediate blob b), b')
  | r => r
  end.

(** The loop of [_do_bind_generic]; [fuel] bounds its iterations. An
    opcode missing from the table is a caught [KeyError] too: it is
    logged and the loop goes on with the state as it is. *)
Fixpoint dispatch (fuel : nat) (blob : list byte) (s : BindingState)
  (opcode_dict : gmap Z handler) : M BindingState :=
  if negb (done s) && (index s <? length blob)%nat then
    match fuel with
    | O => stuck
    | S fuel' =>
        match blob !! index s with
        | None => raise IndexError
        | Some x =>
            let raw_opcode := chh x in
            let opcode := Z.land raw_opcode mach_o.BIND_OPCODE_MASK in
            let immediate := Z.land raw_opcode mach_o.BIND_IMMEDIATE_MASK in
            let s := set_index (index s + 1) s in
            match opcode_dict !! opcode with
            | Some binding_handler =>
                s ← except_KeyError binding_handler s immediate blob;
                dispatch fuel' blob s opcode_dict
            | None => dispatch fuel' blob s opcode_dict
            end
        end
    end
  else mret s.

(** Every iteration consumes at least one byte, so [length blob]
    iterations are always enough (see [dispatch_enough_fuel]). *)
Definition _do_bind_generic (blob : list byte) (init_state : BindingState)
  (opcode_dict : gmap Z handler) : M BindingState :=
  let s := init_state in
  seg ← segments_getitem (segment_index s);
  let s := set_seg_end_address (vaddr seg + memsize seg) s in
  dispatch (length blob) blob s opcode_dict.

(** [BindingHelper.do_normal_bind]; a [None] blob is Python's [None]. *)
Definition do_normal_bind_with (blob : option (list byte)) : M unit :=
  match blob with
  | None => mret tt
  | Some blob =>
      is_64 ← arch_is_64;
      let s := BindingState_init is_64 in
      seg ← segments_getitem 0;
      let s := set_seg_end_address (vaddr seg + memsize seg) s in
      _do_bind_generic blob s (list_to_map normal_opcodes) ;;
      mret tt
  end.

(** The re-initialisation at the head of the lazy loop. *)
Definition lazy_reinit (s : BindingState) : BindingState :=
  let s := set_binding_type 1 s in
  let s := set_address 0 s in
  let s := set_sym_name EmptyString s in
  let s := set_sym_flags 0 s in
  let s := set_lib_ord 0 s in
  let s := set_done false s in
  let s := set_addend 0 s in
  let s := set_segment_index 0 s in
  set_seg_end_address 0 s.

(** The loop [while s.index < end] of [do_lazy_bind]. *)
Fixpoint lazy_records (fuel : nat) (blob : list byte) (s : BindingState)
  : M unit :=
  if (index s <? length blob)%nat then
    match fuel with
    | O => stuck
    | S fuel' =>
        let s := lazy_reinit s in
        s ← _do_bind_generic blob s (list_to_map lazy_opcodes);
        lazy_records fuel' blob s
    end
  else mret tt.

(** [BindingHelper.do_lazy_bind] *)
Definition do_lazy_bind_with (blob : option (list byte)) : M unit :=
  match blob with
  | None => mret tt
  | Some blob =>
      is_64 ← arch_is_64;
      let s := BindingState_init is_64 in
      let s := set_index 0 s in
      lazy_records (length blob) blob s
  end.

End Interpreter.

(** Both entry points set [s.bind_handler = default_binding_handler]. *)
Definition do_normal_bind : option (list byte) -> M unit :=
  do_normal_bind_with default_binding_handler.

Definition do_lazy_bind : option (list byte) -> M unit :=
  do_lazy_bind_with default_binding_handler.

(** ** Predicates of the statements *)

(** The state's [seg_end_address] is the end of the segment that
    [segment_index] selects. *)
Definition tracks_segment (s : BindingState) (b : Binary) : Prop :=
  exists seg, getitem (segments b) (segment_index s) = Some seg
              /\ seg_end_address s = vaddr seg + memsize seg.

(** The address lies below the end of the selected segment. *)
Definition below_segment_end (s : BindingState) (b : Binary) : Prop :=
  exists seg, getitem (segments b) (segment_index s) = Some seg
              /\ address s < vaddr seg + memsize seg.

(** The address lies inside the selected segment. *)
Definition within_segment (s : BindingState) (b : Binary) : Prop :=
  exists seg, getitem (segments b) (segment_index s) = Some seg
              /\ vaddr seg <= address s
              /\ address s < vaddr seg + memsize seg.

(** The image [b'] is [b] with symbols added and cross references
    recorded: architecture, byte order, segments and address translation
    are the same; every symbol object of [b] is still there with its
    name, ordinal, stab flag and linked address, its [bind_xrefs]
    extended; and the references appended to [symbols] and to
    [_ordered_symbols] are, in both, the objects added to the store. *)
Definition image_extends (b b' : Binary) : Prop :=
  arch_bits b' = arch_bits b
  /\ struct_byteorder b' = struct_byteorder b
  /\ segments b' = segments b
  /\ lva_to_rva b' = lva_to_rva b
  /\ (length (heap b) <= length (heap b'))%nat
  /\ symbols b'
     = symbols b
       ++ seq (length (heap b)) (length (heap b') - length (heap b))
  /\ _ordered_symbols b'
     = _ordered_symbols b
       ++ seq (length (heap b)) (length (heap b') - length (heap b))
  /\ forall r sym, heap b !! r = Some sym ->
       exists sym', heap b' !! r = Some sym'
                    /\ name sym' = name sym
                    /\ library_ordinal sym' = library_ordinal sym
                    /\ is_stab sym' = is_stab sym
                    /\ linked_addr sym' = linked_addr sym
                    /\ bind_xrefs sym `prefix_of` bind_xrefs sym'.

(** The number of cross references recorded in the image. *)
Definition xref_count (b : Binary) : nat :=
  sum_list_with (fun sym => length (bind_xrefs sym)) (heap b).

(** ** Setup opcodes

    The six opcodes that set a register other than the address and the
    segment, each with its immediate and its operand: the vocabulary of
    the statements about what a blob does before it selects a segment.
    [assemble] is the encoding that the dispatcher and the handlers
    decode, [setup_registers] what the opcode does to the registers, the
    cursor apart. *)

Inductive setup : Type :=
| SET_DYLIB_ORDINAL_IMM (i : Z)
| SET_DYLIB_ORDINAL_ULEB (i n : Z)
| SET_DYLIB_SPECIAL_IMM (i : Z)
| SET_SYMBOL_TRAILING_FLAGS_IMM (i : Z) (name : list byte)
| SET_TYPE_IMM (i : Z)
| SET_ADDEND_SLEB (i n : Z).

(** The byte [opcode | immediate]. *)
Definition opcode_byte (opcode immediate : Z) : byte :=
  byte_of_Z (Z.lor opcode immediate).

Definition assemble (c : setup) : list byte :=
  match c with
  | SET_DYLIB_ORDINAL_IMM i =>
      [opcode_byte mach_o.BIND_OPCODE_SET_DYLIB_ORDINAL_IMM i]
  | SET_DYLIB_ORDINAL_ULEB i n =>
      opcode_byte mach_o.BIND_OPCODE_SET_DYLIB_ORDINAL_ULEB i :: encode_uleb n
  | SET_DYLIB_SPECIAL_IMM i =>
      [opcode_byte mach_o.BIND_OPCODE_SET_DYLIB_SPECIAL_IMM i]
  | SET_SYMBOL_TRAILING_FLAGS_IMM i name =>
      opcode_byte mach_o.BIND_OPCODE_SET_SYMBOL_TRAILING_FLAGS_IMM i
        :: name ++ [x00]
  | SET_TYPE_IMM i => [opcode_byte mach_o.BIND_OPCODE_SET_TYPE_IMM i]
  | SET_ADDEND_SLEB i n =>
      opcode_byte mach_o.BIND_OPCODE_SET_ADDEND_SLEB i :: encode_sleb n
  end.

(** The immediate fits its four bits, a ULEB operand is not negative, and
    a name has no NUL in it. *)
Definition well_formed (c : setup) : Prop :=
  match c with
  | SET_DYLIB_ORDINAL_IMM i | SET_DYLIB_SPECIAL_IMM i | SET_TYPE_IMM i
  | SET_ADDEND_SLEB i _ => 0 <= i < 16
  | SET_DYLIB_ORDINAL_ULEB i n => 0 <= i < 16 /\ 0 <= n
  | SET_SYMBOL_TRAILING_FLAGS_IMM i name =>
      0 <= i < 16 /\ Forall (fun x => x <> x00) name
  end.

Definition setup_registers (s : BindingState) (c : setup) : BindingState :=
  match c with
  | SET_DYLIB_ORDINAL_IMM i => set_lib_ord i s
  | SET_DYLIB_ORDINAL_ULEB _ n => set_lib_ord n s
  | SET_DYLIB_SPECIAL_IMM i =>
      set_lib_ord
        (if i =? 0 then 0 else Z.lor i mach_o.BIND_OPCODE_MASK - 256) s
  | SET_SYMBOL_TRAILING_FLAGS_IMM i name =>
      set_sym_name (string_of_list_byte name) (set_sym_flags i s)
  | SET_TYPE_IMM i => set_binding_type i s
  | SET_ADDEND_SLEB _ n => set_addend n s
  end.

(** * Properties *)

Example encode_uleb_624485 : encode_uleb 624485 = [xe5; x8e; x26].
Proof. reflexivity. Qed.

Example encode_sleb_m123456 : encode_sleb (-123456) = [xc0; xbb; x78].
Proof. reflexivity. Qed.

Example read_uleb_624485 : read_uleb [xe5; x8e; x26] 0 = (624485, 3%nat).
Proof. reflexivity. Qed.

Example read_sleb_m123456 : read_sleb [xc0; xbb; x78] 0 = (-123456, 3%nat).
Proof. reflexivity. Qed.

(** ** Round trip of the decoders *)

Lemma chh_range x : 0 <= chh x < 256.
Proof. destruct x; vm_compute; split; congruence. Qed.

Lemma chh_byte_of_Z v : 0 <= v < 256 -> chh (byte_of_Z v) = v.
Proof.
  intros Hv. unfold chh, byte_of_Z.
  destruct (Byte.of_N (Z.to_N v)) as [x|] eqn:E.
  - apply Byte.to_of_N in E. rewrite E. lia.
  - apply Byte.of_N_None_iff in E. lia.
Qed.

Lemma chh_low7 x : Z.land (chh x) 0x7f = chh x mod 128.
Proof. destruct x; reflexivity. Qed.

Lemma chh_bit7 x : (Z.land (chh x) 0x80 =? 0) = (chh x <? 128).
Proof. destruct x; reflexivity. Qed.

Lemma chh_bit6 x : (Z.land (chh x) 0x40 =? 0) = (chh x mod 128 <? 64).
Proof. destruct x; reflexivity. Qed.

Lemma land_low7 n : Z.land n 0x7f = n mod 128.
Proof. change 0x7f with (Z.ones 7). rewrite Z.land_ones by lia. reflexivity. Qed.

Lemma lor_shiftl_add r x s :
  0 <= s -> 0 <= r < 2 ^ s -> Z.lor r (Z.shiftl x s) = r + x * 2 ^ s.
Proof.
  intros Hs Hr.
  assert (Hdisj : Z.land r (Z.shiftl x s) = 0).
  { apply Z.bits_inj'. intros k Hk. rewrite Z.land_spec, Z.bits_0.
    destruct (Z_lt_le_dec k s).
    - rewrite Z.shiftl_spec_low by lia. apply andb_false_r.
    - destruct (Z.eq_dec r 0) as [->|Hne]; [rewrite Z.bits_0; reflexivity|].
      rewrite (Z.bits_above_log2 r k); [reflexivity | lia |].
      apply Z.lt_le_trans with s; [|lia].
      apply Z.log2_lt_pow2; lia. }
  rewrite <- Z.lxor_lor, <- Z.add_nocarry_lxor by exact Hdisj.
  rewrite Z.shiftl_mul_pow2 by lia. reflexivity.
Qed.

Lemma lor_continuation v : 0 <= v < 128 -> Z.lor v 0x80 = v + 128.
Proof.
  intros Hv. change 0x80 with (Z.shiftl 1 7).
  rewrite lor_shiftl_add by (change (2 ^ 7) with 128; lia). reflexivity.
Qed.

Lemma sleb_last_range n : sleb_last n = true <-> -64 <= n < 64.
Proof.
  unfold sleb_last.
  rewrite Z.shiftr_div_pow2 by lia. change (2 ^ 7) with 128.
  change 0x7f with (Z.ones 7). rewrite Z.land_ones by lia.
  change 0x40 with (Z.shiftl 1 6) at 1 2.
  assert (Hb : forall m, (Z.land m (Z.shiftl 1 6) =? 0) = negb (Z.testbit m 6)).
  { intros m. destruct (Z.testbit m 6) eqn:E; simpl.
    - apply Z.eqb_neq. intros H0.
      assert (Z.testbit (Z.land m (Z.shiftl 1 6)) 6 = true).
      { rewrite Z.land_spec, E, Z.shiftl_spec by lia. reflexivity. }
      rewrite H0 in H. rewrite Z.bits_0 in H. discriminate.
    - apply Z.eqb_eq. apply Z.bits_inj'. intros k Hk.
      rewrite Z.land_spec, Z.bits_0, Z.shiftl_spec by lia.
      destruct (Z.eq_dec k 6) as [->|Hne]; [rewrite E; reflexivity|].
      destruct (Z_lt_le_dec k 6).
      + rewrite (Z.testbit_neg_r 1 (k - 6)) by lia. apply andb_false_r.
      + replace (k - 6) with (Z.succ (k - 7)) by lia.
        change 1 with (Z.ones 1). rewrite Z.ones_spec_high by lia.
        apply andb_false_r. }
  rewrite !Hb. rewrite negb_involutive.
  change (2 ^ 7) with 128.
  assert (Ht : Z.testbit (n mod 128) 6 = (64 <=? n mod 128)).
  { pose proof (Z.mod_pos_bound n 128 ltac:(lia)) as Hm.
    rewrite Z.testbit_eqb by lia. change (2 ^ 6) with 64.
    destruct (Z.leb_spec 64 (n mod 128)).
    - assert (Hq : (n mod 128) / 64 = 1)
        by (symmetry; apply Z.div_unique with (n mod 128 - 64); lia).
      rewrite Hq. reflexivity.
    - rewrite Z.div_small by lia. reflexivity. }
  rewrite Ht.
  pose proof (Z.div_mod n 128 ltac:(lia)) as Hdm.
  pose proof (Z.mod_pos_bound n 128 ltac:(lia)) as Hm.
  rewrite orb_true_iff, !andb_true_iff, negb_true_iff, !Z.eqb_eq,
    Z.leb_gt, Z.leb_le.
  lia.
Qed.

Lemma uleb_last_small n : 0 <= n -> ~ 0 < Z.shiftr n 7 -> 0 <= n < 128.
Proof.
  rewrite Z.shiftr_div_pow2 by lia. change (2 ^ 7) with 128. intros Hn Hq.
  pose proof (Z.div_mod n 128 ltac:(lia)).
  pose proof (Z.mod_pos_bound n 128 ltac:(lia)).
  assert (0 <= n / 128) by (apply Z.div_pos; lia). lia.
Qed.

Lemma read_uleb_loop_encode n :
  0 <= n -> forall post r s k, 0 <= s -> 0 <= r < 2 ^ s ->
  read_uleb_loop (encode_uleb n ++ post) r s k
  = (r + n * 2 ^ s, (k + length (encode_uleb n))%nat).
Proof.
  funelim (encode_uleb n); intros Hn post r s k Hs Hr.
  - (* a continuation byte *)
    pose proof (Z.mod_pos_bound n 128 ltac:(lia)) as Hm.
    cbn [app read_uleb_loop length].
    rewrite chh_bit7, chh_low7, land_low7, lor_continuation by lia.
    rewrite chh_byte_of_Z by lia.
    replace ((n mod 128 + 128) mod 128) with (n mod 128)
      by (rewrite <- Z.add_mod_idemp_r, Z.mod_same, Z.add_0_r, Z.mod_mod; lia).
    destruct (Z.ltb_spec (n mod 128 + 128) 128); [lia|].
    rewrite lor_shiftl_add by lia.
    assert (Hq : 0 < n / 128)
      by (change (0 < n / 2 ^ 7); rewrite <- Z.shiftr_div_pow2 by lia; exact l).
    clear Heq. revert H.
    rewrite Z.shiftr_div_pow2 by lia. change (2 ^ 7) with 128. intros H.
    rewrite H; [| lia | lia |].
    + f_equal; [| lia].
      rewrite Z.pow_add_r by lia. change (2 ^ 7) with 128.
      pose proof (Z.div_mod n 128 ltac:(lia)). nia.
    + rewrite Z.pow_add_r by lia. change (2 ^ 7) with 128. nia.
  - (* the last byte *)
    assert (Hsm : 0 <= n < 128) by (apply uleb_last_small; assumption).
    cbn [app read_uleb_loop length].
    rewrite chh_bit7, chh_low7, land_low7.
    rewrite (Z.mod_small n 128) by lia.
    rewrite chh_byte_of_Z by lia.
    rewrite (Z.mod_small n 128) by lia.
    destruct (Z.ltb_spec n 128); [|lia].
    rewrite lor_shiftl_add by lia. f_equal. lia.
Qed.

Lemma read_sleb_loop_encode n :
  forall post r s k, 0 <= s -> 0 <= r < 2 ^ s ->
  read_sleb_loop (encode_sleb n ++ post) r s k
  = (r + n * 2 ^ s, (k + length (encode_sleb n))%nat).
Proof.
  funelim (encode_sleb n); intros post r s k Hs Hr;
    pose proof (Z.mod_pos_bound n 128 ltac:(lia)) as Hm;
    pose proof (Z.div_mod n 128 ltac:(lia)) as Hdm.
  - (* the last byte: n is in [-64, 64) *)
    assert (Hsm : -64 <= n < 64) by (apply sleb_last_range; assumption).
    cbn [app read_sleb_loop length].
    rewrite chh_bit7, chh_bit6, chh_low7, land_low7.
    rewrite chh_byte_of_Z by lia. rewrite Z.mod_mod by lia.
    destruct (Z.ltb_spec (n mod 128) 128); [|lia].
    rewrite lor_shiftl_add by lia.
    rewrite Z.shiftl_mul_pow2, Z.pow_add_r by lia. change (2 ^ 7) with 128.
    destruct (Z.ltb_spec (n mod 128) 64); cbn [negb]; f_equal; try lia.
    + assert (n / 128 = 0) by lia. nia.
    + assert (n / 128 = -1) by lia. nia.
  - (* a continuation byte *)
    cbn [app read_sleb_loop length].
    rewrite chh_bit7, chh_low7, land_low7, lor_continuation by lia.
    rewrite chh_byte_of_Z by lia.
    replace ((n mod 128 + 128) mod 128) with (n mod 128)
      by (rewrite <- Z.add_mod_idemp_r, Z.mod_same, Z.add_0_r, Z.mod_mod; lia).
    destruct (Z.ltb_spec (n mod 128 + 128) 128); [lia|].
    rewrite lor_shiftl_add by lia.
    clear Heq. revert H.
    rewrite Z.shiftr_div_pow2 by lia. change (2 ^ 7) with 128. intros H.
    rewrite H; [| lia |].
    + f_equal; [| lia].
      rewrite Z.pow_add_r by lia. change (2 ^ 7) with 128. nia.
    + rewrite Z.pow_add_r by lia. change (2 ^ 7) with 128. nia.
Qed.

(** C6: [read_uleb] and [read_sleb] are left inverses of the standard
    LEB128 encoders: decoding the encoding of [n], found at any offset of
    a blob and followed by any bytes, returns [n] and the number of bytes
    of the encoding; for [read_uleb] on every [n >= 0], for [read_sleb] on
    every integer [n]. *)
Theorem leb_decode_encode (pre post : list byte) (n : Z) :
  (0 <= n ->
   read_uleb (pre ++ encode_uleb n ++ post) (length pre)
   = (n, length (encode_uleb n)))
  /\ read_sleb (pre ++ encode_sleb n ++ post) (length pre)
     = (n, length (encode_sleb n)).
Proof.
  unfold read_uleb, read_sleb. rewrite !drop_app_length. split.
  - intros Hn. rewrite read_uleb_loop_encode by (simpl; lia).
    f_equal. change (2 ^ 0) with 1. lia.
  - rewrite read_sleb_loop_encode by (simpl; lia).
    f_equal. change (2 ^ 0) with 1. lia.
Qed.

Lemma leb_decode_encode_witness :
  read_uleb ([x70] ++ encode_uleb 624485 ++ [x90]) 1 = (624485, 3%nat)
  /\ read_sleb ([x60] ++ encode_sleb (-123456) ++ [x00]) 1 = (-123456, 3%nat).
Proof.
  destruct (leb_decode_encode [x60] [x00] (-123456)) as [_ Hs].
  destruct (leb_decode_encode [x70] [x90] 624485) as [Hu _].
  split; [apply Hu; lia | exact Hs].
Defined.

(** ** Reading a symbol name *)

Lemma chh_nonzero (x : byte) : x <> x00 -> (chh x =? 0) = false.
Proof. destruct x; try reflexivity. congruence. Qed.

Lemma append_String (c : ascii) (s r : string) :
  (String c s ++ r)%string = String c (s ++ r)%string.
Proof. reflexivity. Qed.

Lemma append_chr (s r : string) (x : byte) :
  ((s ++ chr x) ++ r)%string = (s ++ String (ascii_of_byte x) r)%string.
Proof.
  unfold chr. induction s as [|c s IH]; [reflexivity |].
  rewrite !append_String, IH. reflexivity.
Qed.

Lemma append_empty (s : string) : (s ++ EmptyString)%string = s.
Proof.
  induction s as [|c s IH]; [reflexivity |].
  rewrite append_String, IH. reflexivity.
Qed.

Lemma read_sym_name_app (name post : list byte) :
  Forall (fun x => x <> x00) name ->
  forall t,
    read_sym_name (name ++ x00 :: post) t
    = Some (set_index (index t + length name)
              (set_sym_name (sym_name t ++ string_of_list_byte name)%string t)).
Proof.
  induction name as [|x name IH]; intros Hname t.
  - cbn [app read_sym_name]. rewrite (proj2 (Z.eqb_eq (chh x00) 0) eq_refl).
    cbn [negb]. destruct t. unfold set_index, set_sym_name.
    cbn [index done lib_ord sym_name sym_flags binding_type addend
         segment_index address seg_end_address wraparound sizeof_intptr_t
         length string_of_list_byte string_of_list_ascii map].
    rewrite append_empty, Nat.add_0_r. reflexivity.
  - apply Forall_cons in Hname as [Hx Hname].
    cbn [app read_sym_name]. rewrite (chh_nonzero x Hx). cbn [negb].
    rewrite (IH Hname).
    change (string_of_list_byte (x :: name))
      with (String (ascii_of_byte x) (string_of_list_byte name)).
    destruct t. unfold set_index, set_sym_name.
    cbn [index done lib_ord sym_name sym_flags binding_type addend
         segment_index address seg_end_address wraparound sizeof_intptr_t
         length].
    rewrite append_chr. do 2 f_equal. lia.
Qed.

(** ** Address arithmetic *)

Ltac unfold_M :=
  unfold check_address_bounds, segments_getitem, arch_is_64 in *;
  unfold mbind, M_bind, mret, M_ret, raise, stuck in *.

(** After the definition of a handler is unfolded, apply its function. *)
Ltac reduce_call :=
  repeat match goal with
         | |- context [call (Handler ?f ?g)] =>
             change (call (Handler f g)) with f
         | |- context [at_KeyError (Handler ?f ?g)] =>
             change (at_KeyError (Handler f g)) with g
         | H : context [call (Handler ?f ?g)] |- _ =>
             change (call (Handler f g)) with f in H
         | H : context [at_KeyError (Handler ?f ?g)] |- _ =>
             change (at_KeyError (Handler f g)) with g in H
         end;
  cbv beta in *.

(** Where the sum is not a multiple of the wrap-around and needs at most
    one subtraction, [add_address_ov] is addition modulo 2^64. *)
Lemma add_address_ov_mod (s : BindingState) (a d : Z) :
  wraparound s = 2 ^ 64 ->
  0 <= a + d < 2 ^ 65 -> a + d <> 2 ^ 64 ->
  address (add_address_ov s a d) = (a + d) mod 2 ^ 64.
Proof.
  intros Hw Hr Hne. unfold add_address_ov. rewrite Hw. cbn [address set_address].
  destruct (Z.ltb_spec (2 ^ 64) (a + d)).
  - apply Z.mod_unique with 1; lia.
  - rewrite Z.mod_small; lia.
Qed.

Lemma add_address_ov_frame (s : BindingState) (a d : Z) :
  set_address (address (add_address_ov s a d)) s = add_address_ov s a d.
Proof. reflexivity. Qed.

(** C1: the address addition does not reduce modulo 2^64 at the boundary
    [a + d = 2^64], nor for a delta of two wrap-arounds or more: from
    address [2^64 - 8], [ADD_ADDR_ULEB 8] leaves [2^64] where
    [(a + d) mod 2^64] is 0, and from address 0 the delta [2^65] leaves
    [2^64]. A normal pass reaches that state on the blob
    [SET_SEGMENT_AND_OFFSET_ULEB(0, 2^64 - 0x1008); ADD_ADDR_ULEB(8)]
    with segment 0 at [0x1000]. *)
Theorem add_address_ov_not_modular :
  let s := set_address (2 ^ 64 - 8) (BindingState_init true) in
  let blob := [x70; xf8; xdf; xff; xff; xff; xff; xff; xff; xff; x01;
               x80; x08] in
  let b := {| arch_bits := 64; struct_byteorder := little_endian;
              segments := [ {| vaddr := 0x1000; memsize := 0x1000 |} ];
              heap := []; symbols := []; _ordered_symbols := [];
              memory := ∅; lva_to_rva := fun a => a - 0x1000 |} in
  (forall b,
      n_opcode_add_addr_uleb s 0 [x08] b
      = (Returns (set_index 1 (set_address (2 ^ 64) s)), b))
  /\ (address s + 8) mod 2 ^ 64 = 0
  /\ address (add_address_ov (BindingState_init true) 0 (2 ^ 65)) = 2 ^ 64
  /\ (0 + 2 ^ 65) mod 2 ^ 64 = 0
  /\ read_uleb blob 1 = (2 ^ 64 - 0x1008, 10%nat)
  /\ fst (_do_bind_generic blob (BindingState_init true)
            (list_to_map (normal_opcodes default_binding_handler)) b)
     = Returns (set_index 13 (set_seg_end_address 0x2000
                  (set_address (2 ^ 64) (BindingState_init true)))).
Proof.
  intros s blob b.
  split; [intros b'; reflexivity |].
  split; [reflexivity |].
  split; [reflexivity |].
  split; [reflexivity |].
  split; vm_compute; reflexivity.
Qed.

(** ** The normal [DO_BIND] *)

(** C4, the claim as stated fails: with the address inside the bound the
    invalid-binary error is raised all the same, by the fixup handler
    (here for the binding type 0 that a state starts with), and the
    address is not advanced. *)
Lemma n_opcode_do_bind_error_within_bounds :
  let s := set_seg_end_address 0x2000
             (set_address 0x1000 (BindingState_init true)) in
  let b := {| arch_bits := 64; struct_byteorder := little_endian;
              segments := [ {| vaddr := 0x1000; memsize := 0x1000 |} ];
              heap := []; symbols := []; _ordered_symbols := [];
              memory := ∅; lva_to_rva := fun a => a - 0x1000 |} in
  ~ (fst (n_opcode_do_bind default_binding_handler s 0 [x90] b)
     = Raises CLEInvalidBinaryError
     <-> seg_end_address s <= address s).
Proof.
  intros s b [H _].
  assert (Hle : seg_end_address s <= address s) by (apply H; reflexivity).
  vm_compute in Hle. apply Hle. reflexivity.
Qed.

(** C4, amended: when [address >= seg_end_address] the opcode raises the
    invalid-binary error whatever the handler is, and the image is left
    as it was; otherwise the handler is invoked on the state and image as
    they are, its exception (invalid-binary included) is passed on, and
    when it returns only the address changes, to
    [(address + pointer_size) mod 2^64] for a sum other than [2^64]. The
    error is raised exactly when the bound is violated or the handler
    raises it. *)
Theorem n_opcode_do_bind_spec (h : BindingState -> M unit)
  (s : BindingState) (i : Z) (blob : list byte) (b : Binary) :
  (seg_end_address s <= address s ->
   n_opcode_do_bind h s i blob b = (Raises CLEInvalidBinaryError, b))
  /\ (address s < seg_end_address s ->
      let s' := add_address_ov s (address s) (sizeof_intptr_t s) in
      n_opcode_do_bind h s i blob b
      = (match fst (h s b) with
         | Returns _ => Returns s'
         | Raises e => Raises e
         | Stuck => Stuck
         end, snd (h s b))
      /\ s' = set_address (address s') s
      /\ (wraparound s = 2 ^ 64 -> 0 <= address s < 2 ^ 64 ->
          0 <= sizeof_intptr_t s <= 2 ^ 64 ->
          address s + sizeof_intptr_t s <> 2 ^ 64 ->
          address s' = (address s + sizeof_intptr_t s) mod 2 ^ 64))
  /\ (fst (n_opcode_do_bind h s i blob b) = Raises CLEInvalidBinaryError
      <-> seg_end_address s <= address s
          \/ fst (h s b) = Raises CLEInvalidBinaryError).
Proof.
  unfold n_opcode_do_bind; reduce_call. unfold_M.
  destruct (Z.leb_spec (seg_end_address s) (address s)) as [Hge|Hlt].
  - split; [reflexivity | split; [lia |]]. simpl. tauto.
  - split; [lia | split].
    + intros _. split; [| split; [reflexivity |]].
      * destruct (h s b) as [[[]|e|] b']; reflexivity.
      * intros Hw Ha Hp Hne. apply add_address_ov_mod; lia.
    + destruct (h s b) as [[[]|e|] b']; simpl;
        (split; [intros H; try discriminate; right; congruence
                |intros [H|H]; [lia | try discriminate; congruence]]).
Qed.

Lemma n_opcode_do_bind_spec_witness :
  let s := set_binding_type 1
             (set_seg_end_address 0x2000
                (set_address 0x1000 (BindingState_init true))) in
  let b := {| arch_bits := 64; struct_byteorder := little_endian;
              segments := [ {| vaddr := 0x1000; memsize := 0x1000 |} ];
              heap := []; symbols := []; _ordered_symbols := [];
              memory := ∅; lva_to_rva := fun a => a - 0x1000 |} in
  fst (n_opcode_do_bind default_binding_handler s 0 [x90] b)
  = Returns (set_address 0x1008 s)
  /\ address (add_address_ov s (address s) (sizeof_intptr_t s))
     = (0x1000 + 8) mod 2 ^ 64.
Proof.
  intros s b.
  destruct (n_opcode_do_bind_spec default_binding_handler s 0 [x90] b)
    as (_ & Hin & _).
  destruct Hin as (Hrun & _ & Hmod); [vm_compute; reflexivity |].
  split.
  - rewrite Hrun. reflexivity.
  - apply Hmod; vm_compute; (congruence || (split; congruence)).
Defined.

(** ** The fixup handler *)

Lemma le_bytes_length (w : nat) (v : Z) : length (le_bytes w v) = w.
Proof. revert v. induction w as [|w IH]; intros v; simpl; [|rewrite IH]; reflexivity. Qed.

Lemma le_value_le_bytes (w : nat) (v : Z) :
  le_value (le_bytes w v) = v mod 2 ^ (8 * Z.of_nat w).
Proof.
  revert v. induction w as [|w IH]; intros v.
  - simpl. rewrite Z.mod_1_r. reflexivity.
  - cbn [le_bytes le_value]. rewrite IH.
    pose proof (Z.mod_pos_bound v 256 ltac:(lia)).
    rewrite chh_byte_of_Z by lia.
    replace (8 * Z.of_nat (S w)) with (8 + 8 * Z.of_nat w) by lia.
    rewrite Z.pow_add_r by lia. change (2 ^ 8) with 256.
    rewrite Z.rem_mul_r by lia. reflexivity.
Qed.

Lemma struct_pack_unpack (order : byteorder) (w : nat) (v : Z) :
  0 <= v < 2 ^ (8 * Z.of_nat w) ->
  exists data, struct_pack order w v = Some data
               /\ length data = w /\ struct_unpack order data = v.
Proof.
  intros Hv. unfold struct_pack.
  destruct (Z.leb_spec 0 v); [|lia].
  destruct (Z.ltb_spec v (2 ^ (8 * Z.of_nat w))); [|lia].
  cbn [andb]. eexists. split; [reflexivity|].
  destruct order; cbn [struct_unpack].
  - rewrite le_bytes_length, le_value_le_bytes, Z.mod_small by lia. tauto.
  - rewrite length_rev, rev_involutive, le_bytes_length, le_value_le_bytes,
      Z.mod_small by lia. tauto.
Qed.

(** What [locate_symbol] leaves alone. *)
Lemma locate_symbol_frame (state : BindingState) (b : Binary) :
  let b' := snd (locate_symbol state b) in
  arch_bits b' = arch_bits b /\ struct_byteorder b' = struct_byteorder b
  /\ segments b' = segments b /\ memory b' = memory b
  /\ lva_to_rva b' = lva_to_rva b.
Proof.
  unfold locate_symbol, add_binding_symbol. unfold_M.
  destruct (_ <? _)%nat; [simpl; tauto|].
  destruct (_ <? _)%nat; [simpl; tauto|].
  destruct (List.filter _ _); simpl; tauto.
Qed.

(** The reference that [locate_symbol] returns has an object behind it,
    and that object passes the filter. *)
Lemma locate_symbol_valid (state : BindingState) (b b' : Binary) (r : nat) :
  locate_symbol state b = (Returns r, b') ->
  symbol_matches state b' r = true.
Proof.
  unfold locate_symbol, add_binding_symbol. unfold_M.
  destruct (1 <? _)%nat; [discriminate|].
  destruct (_ <? 1)%nat.
  - intros [= <- <-]. unfold symbol_matches. cbn [heap set_heap set_symbols set_ordered_symbols].
    rewrite lookup_app_r, Nat.sub_diag by lia. cbn [lookup list_lookup BindingSymbol name library_ordinal is_stab].
    rewrite String.eqb_refl, Z.eqb_refl. reflexivity.
  - destruct (List.filter _ _) as [|r0 l] eqn:E; [discriminate|].
    intros [= <- <-].
    assert (Hin : In r0 (List.filter (symbol_matches state b) (symbols b)))
      by (rewrite E; left; reflexivity).
    apply filter_In in Hin. tauto.
Qed.

Lemma locate_symbol_raises (state : BindingState) (b : Binary) (e : exn) :
  fst (locate_symbol state b) = Raises e -> e = CLEInvalidBinaryError.
Proof.
  unfold locate_symbol, add_binding_symbol. unfold_M.
  destruct (1 <? _)%nat; [intros [= <-]; reflexivity |].
  destruct (_ <? 1)%nat; [discriminate |].
  destruct (List.filter _ _); discriminate.
Qed.

Lemma locate_symbol_not_stuck (state : BindingState) (b : Binary) :
  fst (locate_symbol state b) <> Stuck.
Proof.
  unfold locate_symbol, add_binding_symbol. unfold_M.
  destruct (1 <? _)%nat eqn:E1; [discriminate|].
  destruct (_ <? 1)%nat eqn:E2; [discriminate|].
  destruct (List.filter _ _); [|discriminate].
  apply Nat.ltb_ge in E2. simpl in E2. lia.
Qed.

(** C5: the lookup keeps the image symbols whose name is [sym_name],
    whose library ordinal is [lib_ord] and that are no stabs. More than
    one match raises the invalid-binary error and leaves the image as it
    was. No match is no error: a placeholder [BindingSymbol] with that
    name and ordinal is created, added to the symbol collection and
    appended to the ordered symbols, and the bind proceeds with it. One
    match is the symbol the bind proceeds with. *)
Theorem default_binding_handler_lookup (state : BindingState) (b : Binary) :
  let selects r :=
    exists s, heap b !! r = Some s /\ name s = sym_name state
              /\ library_ordinal s = lib_ord state /\ is_stab s = false in
  let matches := List.filter (symbol_matches state b) (symbols b) in
  (forall r, In r matches <-> In r (symbols b) /\ selects r)
  /\ ((1 < length matches)%nat ->
      default_binding_handler state b = (Raises CLEInvalidBinaryError, b))
  /\ (matches = [] ->
      let r := length (heap b) in
      let b' :=
        set_ordered_symbols (_ordered_symbols b ++ [r])
          (set_symbols (symbols b ++ [r])
             (set_heap
                (heap b ++ [BindingSymbol (sym_name state) (lib_ord state)])
                b)) in
      locate_symbol state b = (Returns r, b')
      /\ heap b' !! r = Some (BindingSymbol (sym_name state) (lib_ord state))
      /\ default_binding_handler state b = bind_location state r b')
  /\ (forall r, matches = [r] ->
      default_binding_handler state b = bind_location state r b).
Proof.
  intros selects matches. split; [| split; [| split]].
  - intros r. subst matches selects. rewrite filter_In.
    unfold symbol_matches. split.
    + intros [Hin Hm]. split; [exact Hin|].
      destruct (heap b !! r) as [s|]; [|discriminate].
      apply andb_true_iff in Hm as [Hm Hstab].
      apply andb_true_iff in Hm as [Hname Hord].
      exists s. rewrite String.eqb_eq in Hname. rewrite Z.eqb_eq in Hord.
      rewrite negb_true_iff in Hstab. tauto.
    + intros [Hin (s & Hs & Hname & Hord & Hstab)]. split; [exact Hin|].
      rewrite Hs, Hname, Hord, Hstab, String.eqb_refl, Z.eqb_refl. reflexivity.
  - intros Hlen. unfold default_binding_handler, locate_symbol. unfold_M.
    fold matches. apply Nat.ltb_lt in Hlen. rewrite Hlen. reflexivity.
  - intros Hnil r b'.
    assert (Hloc : locate_symbol state b = (Returns r, b')).
    { unfold locate_symbol. fold matches. rewrite Hnil. reflexivity. }
    split; [exact Hloc | split].
    + subst b' r. cbn [heap set_heap set_symbols set_ordered_symbols].
      rewrite lookup_app_r, Nat.sub_diag by lia. reflexivity.
    + unfold default_binding_handler. unfold mbind, M_bind.
      rewrite Hloc. reflexivity.
  - intros r Hone. unfold default_binding_handler, locate_symbol.
    unfold mbind, M_bind. fold matches. rewrite Hone. reflexivity.
Qed.

Lemma default_binding_handler_lookup_witness :
  let state := set_sym_name "_bar" (set_lib_ord 2 (set_binding_type 1
                 (BindingState_init true))) in
  let foo := {| name := "_foo"; library_ordinal := 1; is_stab := false;
                linked_addr := 0x2000; bind_xrefs := [] |} in
  let b := {| arch_bits := 64; struct_byteorder := little_endian;
              segments := [ {| vaddr := 0x1000; memsize := 0x1000 |} ];
              heap := [foo]; symbols := [0%nat]; _ordered_symbols := [0%nat];
              memory := ∅; lva_to_rva := fun a => a - 0x1000 |} in
  fst (locate_symbol state b) = Returns 1%nat
  /\ heap (snd (locate_symbol state b)) = [foo; BindingSymbol "_bar" 2]
  /\ symbols (snd (locate_symbol state b)) = [0%nat; 1%nat]
  /\ _ordered_symbols (snd (locate_symbol state b)) = [0%nat; 1%nat].
Proof.
  intros state foo b.
  destruct (default_binding_handler_lookup state b) as (_ & _ & Hnone & _).
  destruct Hnone as (Hloc & _ & _); [reflexivity |].
  rewrite Hloc. repeat split.
Defined.

(** The memory refuses a store exactly when one of the addresses is not
    backed; a store never changes what is backed. *)
Lemma store_backed (data : list byte) (rva : Z) (m : Clemory) :
  backed (snd (store rva data m)) = backed m.
Proof.
  revert rva m. induction data as [|x data IH]; intros rva m; cbn [store].
  - reflexivity.
  - destruct (backed m rva); [| reflexivity]. rewrite IH. reflexivity.
Qed.

Lemma store_ok (data : list byte) (rva : Z) (m : Clemory) :
  fst (store rva data m) = true
  <-> forall k, (k < length data)%nat -> backed m (rva + Z.of_nat k) = true.
Proof.
  revert rva m. induction data as [|x data IH]; intros rva m; cbn [store].
  - split; [intros _ k Hk; simpl in Hk; lia | reflexivity].
  - destruct (backed m rva) eqn:Hb.
    + rewrite IH. cbn [backed insert Clemory_insert]. split.
      * intros H [|k] Hk.
        -- rewrite Z.add_0_r. exact Hb.
        -- replace (rva + Z.of_nat (S k)) with (rva + 1 + Z.of_nat k) by lia.
           apply H. simpl in Hk. lia.
      * intros H k Hk.
        replace (rva + 1 + Z.of_nat k) with (rva + Z.of_nat (S k)) by lia.
        apply H. simpl. lia.
    + split; [discriminate |]. intros H.
      specialize (H 0%nat ltac:(simpl; lia)). rewrite Z.add_0_r in H.
      congruence.
Qed.

(** Outside the stored range the memory is as before, whether the store
    succeeds or not. *)
Lemma store_lookup_outside (data : list byte) (rva : Z) (m : Clemory) (a : Z) :
  a < rva \/ rva + Z.of_nat (length data) <= a ->
  snd (store rva data m) !! a = m !! a.
Proof.
  revert rva m. induction data as [|x data IH]; intros rva m Ha; cbn [store].
  - reflexivity.
  - destruct (backed m rva); [| reflexivity].
    rewrite IH by (cbn [length] in Ha; lia).
    unfold lookup, Clemory_lookup. cbn [contents insert Clemory_insert].
    apply lookup_insert_ne. cbn [length] in Ha. lia.
Qed.

(** After a store that succeeds, the stored range holds the data. *)
Lemma store_lookup_inside (data : list byte) (rva : Z) (m : Clemory)
  (k : nat) (x : byte) :
  fst (store rva data m) = true -> data !! k = Some x ->
  snd (store rva data m) !! (rva + Z.of_nat k) = Some x.
Proof.
  revert rva m k. induction data as [|y data IH]; intros rva m k;
    cbn [store]; [intros _ H; discriminate H |].
  destruct (backed m rva); [| discriminate]. intros Hok Hk.
  destruct k as [|k].
  - injection Hk as ->. rewrite Z.add_0_r.
    rewrite store_lookup_outside by lia.
    unfold lookup, Clemory_lookup. cbn [contents insert Clemory_insert].
    apply lookup_insert_eq.
  - replace (rva + Z.of_nat (S k)) with (rva + 1 + Z.of_nat k) by lia.
    apply IH; assumption.
Qed.

(** A store that is refused at the byte of index [n] has written the [n]
    bytes before it, and nothing else. *)
Lemma store_refused (data : list byte) (rva : Z) (m : Clemory) (n : nat) :
  (n < length data)%nat ->
  backed m (rva + Z.of_nat n) = false ->
  (forall k, (k < n)%nat -> backed m (rva + Z.of_nat k) = true) ->
  store rva data m = (false, snd (store rva (take n data) m))
  /\ fst (store rva (take n data) m) = true.
Proof.
  revert rva m n. induction data as [|x data IH]; intros rva m n Hn Hno Hyes;
    [simpl in Hn; lia |].
  destruct n as [|n].
  - cbn [take store]. rewrite Z.add_0_r in Hno. rewrite Hno. tauto.
  - cbn [take store].
    assert (Hb0 : backed m rva = true).
    { specialize (Hyes 0%nat ltac:(lia)). rewrite Z.add_0_r in Hyes.
      exact Hyes. }
    rewrite Hb0. apply IH.
    + simpl in Hn. lia.
    + cbn [backed insert Clemory_insert].
      replace (rva + 1 + Z.of_nat n) with (rva + Z.of_nat (S n)) by lia.
      exact Hno.
    + intros k Hk. cbn [backed insert Clemory_insert].
      replace (rva + 1 + Z.of_nat k) with (rva + Z.of_nat (S k)) by lia.
      apply Hyes. lia.
Qed.

Lemma store_refused_somewhere (data : list byte) (rva : Z) (m : Clemory) :
  fst (store rva data m) = false ->
  exists k, (k < length data)%nat /\ backed m (rva + Z.of_nat k) = false.
Proof.
  revert rva m. induction data as [|x data IH]; intros rva m; cbn [store];
    [discriminate |].
  destruct (backed m rva) eqn:Hb.
  - intros H. apply IH in H as (k & Hk & Hno).
    cbn [backed insert Clemory_insert] in Hno.
    exists (S k). split; [simpl; lia |].
    replace (rva + Z.of_nat (S k)) with (rva + 1 + Z.of_nat k) by lia.
    exact Hno.
  - intros _. exists 0%nat. split; [simpl; lia |].
    rewrite Z.add_0_r. exact Hb.
Qed.

(** The patch of a fixup: the store, then the cross reference when the
    store has succeeded. *)
Lemma patch_outcome (rva : Z) (data : list byte) (r : nat) (loc : Z)
  (b : Binary) :
  (memory_store rva data ;; bind_xrefs_append r loc : M unit) b
  = if fst (store rva data (memory b))
    then (Returns tt,
          set_heap (alter (xref_append_sym loc) r (heap b))
            (set_memory (snd (store rva data (memory b))) b))
    else (Raises KeyError,
          set_memory (snd (store rva data (memory b))) b).
Proof.
  unfold memory_store, bind_xrefs_append. unfold_M.
  destruct (store rva data (memory b)) as [[] m]; reflexivity.
Qed.

(** C7, refuted as stated: a fixup of binding type 1 whose value does not
    fit the pointer width writes nothing. Here the symbol is at [0x2000]
    and the addend is [-0x3000], so the value is negative: packing it
    raises [struct_error], the memory is as before and no cross reference
    is recorded. *)
Lemma pointer_fixup_value_out_of_range :
  let state := set_address 0x1010 (set_addend (-0x3000) (set_sym_name "_foo"
                 (set_lib_ord 1 (set_binding_type 1
                    (BindingState_init true))))) in
  let foo := {| name := "_foo"; library_ordinal := 1; is_stab := false;
                linked_addr := 0x2000; bind_xrefs := [] |} in
  let b := {| arch_bits := 64; struct_byteorder := little_endian;
              segments := [ {| vaddr := 0x1000; memsize := 0x1000 |} ];
              heap := [foo]; symbols := [0%nat]; _ordered_symbols := [0%nat];
              memory := ∅; lva_to_rva := fun a => a - 0x1000 |} in
  binding_type state = 1
  /\ linked_addr foo + addend state = -0x1000
  /\ default_binding_handler state b = (Raises struct_error, b).
Proof.
  intros state foo b. split; [reflexivity | split; [reflexivity |]].
  vm_compute. reflexivity.
Qed.



(** ** Lazy handlers *)

(** C8: in a lazy record, [SET_SEGMENT_AND_OFFSET_ULEB] with segment
    [vaddr = 0x1000] and the offset [2^64 - 0x1000] leaves the address
    [2^64], where [(vaddr + offset) mod 2^64] is 0; [seg_end_address]
    stays as it was. *)
Theorem l_opcode_set_segment_and_offset_uleb_not_modular :
  let blob := [x70; x80; xe0; xff; xff; xff; xff; xff; xff; xff; x01] in
  let s := set_index 1 (lazy_reinit (BindingState_init true)) in
  let b := {| arch_bits := 64; struct_byteorder := little_endian;
              segments := [ {| vaddr := 0x1000; memsize := 0x1000 |} ];
              heap := []; symbols := []; _ordered_symbols := [];
              memory := ∅; lva_to_rva := fun a => a - 0x1000 |} in
  read_uleb blob 1 = (2 ^ 64 - 0x1000, 10%nat)
  /\ l_opcode_set_segment_and_offset_uleb s 0 blob b
     = (Returns (set_index 11 (set_address (2 ^ 64) s)), b)
  /\ (0x1000 + (2 ^ 64 - 0x1000)) mod 2 ^ 64 = 0
  /\ fst (_do_bind_generic blob
            (lazy_reinit (BindingState_init true))
            (list_to_map (lazy_opcodes default_binding_handler)) b)
     = Returns (set_seg_end_address 0x2000
                  (set_index 11 (set_address (2 ^ 64) s))).
Proof.
  intros blob s b.
  split; [| split; [| split]]; vm_compute; reflexivity.
Qed.

(** The lazy [SET_SEGMENT_AND_OFFSET_ULEB] changes the address and the
    cursor only. *)
Lemma l_opcode_set_segment_and_offset_uleb_frame
  (s : BindingState) (i : Z) (blob : list byte) (b : Binary) (seg : Segment) :
  getitem (segments b) i = Some seg ->
  let uleb := read_uleb blob (index s) in
  l_opcode_set_segment_and_offset_uleb s i blob b
  = (Returns (set_index (index s + snd uleb)
                (add_address_ov s (vaddr seg) (fst uleb))), b).
Proof.
  intros Hseg. unfold l_opcode_set_segment_and_offset_uleb; reduce_call. unfold_M.
  rewrite Hseg. reflexivity.
Qed.

(** The lazy [DO_BIND] invokes the handler and returns the state it was
    given. *)
Lemma l_opcode_do_bind_frame (h : BindingState -> M unit)
  (s : BindingState) (i : Z) (blob : list byte) (b : Binary) :
  l_opcode_do_bind h s i blob b
  = (match fst (h s b) with
     | Returns _ => Returns s
     | Raises e => Raises e
     | Stuck => Stuck
     end, snd (h s b)).
Proof.
  unfold l_opcode_do_bind; reduce_call. unfold_M.
  destruct (h s b) as [[[]|e|] b']; reflexivity.
Qed.

(** C9: in lazy mode every record starts from the re-initialised state:
    all registers but the cursor are back at their initial values, with
    [binding_type] at the lazy default 1, and [index] is kept. Hence what
    the rest of the pass does depends on the state that the previous
    record left only through [index] (and the two constants of the
    state): no symbol, ordinal, addend or address leaks into the next
    record. *)
Theorem lazy_record_boundary (h : BindingState -> M unit) (fuel : nat)
  (blob : list byte) (is_64 : bool) (s1 s2 : BindingState) :
  index s1 = index s2 ->
  wraparound s1 = wraparound s2 ->
  sizeof_intptr_t s1 = sizeof_intptr_t s2 ->
  lazy_reinit s1
  = {| index := index s1; done := false; lib_ord := 0;
       sym_name := EmptyString; sym_flags := 0; binding_type := 1;
       addend := 0; segment_index := 0; address := 0; seg_end_address := 0;
       wraparound := wraparound s1; sizeof_intptr_t := sizeof_intptr_t s1 |}
  /\ (wraparound s1 = wraparound (BindingState_init is_64) ->
      sizeof_intptr_t s1 = sizeof_intptr_t (BindingState_init is_64) ->
      lazy_reinit s1
      = set_index (index s1) (set_binding_type 1 (BindingState_init is_64)))
  /\ ((index s1 < length blob)%nat ->
      lazy_records h (S fuel) blob s1
      = (s ← _do_bind_generic blob (lazy_reinit s1)
               (list_to_map (lazy_opcodes h));
         lazy_records h fuel blob s))
  /\ lazy_records h fuel blob s1 = lazy_records h fuel blob s2.
Proof.
  intros Hi Hw Hp.
  assert (Hre : lazy_reinit s1 = lazy_reinit s2).
  { destruct s1, s2. cbn in Hi, Hw, Hp. subst. reflexivity. }
  split; [reflexivity | split; [| split]].
  - intros Hw1 Hp1. destruct s1. cbn in Hw1, Hp1. subst. reflexivity.
  - intros Hlt. cbn [lazy_records].
    apply Nat.ltb_lt in Hlt. rewrite Hlt. reflexivity.
  - destruct fuel as [|fuel]; cbn [lazy_records]; rewrite Hi, ?Hre; reflexivity.
Qed.

Lemma lazy_record_boundary_witness :
  let blob := [x11; x40; x5f; x66; x6f; x6f; x00; x70; x10; x90; x00;
               x12; x40; x5f; x62; x00; x70; x18; x90; x00] in
  let s1 := {| index := 11; done := true; lib_ord := 1; sym_name := "_foo";
               sym_flags := 0; binding_type := 1; addend := 0;
               segment_index := 0; address := 0x1010;
               seg_end_address := 0x2000; wraparound := 2 ^ 64;
               sizeof_intptr_t := 8 |} in
  lazy_reinit s1 = set_index 11 (set_binding_type 1 (BindingState_init true))
  /\ lazy_records default_binding_handler 9 blob s1
     = lazy_records default_binding_handler 9 blob
         (set_index 11 (BindingState_init true)).
Proof.
  intros blob s1.
  destruct (lazy_record_boundary default_binding_handler 9 blob true s1
              (set_index 11 (BindingState_init true)))
    as (_ & Hinit & _ & Hsame); [reflexivity | reflexivity | reflexivity |].
  split; [apply Hinit; reflexivity | exact Hsame].
Defined.

(** ** The normal entry point *)

Lemma normal_lookup_do_bind (h : BindingState -> M unit) :
  (list_to_map (normal_opcodes h) : gmap Z handler)
    !! mach_o.BIND_OPCODE_DO_BIND
  = Some (n_opcode_do_bind h).
Proof. vm_compute. reflexivity. Qed.

(** ** The state after a caught [KeyError] *)

Lemma do_bind_times_at_KeyError_frame (h : BindingState -> M unit)
  (count : nat) (skip : Z) :
  forall s b,
    let t := do_bind_times_at_KeyError h count skip s b in
    segment_index t = segment_index s
    /\ seg_end_address t = seg_end_address s
    /\ done t = done s /\ index t = index s.
Proof.
  induction count as [|count IH]; intros s b;
    cbn [do_bind_times_at_KeyError]; [tauto |].
  destruct (seg_end_address s <=? address s); [tauto |].
  destruct (h s b) as [[[]|e|] b']; [| tauto | tauto].
  exact (IH (add_address_ov s (address s) (skip + sizeof_intptr_t s)) b').
Qed.

(** Whatever the handler of either table, the state that a caught
    [KeyError] leaves selects the same segment and has the same [done]
    as the state passed, and its cursor has not moved back. *)
Lemma at_KeyError_frame (h : BindingState -> M unit) (op : Z) (hd : handler) :
  (op, hd) ∈ normal_opcodes h ++ lazy_opcodes h ->
  forall s i blob b,
    let t := at_KeyError hd s i blob b in
    segment_index t = segment_index s
    /\ seg_end_address t = seg_end_address s
    /\ done t = done s /\ (index s <= index t)%nat.
Proof.
  intros Hin. apply list_elem_of_In in Hin.
  unfold normal_opcodes, lazy_opcodes in Hin. cbn [app In] in Hin.
  repeat (destruct Hin as [[= <- <-]|Hin];
          [intros s i blob b; try (repeat split; reflexivity || lia) |]);
    try contradiction.
  - unfold n_opcode_do_bind_add_addr_uleb; reduce_call.
    cbn [segment_index seg_end_address done index set_index].
    repeat split; lia.
  - unfold n_opcode_do_bind_uleb_times_skipping_uleb; reduce_call.
    match goal with
    | |- context [do_bind_times_at_KeyError h ?c ?k ?t b] =>
        destruct (do_bind_times_at_KeyError_frame h c k t b)
          as (Hi & He & Hd & Hx)
    end.
    rewrite Hi, He, Hd, Hx.
    cbn [segment_index seg_end_address done index set_index].
    repeat split; lia.
Qed.

Lemma lookup_table (h : BindingState -> M unit) (opcodes : list (Z * handler))
  (op : Z) (hd : handler) :
  opcodes = normal_opcodes h \/ opcodes = lazy_opcodes h ->
  (list_to_map opcodes : gmap Z handler) !! op = Some hd ->
  (op, hd) ∈ normal_opcodes h ++ lazy_opcodes h.
Proof.
  intros Hop E. apply elem_of_list_to_map_2 in E. rewrite elem_of_app.
  destruct Hop as [<-|<-]; [left | right]; exact E.
Qed.

(** ** The first binding of a normal pass *)

Lemma read_uleb_at (pre post : list byte) (n : Z) :
  0 <= n ->
  read_uleb (pre ++ encode_uleb n ++ post) (length pre)
  = (n, length (encode_uleb n)).
Proof.
  intros Hn. unfold read_uleb. rewrite drop_app_length.
  rewrite read_uleb_loop_encode by (simpl; lia).
  f_equal. change (2 ^ 0) with 1. lia.
Qed.

Lemma read_sleb_at (pre post : list byte) (n : Z) :
  read_sleb (pre ++ encode_sleb n ++ post) (length pre)
  = (n, length (encode_sleb n)).
Proof.
  unfold read_sleb. rewrite drop_app_length.
  rewrite read_sleb_loop_encode by (simpl; lia).
  f_equal. change (2 ^ 0) with 1. lia.
Qed.

(** The dispatcher splits the byte [opcode | immediate] into the two. *)
Lemma opcode_byte_split (k i : Z) :
  0 <= k < 16 -> 0 <= i < 16 ->
  Z.land (chh (opcode_byte (16 * k) i)) mach_o.BIND_OPCODE_MASK = 16 * k
  /\ Z.land (chh (opcode_byte (16 * k) i)) mach_o.BIND_IMMEDIATE_MASK = i.
Proof.
  intros Hk Hi.
  assert (Hk' : In k [0; 1; 2; 3; 4; 5; 6; 7; 8; 9; 10; 11; 12; 13; 14; 15])
    by (cbn [In]; lia).
  assert (Hi' : In i [0; 1; 2; 3; 4; 5; 6; 7; 8; 9; 10; 11; 12; 13; 14; 15])
    by (cbn [In]; lia).
  cbn [In] in Hk', Hi'.
  repeat (destruct Hk' as [<-|Hk']; [| ]); try contradiction;
    repeat (destruct Hi' as [<-|Hi']; [| ]); try contradiction;
    vm_compute; split; reflexivity.
Qed.

(** One iteration of the dispatcher on the byte [opcode | immediate] of
    an opcode of the table. *)
Lemma dispatch_opcode (dict : gmap Z handler) (k i : Z) (hd : handler)
  (pre post : list byte) (s : BindingState) (fuel : nat) (b : Binary) :
  0 <= k < 16 -> 0 <= i < 16 ->
  dict !! (16 * k) = Some hd ->
  done s = false -> index s = length pre ->
  let blob := pre ++ opcode_byte (16 * k) i :: post in
  dispatch (S fuel) blob s dict b
  = (s' ← except_KeyError hd (set_index (length pre + 1) s) i blob;
     dispatch fuel blob s' dict) b.
Proof.
  intros Hk Hi Hhd Hdone Hidx blob. cbn [dispatch].
  rewrite Hdone, Hidx. cbn [negb andb].
  assert (Hlt : (length pre <? length blob)%nat = true).
  { apply Nat.ltb_lt. subst blob. rewrite length_app. cbn [length]. lia. }
  rewrite Hlt.
  assert (Hx : blob !! length pre = Some (opcode_byte (16 * k) i)).
  { subst blob. rewrite lookup_app_r, Nat.sub_diag by lia. reflexivity. }
  rewrite Hx.
  destruct (opcode_byte_split k i Hk Hi) as [Hop Himm].
  cbv zeta. rewrite Hop, Himm.
  match goal with
  | |- match ?l with _ => _ end _ = _ =>
      assert (Hl : l = Some hd) by exact Hhd; rewrite Hl
  end.
  reflexivity.
Qed.

Lemma setup_registers_frame (s : BindingState) (c : setup) :
  let t := setup_registers s c in
  index t = index s /\ done t = done s
  /\ segment_index t = segment_index s /\ address t = address s
  /\ seg_end_address t = seg_end_address s
  /\ wraparound t = wraparound s /\ sizeof_intptr_t t = sizeof_intptr_t s.
Proof. destruct c; cbn; tauto. Qed.

Lemma setups_frame (cs : list setup) :
  forall s,
    let t := fold_left setup_registers cs s in
    index t = index s /\ done t = done s
    /\ segment_index t = segment_index s /\ address t = address s
    /\ seg_end_address t = seg_end_address s
    /\ wraparound t = wraparound s /\ sizeof_intptr_t t = sizeof_intptr_t s.
Proof.
  induction cs as [|c cs IH]; intros s; cbn [fold_left]; [tauto |].
  specialize (IH (setup_registers s c)). cbv zeta in IH.
  pose proof (setup_registers_frame s c) as H. cbv zeta in H.
  intuition congruence.
Qed.

Lemma setup_registers_set_index (s : BindingState) (c : setup) (k : nat) :
  setup_registers (set_index k s) c = set_index k (setup_registers s c).
Proof. destruct c; reflexivity. Qed.

Lemma setups_set_index (cs : list setup) :
  forall s k,
    fold_left setup_registers cs (set_index k s)
    = set_index k (fold_left setup_registers cs s).
Proof.
  induction cs as [|c cs IH]; intros s k; cbn [fold_left]; [reflexivity |].
  rewrite setup_registers_set_index. apply IH.
Qed.

Lemma assemble_length (c : setup) : (1 <= length (assemble c))%nat.
Proof. destruct c; cbn [assemble length]; lia. Qed.

Lemma assemble_all_length (cs : list setup) :
  (length cs <= length (flat_map assemble cs))%nat.
Proof.
  induction cs as [|c cs IH]; cbn [flat_map length]; [lia |].
  rewrite length_app. pose proof (assemble_length c). lia.
Qed.

(** The dispatcher on a setup opcode of the normal table: one iteration,
    no effect on the image, the registers as [setup_registers] has them
    and the cursor past the opcode and its operand. *)
Lemma dispatch_setup (h : BindingState -> M unit) (c : setup)
  (pre post : list byte) (s : BindingState) (fuel : nat) (b : Binary) :
  well_formed c -> done s = false -> index s = length pre ->
  let blob := pre ++ assemble c ++ post in
  dispatch (S fuel) blob s (list_to_map (normal_opcodes h)) b
  = dispatch fuel blob
      (set_index (length pre + length (assemble c)) (setup_registers s c))
      (list_to_map (normal_opcodes h)) b.
Proof.
  intros Hwf Hdone Hidx blob.
  destruct c as [i|i n|i|i name|i|i n]; cbn [well_formed] in Hwf;
    subst blob; cbn [assemble app length setup_registers].
  - rewrite (dispatch_opcode _ 1 i n_opcode_set_dylib_ordinal_imm);
      try assumption; try lia; [| vm_compute; reflexivity].
    reflexivity.
  - destruct Hwf as [Hi Hn].
    rewrite (dispatch_opcode _ 2 i n_opcode_set_dylib_ordinal_uleb);
      try assumption; try lia; [| vm_compute; reflexivity].
    unfold mbind, M_bind, except_KeyError.
    unfold n_opcode_set_dylib_ordinal_uleb; reduce_call.
    cbn [index set_index set_lib_ord].
    rewrite (cons_middle _ pre), app_assoc.
    replace (length pre + 1)%nat with (length (pre ++ [opcode_byte (16 * 2) i]))
      by (rewrite length_app; reflexivity).
    rewrite read_uleb_at by exact Hn. cbn [fst snd].
    unfold mret, M_ret. cbv beta iota.
    rewrite <- app_assoc, length_app. cbn [app length].
    match goal with
    | |- dispatch _ _ (set_index ?a _) _ _
         = dispatch _ _ (set_index ?c _) _ _ => replace a with c by lia
    end.
    reflexivity.
  - rewrite (dispatch_opcode _ 3 i n_opcode_set_dylib_special_imm);
      try assumption; try lia; [| vm_compute; reflexivity].
    unfold mbind, M_bind, except_KeyError.
    unfold n_opcode_set_dylib_special_imm; reduce_call.
    destruct (i =? 0); reflexivity.
  - destruct Hwf as [Hi Hname].
    rewrite (dispatch_opcode _ 4 i n_opcode_set_trailing_flags_imm);
      try assumption; try lia; [| vm_compute; reflexivity].
    unfold mbind, M_bind, except_KeyError.
    unfold n_opcode_set_trailing_flags_imm; reduce_call.
    cbn [index set_index set_sym_flags set_sym_name].
    rewrite (cons_middle _ pre), app_assoc.
    replace (length pre + 1)%nat with (length (pre ++ [opcode_byte (16 * 4) i]))
      by (rewrite length_app; reflexivity).
    rewrite drop_app_length. rewrite <- app_assoc. cbn [app].
    rewrite (read_sym_name_app name post Hname).
    unfold mret, M_ret. cbv beta iota.
    rewrite !length_app. cbn [app length].
    rewrite <- !app_assoc. cbn [app].
    cbn [index sym_name set_index set_sym_flags set_sym_name].
    change ((EmptyString ++ string_of_list_byte name)%string)
      with (string_of_list_byte name).
    match goal with
    | |- dispatch _ _ (set_index ?a _) _ _
         = dispatch _ _ (set_index ?c _) _ _ => replace a with c by lia
    end.
    reflexivity.
  - rewrite (dispatch_opcode _ 5 i n_opcode_set_type_imm);
      try assumption; try lia; [| vm_compute; reflexivity].
    reflexivity.
  - rewrite (dispatch_opcode _ 6 i n_opcode_set_addend_sleb);
      try assumption; try lia; [| vm_compute; reflexivity].
    unfold mbind, M_bind, except_KeyError.
    unfold n_opcode_set_addend_sleb; reduce_call.
    cbn [index set_index set_addend].
    rewrite (cons_middle _ pre), app_assoc.
    replace (length pre + 1)%nat with (length (pre ++ [opcode_byte (16 * 6) i]))
      by (rewrite length_app; reflexivity).
    rewrite read_sleb_at. cbn [fst snd].
    unfold mret, M_ret. cbv beta iota.
    rewrite <- app_assoc, length_app. cbn [app length].
    match goal with
    | |- dispatch _ _ (set_index ?a _) _ _
         = dispatch _ _ (set_index ?c _) _ _ => replace a with c by lia
    end.
    reflexivity.
Qed.

Lemma set_index_index (s : BindingState) : set_index (index s) s = s.
Proof. destruct s; reflexivity. Qed.

(** A run of setup opcodes takes one iteration each and leaves the
    image alone. *)
Lemma dispatch_setups (h : BindingState -> M unit) (cs : list setup) :
  forall (pre post : list byte) (s : BindingState) (fuel : nat) (b : Binary),
    Forall well_formed cs -> done s = false -> index s = length pre ->
    let blob := pre ++ flat_map assemble cs ++ post in
    dispatch (length cs + fuel) blob s (list_to_map (normal_opcodes h)) b
    = dispatch fuel blob
        (set_index (length pre + length (flat_map assemble cs))
           (fold_left setup_registers cs s))
        (list_to_map (normal_opcodes h)) b.
Proof.
  induction cs as [|c cs IH]; intros pre post s fuel b Hwf Hdone Hidx blob.
  - subst blob. cbn [flat_map fold_left length Nat.add].
    rewrite Nat.add_0_r, <- Hidx, set_index_index. reflexivity.
  - apply Forall_cons in Hwf as [Hc Hcs].
    subst blob. cbn [flat_map fold_left length Nat.add].
    rewrite <- (app_assoc (assemble c)).
    rewrite (dispatch_setup h c pre _ s (length cs + fuel) b Hc Hdone Hidx).
    rewrite (app_assoc pre (assemble c)).
    rewrite IH; [| exact Hcs | | ].
    + rewrite setups_set_index.
      rewrite !length_app.
      match goal with
      | |- dispatch _ _ (set_index ?a (set_index _ ?t)) _ _
           = dispatch _ _ (set_index ?c ?t) _ _ =>
          replace a with c by lia;
          change (set_index c (set_index _ t)) with (set_index c t)
      end.
      reflexivity.
    + destruct (setup_registers_frame s c) as (_ & Hd & _).
      cbn [done set_index]. rewrite Hd. exact Hdone.
    + cbn [index set_index]. rewrite length_app. reflexivity.
Qed.

Lemma read_sym_name_segment (rest : list byte) :
  forall t t', read_sym_name rest t = Some t' ->
    segment_index t' = segment_index t
    /\ seg_end_address t' = seg_end_address t.
Proof.
  induction rest as [|x rest IH]; intros t t'; cbn [read_sym_name];
    [discriminate |].
  destruct (negb (chh x =? 0)).
  - intros Hr. apply IH in Hr. exact Hr.
  - intros [= <-]. tauto.
Qed.

Lemma invoke_then (h : BindingState -> M unit) (s s' s'' : BindingState)
  (b : Binary) :
  fst ((h s ;; mret s' : M BindingState) b) = Returns s'' -> s'' = s'.
Proof.
  unfold_M. destruct (h s b) as [[[]|e|] b']; cbn; congruence.
Qed.

Lemma do_bind_times_segment (h : BindingState -> M unit) (count : nat)
  (skip : Z) :
  forall s b s', fst (do_bind_times h count skip s b) = Returns s' ->
    segment_index s' = segment_index s
    /\ seg_end_address s' = seg_end_address s.
Proof.
  induction count as [|count IH]; intros s b s'; cbn [do_bind_times].
  - intros [= <-]. tauto.
  - destruct (seg_end_address s <=? address s); [discriminate |].
    unfold_M. destruct (h s b) as [[[]|e|] b']; cbn [fst]; try discriminate.
    intros Hr. apply IH in Hr. exact Hr.
Qed.

(** No handler of the normal table but that of
    [SET_SEGMENT_AND_OFFSET_ULEB] changes the selected segment or the
    bound that goes with it. *)
Lemma selected_segment_kept (h : BindingState -> M unit) (op : Z)
  (hd : handler) :
  (op, hd) ∈ normal_opcodes h ->
  op <> mach_o.BIND_OPCODE_SET_SEGMENT_AND_OFFSET_ULEB ->
  forall s i blob b s', fst (hd s i blob b) = Returns s' ->
    segment_index s' = segment_index s
    /\ seg_end_address s' = seg_end_address s.
Proof.
  intros Hin Hop. apply list_elem_of_In in Hin.
  unfold normal_opcodes in Hin. cbn [In] in Hin.
  repeat (destruct Hin as [[= <- <-]|Hin];
          [intros s i blob b s' |]); try contradiction;
    try (first [ unfold n_opcode_done; reduce_call
               | unfold n_opcode_set_dylib_ordinal_imm; reduce_call
               | unfold n_opcode_set_dylib_ordinal_uleb; reduce_call
               | unfold n_opcode_set_type_imm; reduce_call
               | unfold n_opcode_set_addend_sleb; reduce_call
               | unfold n_opcode_add_addr_uleb; reduce_call ];
         intros [= <-]; split; reflexivity).
  - unfold n_opcode_set_dylib_special_imm; reduce_call.
    destruct (i =? 0); intros [= <-]; split; reflexivity.
  - unfold n_opcode_set_trailing_flags_imm; reduce_call.
    destruct (read_sym_name _ _) as [t|] eqn:E; [| discriminate].
    intros [= <-]. apply read_sym_name_segment in E. exact E.
  - unfold n_opcode_do_bind, check_address_bounds; reduce_call.
    destruct (seg_end_address s <=? address s); [discriminate |].
    intros Hr. apply invoke_then in Hr. subst s'. split; reflexivity.
  - unfold n_opcode_do_bind_add_addr_uleb; reduce_call.
    destruct (seg_end_address s <=? address s); [discriminate |].
    intros Hr. apply invoke_then in Hr. subst s'. split; reflexivity.
  - unfold n_opcode_do_bind_add_addr_imm_scaled; reduce_call.
    destruct (seg_end_address s <=? address s); [discriminate |].
    intros Hr. apply invoke_then in Hr. subst s'. split; reflexivity.
  - unfold n_opcode_do_bind_uleb_times_skipping_uleb; reduce_call.
    intros Hr. apply do_bind_times_segment in Hr. exact Hr.
Qed.

(** C10: with a blob that is not [None], empty or not, [do_normal_bind]
    reads [segments[0]] before any opcode: on an image without segments
    it raises [IndexError]; otherwise the dispatcher starts from the
    initial state with [seg_end_address] at the end of segment 0 (the
    dispatcher's entry derives the same value again). No opcode but
    [SET_SEGMENT_AND_OFFSET_ULEB] changes [segment_index] or
    [seg_end_address], whether its handler returns or ends in a caught
    [KeyError]. So a [DO_BIND] that comes after setup opcodes only, of
    any number and with any operands, runs with segment 0 selected and
    checks the initial address 0 against the end of segment 0: it is the
    invalid-binary error when that end is not above 0; otherwise the
    fixup handler is invoked at address 0, and the pass goes on from
    address [pointer_size] when the handler returns, goes on from
    address 0 when the handler raises [KeyError], and ends in the
    exception of the handler when it raises another one. *)
Theorem do_normal_bind_reads_segment_0 (h : BindingState -> M unit)
  (blob : list byte) (b : Binary) :
  (segments b = [] ->
   do_normal_bind_with h (Some blob) b = (Raises IndexError, b))
  /\ (forall seg segs, segments b = seg :: segs ->
      let end0 := vaddr seg + memsize seg in
      let s0 := set_seg_end_address end0
                  (BindingState_init (arch_bits b =? 64)) in
      let opcode_dict : gmap Z handler := list_to_map (normal_opcodes h) in
      do_normal_bind_with h (Some blob) b
      = (dispatch (length blob) blob s0 opcode_dict ;; mret tt) b
      /\ forall (setups : list setup) (i : Z) (rest : list byte),
           Forall well_formed setups -> 0 <= i < 16 ->
           blob = flat_map assemble setups
                  ++ opcode_byte mach_o.BIND_OPCODE_DO_BIND i :: rest ->
           let s1 := set_index (length (flat_map assemble setups) + 1)
                       (fold_left setup_registers setups s0) in
           let fuel := (length blob - length setups - 1)%nat in
           (segment_index s1 = 0 /\ address s1 = 0
            /\ seg_end_address s1 = end0)
           /\ (end0 <= 0 ->
               do_normal_bind_with h (Some blob) b
               = (Raises CLEInvalidBinaryError, b))
           /\ (0 < end0 -> forall b',
               (h s1 b = (Returns tt, b') ->
                do_normal_bind_with h (Some blob) b
                = (dispatch fuel blob
                     (set_address (sizeof_intptr_t s1) s1) opcode_dict ;;
                   mret tt) b')
               /\ (h s1 b = (Raises KeyError, b') ->
                   do_normal_bind_with h (Some blob) b
                   = (dispatch fuel blob s1 opcode_dict ;; mret tt) b')
               /\ (forall e, e <> KeyError -> h s1 b = (Raises e, b') ->
                   do_normal_bind_with h (Some blob) b = (Raises e, b'))))
  /\ (forall (op : Z) (hd : handler), (op, hd) ∈ normal_opcodes h ->
      op <> mach_o.BIND_OPCODE_SET_SEGMENT_AND_OFFSET_ULEB ->
      forall (s : BindingState) (i : Z) (blob' : list byte) (b0 : Binary),
        (forall s', fst (hd s i blob' b0) = Returns s' ->
           segment_index s' = segment_index s
           /\ seg_end_address s' = seg_end_address s)
        /\ segment_index (at_KeyError hd s i blob' b0) = segment_index s
        /\ seg_end_address (at_KeyError hd s i blob' b0)
           = seg_end_address s).
Proof.
  split; [| split].
  - intros Hs. unfold do_normal_bind_with. unfold_M. unfold getitem.
    rewrite Hs. reflexivity.
  - intros seg segs Hs end0 s0 opcode_dict.
    assert (Hrun : do_normal_bind_with h (Some blob) b
      = (dispatch (length blob) blob s0 opcode_dict ;; mret tt) b).
    { assert (Hseg : segments_getitem 0 b = (Returns seg, b))
        by (unfold segments_getitem, getitem; rewrite Hs; reflexivity).
      unfold do_normal_bind_with, _do_bind_generic, arch_is_64.
      unfold mbind, M_bind, mret, M_ret.
      change (segment_index (set_seg_end_address _ _)) with 0.
      rewrite !Hseg. reflexivity. }
    split; [exact Hrun |].
    intros setups i rest Hwf Hi Hblob s1 fuel.
    destruct (setups_frame setups s0)
      as (_ & Hdone & Hsegi & Haddr & Hend & Hwrap & Hsize).
    split; [subst s1; cbn [segment_index address seg_end_address set_index];
            rewrite Hsegi, Haddr, Hend; repeat split |].
    assert (Hlen : length blob = (length setups + S fuel)%nat).
    { pose proof (assemble_all_length setups) as Hall.
      assert (Hlt : (length setups < length blob)%nat)
        by (rewrite Hblob, length_app; cbn [length]; lia).
      subst fuel. lia. }
    assert (Hstep : dispatch (length blob) blob s0 opcode_dict b
      = (s' ← except_KeyError (n_opcode_do_bind h) s1 i blob;
         dispatch fuel blob s' opcode_dict) b).
    { rewrite Hlen.
      pose proof (dispatch_setups h setups []
                    (opcode_byte mach_o.BIND_OPCODE_DO_BIND i :: rest)
                    s0 (S fuel) b Hwf eq_refl eq_refl) as Hpre.
      cbn [app length Nat.add] in Hpre. rewrite <- Hblob in Hpre.
      fold opcode_dict in Hpre. rewrite Hpre.
      pose proof (dispatch_opcode opcode_dict 9 i (n_opcode_do_bind h)
                    (flat_map assemble setups) rest
                    (set_index (length (flat_map assemble setups))
                       (fold_left setup_registers setups s0)) fuel b
                    ltac:(lia) Hi) as Hdo.
      cbv zeta in Hdo. change (16 * 9) with mach_o.BIND_OPCODE_DO_BIND in Hdo.
      rewrite <- Hblob in Hdo. apply Hdo.
      - vm_compute. reflexivity.
      - cbn [done set_index]. exact Hdone.
      - reflexivity. }
    revert Hrun. unfold mbind at 1. unfold M_bind at 1. rewrite Hstep.
    clear Hstep. unfold mbind at 2. unfold M_bind at 2.
    unfold except_KeyError, n_opcode_do_bind; reduce_call. unfold_M.
    assert (Hend1 : seg_end_address s1 = end0)
      by (subst s1; cbn [seg_end_address set_index]; exact Hend).
    assert (Haddr1 : address s1 = 0)
      by (subst s1; cbn [address set_index]; exact Haddr).
    rewrite Hend1, Haddr1. intros Hrun. split.
    + intros Hle. apply Z.leb_le in Hle. rewrite Hle in Hrun. exact Hrun.
    + intros Hlt b'. apply Z.leb_gt in Hlt. rewrite Hlt in Hrun.
      assert (Hnext : add_address_ov s1 0 (sizeof_intptr_t s1)
                      = set_address (sizeof_intptr_t s1) s1).
      { unfold add_address_ov.
        assert (Hw : wraparound s1 = 2 ^ 64)
          by (subst s1; cbn [wraparound set_index]; rewrite Hwrap;
              reflexivity).
        assert (Hp : sizeof_intptr_t s1 = 8 \/ sizeof_intptr_t s1 = 4).
        { subst s1. cbn [sizeof_intptr_t set_index]. rewrite Hsize.
          cbn. destruct (arch_bits b =? 64); [left | right]; reflexivity. }
        rewrite Hw. destruct Hp as [-> | ->]; reflexivity. }
      split; [| split].
      * intros Hh. rewrite Hh in Hrun. rewrite Hnext in Hrun. exact Hrun.
      * intros Hh. rewrite Hh in Hrun. exact Hrun.
      * intros e He Hh. rewrite Hh in Hrun.
        destruct e; try contradiction; exact Hrun.
  - intros op hd Hin Hop s i blob' b0. split.
    + apply (selected_segment_kept h op hd Hin Hop).
    + assert (Hin' : (op, hd) ∈ normal_opcodes h ++ lazy_opcodes h)
        by (apply elem_of_app; left; exact Hin).
      destruct (at_KeyError_frame h op hd Hin' s i blob' b0)
        as (H1 & H2 & _).
      split; assumption.
Qed.

Lemma do_normal_bind_reads_segment_0_witness :
  let image (segs : list Segment) (m : Clemory) :=
    {| arch_bits := 64; struct_byteorder := little_endian;
       segments := segs; heap := []; symbols := []; _ordered_symbols := [];
       memory := m; lva_to_rva := fun a => a |} in
  let seg := {| vaddr := 0x1000; memsize := 0x1000 |} in
  let short := {| contents := ∅; backed := fun a => a <? 4 |} in
  do_normal_bind (Some [x51; x90]) (image [] ∅)
  = (Raises IndexError, image [] ∅)
  /\ (exists b',
        do_normal_bind (Some [x51; x90]) (image [seg] ∅) = (Returns tt, b')
        /\ bind_xrefs <$> heap b' !! 0%nat = Some [0]
        /\ memory b' !! 7 = Some x00 /\ memory b' !! 8 = None)
  /\ (exists b',
        do_normal_bind (Some [x51; x90]) (image [seg] short)
        = (Returns tt, b')
        /\ bind_xrefs <$> heap b' !! 0%nat = Some []
        /\ memory b' !! 3 = Some x00 /\ memory b' !! 4 = None).
Proof.
  intros image seg short.
  assert (Hwf : Forall well_formed [SET_TYPE_IMM 1])
    by (repeat constructor; cbn; lia).
  split; [| split].
  - destruct (do_normal_bind_reads_segment_0 default_binding_handler
                [x51; x90] (image [] ∅)) as (H0 & _).
    apply H0. reflexivity.
  - destruct (do_normal_bind_reads_segment_0 default_binding_handler
                [x51; x90] (image [seg] ∅)) as (_ & H1 & _).
    destruct (H1 seg [] eq_refl) as (_ & H2).
    destruct (H2 [SET_TYPE_IMM 1] 0 [] Hwf ltac:(lia) eq_refl)
      as (_ & _ & H3).
    exists (snd (do_normal_bind (Some [x51; x90]) (image [seg] ∅))).
    split; [| vm_compute; repeat split].
    unfold do_normal_bind.
    match type of H3 with
    | _ -> forall b', (default_binding_handler ?s ?b = _ -> _) /\ _ =>
        destruct (H3 ltac:(vm_compute; reflexivity)
                    (snd (default_binding_handler s b))) as (Hret & _)
    end.
    rewrite Hret; vm_compute; reflexivity.
  - destruct (do_normal_bind_reads_segment_0 default_binding_handler
                [x51; x90] (image [seg] short)) as (_ & H1 & _).
    destruct (H1 seg [] eq_refl) as (_ & H2).
    destruct (H2 [SET_TYPE_IMM 1] 0 [] Hwf ltac:(lia) eq_refl)
      as (_ & _ & H3).
    exists (snd (do_normal_bind (Some [x51; x90]) (image [seg] short))).
    split; [| vm_compute; repeat split].
    unfold do_normal_bind.
    match type of H3 with
    | _ -> forall b', (default_binding_handler ?s ?b = _ -> _) /\ _ =>
        destruct (H3 ltac:(vm_compute; reflexivity)
                    (snd (default_binding_handler s b))) as (_ & Hcaught & _)
    end.
    rewrite Hcaught; vm_compute; reflexivity.
Defined.

(** ** Bounds of the normal pass *)

Section NormalBounds.

Variable h : BindingState -> M unit.
Variable P : Binary -> Prop.

(** The handler leaves the segments alone, and [P] survives every
    invocation at an address below the end of the selected segment. *)
Hypothesis h_segments : forall s b, segments (snd (h s b)) = segments b.
Hypothesis h_below :
  forall s b, below_segment_end s b -> P b -> P (snd (h s b)).

(** What every handler of the normal table keeps. *)
Let keeps (hd : handler) : Prop :=
  forall s i blob b, tracks_segment s b -> P b ->
    P (snd (hd s i blob b))
    /\ segments (snd (hd s i blob b)) = segments b
    /\ forall s', fst (hd s i blob b) = Returns s' ->
                  tracks_segment s' (snd (hd s i blob b)).

Lemma tracks_segment_ext (s s' : BindingState) (b b' : Binary) :
  segments b' = segments b ->
  segment_index s' = segment_index s ->
  seg_end_address s' = seg_end_address s ->
  tracks_segment s b -> tracks_segment s' b'.
Proof.
  intros Hb Hi He (seg & Hseg & Hend). exists seg.
  rewrite Hb, Hi, He. tauto.
Qed.

Lemma tracks_below (s : BindingState) (b : Binary) :
  tracks_segment s b -> address s < seg_end_address s ->
  below_segment_end s b.
Proof. intros (seg & Hseg & Hend) Hlt. exists seg. split; [assumption | lia]. Qed.

(** A state-only handler that keeps [segment_index] and
    [seg_end_address]. *)
Lemma keeps_pure (f : BindingState -> Z -> list byte -> BindingState)
  (g : BindingState -> Z -> list byte -> Binary -> BindingState) :
  (forall s i blob, segment_index (f s i blob) = segment_index s
                    /\ seg_end_address (f s i blob) = seg_end_address s) ->
  keeps (Handler (fun s i blob => mret (f s i blob)) g).
Proof.
  intros Hf s i blob b Ht HP. cbn. split; [assumption | split; [reflexivity |]].
  intros s' [= <-]. destruct (Hf s i blob).
  eapply tracks_segment_ext; eauto.
Qed.

(** Invoking the handler below the bound, then going on with a state
    that selects the same segment. *)
Lemma keeps_invoke (s s' : BindingState) (b : Binary) :
  tracks_segment s b -> P b -> address s < seg_end_address s ->
  segment_index s' = segment_index s ->
  seg_end_address s' = seg_end_address s ->
  let r : outcome BindingState * Binary := (h s ;; mret s') b in
  P (snd r) /\ segments (snd r) = segments b
  /\ forall s'', fst r = Returns s'' -> tracks_segment s'' (snd r).
Proof.
  intros Ht HP Hlt Hi He. unfold_M.
  pose proof (h_segments s b) as Hs.
  pose proof (h_below s b (tracks_below s b Ht Hlt) HP) as HP'.
  destruct (h s b) as [[[]|e|] b']; cbn in *;
    (split; [assumption | split; [assumption |]]); intros s''; try discriminate.
  intros [= <-]. eapply tracks_segment_ext; eauto.
Qed.

Lemma keeps_do_bind : keeps (n_opcode_do_bind h).
Proof.
  intros s i blob b Ht HP. unfold n_opcode_do_bind; reduce_call.
  unfold check_address_bounds.
  destruct (Z.leb_spec (seg_end_address s) (address s)).
  - cbn. split; [assumption | split; [reflexivity | discriminate]].
  - apply (keeps_invoke s _ b); auto.
Qed.

Lemma keeps_do_bind_add_addr_uleb : keeps (n_opcode_do_bind_add_addr_uleb h).
Proof.
  intros s i blob b Ht HP. unfold n_opcode_do_bind_add_addr_uleb; reduce_call.
  destruct (Z.leb_spec (seg_end_address s) (address s)).
  - cbn. split; [assumption | split; [reflexivity | discriminate]].
  - apply (keeps_invoke (set_index _ s) _ b); auto.
Qed.

Lemma keeps_do_bind_add_addr_imm_scaled :
  keeps (n_opcode_do_bind_add_addr_imm_scaled h).
Proof.
  intros s i blob b Ht HP. unfold n_opcode_do_bind_add_addr_imm_scaled; reduce_call.
  destruct (Z.leb_spec (seg_end_address s) (address s)).
  - cbn. split; [assumption | split; [reflexivity | discriminate]].
  - apply (keeps_invoke s _ b); auto.
Qed.

Lemma keeps_do_bind_times (count : nat) (skip : Z) :
  forall s b, tracks_segment s b -> P b ->
    P (snd (do_bind_times h count skip s b))
    /\ segments (snd (do_bind_times h count skip s b)) = segments b
    /\ forall s', fst (do_bind_times h count skip s b) = Returns s' ->
                  tracks_segment s' (snd (do_bind_times h count skip s b)).
Proof.
  induction count as [|count IH]; intros s b Ht HP; cbn [do_bind_times].
  - cbn. split; [assumption | split; [reflexivity |]]. intros s' [= <-]. assumption.
  - destruct (Z.leb_spec (seg_end_address s) (address s)).
    + cbn. split; [assumption | split; [reflexivity | discriminate]].
    + set (s1 := add_address_ov s (address s) (skip + sizeof_intptr_t s)).
      destruct (keeps_invoke s s1 b Ht HP) as (HP1 & Hs1 & Ht1);
        [assumption | reflexivity | reflexivity |].
      revert HP1 Hs1 Ht1. unfold_M.
      destruct (h s b) as [[[]|e|] b']; cbn [fst snd]; intros HP1 Hs1 Ht1;
        try (split; [assumption | split; [assumption | discriminate]]).
      destruct (IH s1 b' (Ht1 s1 eq_refl) HP1) as (HP2 & Hs2 & Ht2).
      split; [assumption | split; [congruence | assumption]].
Qed.

Lemma keeps_do_bind_uleb_times_skipping_uleb :
  keeps (n_opcode_do_bind_uleb_times_skipping_uleb h).
Proof.
  intros s i blob b Ht HP. unfold n_opcode_do_bind_uleb_times_skipping_uleb; reduce_call.
  apply keeps_do_bind_times; [| assumption].
  eapply tracks_segment_ext; eauto.
Qed.

Lemma keeps_set_segment_and_offset_uleb :
  keeps n_opcode_set_segment_and_offset_uleb.
Proof.
  intros s i blob b _ HP. unfold n_opcode_set_segment_and_offset_uleb; reduce_call.
  unfold_M. cbn [segment_index set_index set_segment_index].
  destruct (getitem (segments b) i) as [seg|] eqn:Hseg; cbn [fst snd].
  - split; [assumption | split; [reflexivity |]].
    intros s' [= <-]. exists seg. split; [exact Hseg | reflexivity].
  - split; [assumption | split; [reflexivity | discriminate]].
Qed.

Lemma keeps_set_trailing_flags_imm : keeps n_opcode_set_trailing_flags_imm.
Proof.
  intros s i blob b Ht HP. unfold n_opcode_set_trailing_flags_imm; reduce_call.
  set (s0 := set_sym_flags i (set_sym_name EmptyString s)).
  assert (Hrd : forall rest t t', read_sym_name rest t = Some t' ->
            segment_index t' = segment_index t
            /\ seg_end_address t' = seg_end_address t).
  { induction rest as [|x rest IH]; intros t t'; cbn [read_sym_name];
      [discriminate |].
    destruct (negb (chh x =? 0)).
    - intros Hr. apply IH in Hr. exact Hr.
    - intros [= <-]. tauto. }
  destruct (read_sym_name (drop (index s0) blob) s0) as [t'|] eqn:E; cbn.
  - split; [assumption | split; [reflexivity |]]. intros s' [= <-].
    apply Hrd in E as [Hi He].
    eapply tracks_segment_ext; [reflexivity | | | exact Ht];
      cbn [segment_index seg_end_address set_index]; assumption.
  - split; [assumption | split; [reflexivity | discriminate]].
Qed.

Lemma keeps_normal_opcodes :
  Forall (fun e => keeps (snd e)) (normal_opcodes h).
Proof.
  unfold normal_opcodes. repeat apply List.Forall_cons; cbn [snd];
    try apply List.Forall_nil.
  - apply (keeps_pure (fun s _ _ => set_done true s)).
    intros; split; reflexivity.
  - apply (keeps_pure (fun s i _ => set_lib_ord i s)).
    intros; split; reflexivity.
  - apply (keeps_pure (fun s i blob =>
      set_index (index (set_lib_ord (fst (read_uleb blob (index s))) s)
                 + snd (read_uleb blob (index s)))
        (set_lib_ord (fst (read_uleb blob (index s))) s))).
    intros; split; reflexivity.
  - intros s i blob b Ht HP. unfold n_opcode_set_dylib_special_imm; reduce_call.
    destruct (i =? 0); cbn;
      (split; [assumption | split; [reflexivity |]]); intros s' [= <-];
      (eapply tracks_segment_ext; [reflexivity | | | exact Ht]); reflexivity.
  - apply keeps_set_trailing_flags_imm.
  - apply (keeps_pure (fun s i _ => set_binding_type i s)).
    intros; split; reflexivity.
  - apply (keeps_pure (fun s i blob =>
      set_index (index (set_addend (fst (read_sleb blob (index s))) s)
                 + snd (read_sleb blob (index s)))
        (set_addend (fst (read_sleb blob (index s))) s))).
    intros; split; reflexivity.
  - apply keeps_set_segment_and_offset_uleb.
  - apply (keeps_pure (fun s i blob =>
      set_index (index (add_address_ov s (address s)
                          (fst (read_uleb blob (index s))))
                 + snd (read_uleb blob (index s)))
        (add_address_ov s (address s) (fst (read_uleb blob (index s)))))).
    intros; split; reflexivity.
  - apply keeps_do_bind.
  - apply keeps_do_bind_add_addr_uleb.
  - apply keeps_do_bind_add_addr_imm_scaled.
  - apply keeps_do_bind_uleb_times_skipping_uleb.
Qed.

Lemma keeps_dispatch (fuel : nat) (blob : list byte) :
  forall s b, tracks_segment s b -> P b ->
    P (snd (dispatch fuel blob s (list_to_map (normal_opcodes h)) b)).
Proof.
  induction fuel as [|fuel IH]; intros s b Ht HP; cbn [dispatch].
  - destruct (negb (done s) && (index s <? length blob)%nat); assumption.
  - destruct (negb (done s) && (index s <? length blob)%nat); [| assumption].
    destruct (blob !! index s) as [x|]; [| assumption].
    set (s1 := set_index (index s + 1) s).
    assert (Ht1 : tracks_segment s1 b)
      by (eapply tracks_segment_ext; eauto).
    destruct (list_to_map (normal_opcodes h) !! _) as [hd|] eqn:E.
    + apply elem_of_list_to_map_2 in E.
      assert (Hin : (Z.land (chh x) mach_o.BIND_OPCODE_MASK, hd)
                    ∈ normal_opcodes h ++ lazy_opcodes h)
        by (apply elem_of_app; left; exact E).
      pose proof keeps_normal_opcodes as Hall.
      rewrite Forall_forall in Hall. apply Hall in E. cbn [snd] in E.
      specialize (E s1 (Z.land (chh x) mach_o.BIND_IMMEDIATE_MASK) blob b
                    Ht1 HP).
      destruct E as (HP' & Hseg' & Ht').
      pose proof (at_KeyError_frame h _ _ Hin s1
                    (Z.land (chh x) mach_o.BIND_IMMEDIATE_MASK) blob b)
        as (Hi & He & _).
      unfold mbind, M_bind, except_KeyError.
      destruct (hd s1 _ blob b) as [[s'|[]|] b']; cbn [fst snd] in *;
        try assumption.
      * apply IH; [apply Ht'; reflexivity | assumption].
      * apply IH; [| assumption].
        eapply tracks_segment_ext; [exact Hseg' | exact Hi | exact He |].
        exact Ht1.
    + apply IH; assumption.
Qed.

Lemma keeps_do_normal_bind (blob : option (list byte)) (b : Binary) :
  P b -> P (snd (do_normal_bind_with h blob b)).
Proof.
  intros HP. destruct blob as [blob|]; [| exact HP].
  unfold do_normal_bind_with, _do_bind_generic, arch_is_64, segments_getitem.
  unfold mbind, M_bind, mret, M_ret.
  destruct (getitem (segments b) 0) as [seg0|] eqn:E0; [| exact HP].
  cbn [segment_index set_seg_end_address BindingState_init].
  rewrite E0.
  set (s0 := set_seg_end_address _ _).
  pose proof (keeps_dispatch (length blob) blob s0 b) as Hd.
  destruct (dispatch _ _ _ _ b) as [[s'|e|] b']; cbn [snd] in *;
    apply Hd; try assumption; exists seg0; split; solve [assumption | reflexivity].
Qed.

End NormalBounds.

Lemma default_binding_handler_segments (s : BindingState) (b : Binary) :
  segments (snd (default_binding_handler s b)) = segments b.
Proof.
  unfold default_binding_handler. unfold mbind, M_bind.
  destruct (locate_symbol_frame s b) as (_ & _ & Hseg & _).
  destruct (locate_symbol s b) as [[r|e|] b1]; cbn [snd] in *; try assumption.
  rewrite <- Hseg. unfold bind_location, memory_store, bind_xrefs_append.
  unfold_M.
  destruct (heap b1 !! r); [| reflexivity].
  repeat match goal with
         | |- context [if ?c then _ else _] => destruct c
         | |- context [match struct_pack ?o ?w ?v with _ => _ end] =>
             destruct (struct_pack o w v)
         | |- context [store ?a ?d ?m] => destruct (store a d m) as [[] ?]
         end; reflexivity.
Qed.

(** C2, the claim as stated fails on the lower bound: in a normal pass
    over [SET_TYPE_IMM 1; DO_BIND] the fixup handler is invoked at the
    initial address 0 and returns, the location 0 is recorded and the
    pass completes, while the selected segment begins at [0x1000]. *)
Lemma do_bind_below_segment_start :
  let b := {| arch_bits := 64; struct_byteorder := little_endian;
              segments := [ {| vaddr := 0x1000; memsize := 0x1000 |} ];
              heap := []; symbols := []; _ordered_symbols := [];
              memory := ∅; lva_to_rva := fun a => a |} in
  let s := set_index 2 (set_binding_type 1
             (set_seg_end_address 0x2000 (BindingState_init true))) in
  fst (_do_bind_generic [x51] (BindingState_init true)
         (list_to_map (normal_opcodes default_binding_handler)) b)
  = Returns (set_index 1 s)
  /\ tracks_segment s b
  /\ fst (default_binding_handler s b) = Returns tt
  /\ fst (n_opcode_do_bind default_binding_handler s 0 [x51; x90] b)
     = Returns (set_address 8 s)
  /\ fst (do_normal_bind (Some [x51; x90]) b) = Returns tt
  /\ bind_xrefs <$> heap (snd (do_normal_bind (Some [x51; x90]) b)) !! 0%nat
     = Some [0]
  /\ ~ within_segment s b.
Proof.
  intros b s.
  split; [vm_compute; reflexivity |].
  split; [eexists; split; vm_compute; reflexivity |].
  split; [vm_compute; reflexivity |].
  split; [vm_compute; reflexivity |].
  split; [vm_compute; reflexivity |].
  split; [vm_compute; reflexivity |].
  intros (seg & Hseg & Hlo & _).
  vm_compute in Hseg. injection Hseg as <-. vm_compute in Hlo.
  apply Hlo. reflexivity.
Qed.

(** C2, amended: in a normal pass the fixup handler is invoked only at
    states whose address lies below [seg.vaddr + seg.memsize] of the
    selected segment; no lower bound is checked. Stated for any handler
    that leaves the segments alone: a property of the image that survives
    every invocation below the end of the selected segment survives the
    whole pass, whatever its outcome. *)
Theorem normal_bind_invokes_below_segment_end
  (h : BindingState -> M unit) (P : Binary -> Prop)
  (blob : option (list byte)) (b : Binary) :
  (forall s b, segments (snd (h s b)) = segments b) ->
  (forall s b, below_segment_end s b -> P b -> P (snd (h s b))) ->
  P b ->
  P (snd (do_normal_bind_with h blob b)).
Proof.
  intros Hseg Hbelow HP. apply keeps_do_normal_bind; assumption.
Qed.

Lemma normal_bind_invokes_below_segment_end_witness :
  let segs := [ {| vaddr := 0x1000; memsize := 0x1000 |} ] in
  let b := {| arch_bits := 64; struct_byteorder := little_endian;
              segments := segs; heap := []; symbols := [];
              _ordered_symbols := []; memory := ∅;
              lva_to_rva := fun a => a |} in
  let record : BindingState -> M unit := fun s b =>
    (Returns tt, set_memory (<[address s := x01]> (memory b)) b) in
  let blob := [x70; x10; xc0; x05; x08; x00] in
  map_Forall (fun a _ => a < 0x2000)
    (memory (snd (do_normal_bind_with record (Some blob) b))).
Proof.
  intros segs b record blob.
  apply (normal_bind_invokes_below_segment_end record
           (fun b => segments b = segs
                     /\ map_Forall (fun a _ => a < 0x2000) (memory b))
           (Some blob) b).
  - reflexivity.
  - intros s0 b0 (seg & Hseg & Hlt) [Hsegs Hmem]. split; [exact Hsegs |].
    cbn [record snd memory set_memory].
    apply map_Forall_insert_2; [| exact Hmem].
    unfold getitem in Hseg. rewrite Hsegs in Hseg.
    assert (Hs : seg = {| vaddr := 0x1000; memsize := 0x1000 |}).
    { destruct (0 <=? segment_index s0);
        [| destruct (_ <=? segment_index s0); [| discriminate]];
        match type of Hseg with
        | segs !! ?n = _ => destruct n as [|[|n']]
        end; cbn in Hseg; congruence. }
    subst seg. cbn in Hlt. exact Hlt.
  - split; [reflexivity | apply map_Forall_empty].
Defined.

(** ** Termination of the passes *)

Lemma bind_location_not_stuck (s : BindingState) (b : Binary) (r : nat) :
  symbol_matches s b r = true -> fst (bind_location s r b) <> Stuck.
Proof.
  unfold symbol_matches, bind_location, memory_store, bind_xrefs_append.
  unfold_M. destruct (heap b !! r); [intros _ | discriminate].
  repeat match goal with
         | |- context [if ?c then _ else _] => destruct c
         | |- context [match struct_pack ?o ?w ?v with _ => _ end] =>
             destruct (struct_pack o w v)
         | |- context [store ?a ?d ?m] => destruct (store a d m) as [[] ?]
         end; discriminate.
Qed.

Lemma default_binding_handler_not_stuck (s : BindingState) (b : Binary) :
  fst (default_binding_handler s b) <> Stuck.
Proof.
  unfold default_binding_handler. unfold mbind, M_bind.
  pose proof (locate_symbol_not_stuck s b) as Hns.
  pose proof (locate_symbol_valid s b) as Hv.
  destruct (locate_symbol s b) as [[r|e|] b1]; cbn [fst] in *;
    [| discriminate | congruence].
  apply bind_location_not_stuck. apply Hv. reflexivity.
Qed.

Section Termination.

Variable h : BindingState -> M unit.
Hypothesis h_not_stuck : forall s b, fst (h s b) <> Stuck.

(** A handler is never stuck and never moves the cursor back. *)
Let advances (hd : handler) : Prop :=
  forall s i blob b,
    fst (hd s i blob b) <> Stuck
    /\ forall s', fst (hd s i blob b) = Returns s' ->
                  (index s <= index s')%nat.

Lemma advances_pure (f : BindingState -> Z -> list byte -> BindingState)
  (g : BindingState -> Z -> list byte -> Binary -> BindingState) :
  (forall s i blob, (index s <= index (f s i blob))%nat) ->
  advances (Handler (fun s i blob => mret (f s i blob)) g).
Proof.
  intros Hf s i blob b. cbn. split; [discriminate |].
  intros s' [= <-]. apply Hf.
Qed.

Lemma advances_invoke (s s' : BindingState) (b : Binary) :
  let r : outcome BindingState * Binary := (h s ;; mret s') b in
  fst r <> Stuck /\ forall s'', fst r = Returns s'' -> s'' = s'.
Proof.
  unfold_M. pose proof (h_not_stuck s b) as Hns.
  destruct (h s b) as [[[]|e|] b']; cbn in *;
    (split; [congruence |]); intros s''; congruence.
Qed.

Lemma read_sym_name_index (rest : list byte) :
  forall t t', read_sym_name rest t = Some t' -> (index t <= index t')%nat.
Proof.
  induction rest as [|x rest IH]; intros t t'; cbn [read_sym_name];
    [discriminate |].
  destruct (negb (chh x =? 0)).
  - intros Hr. apply IH in Hr. cbn in Hr. lia.
  - intros [= <-]. lia.
Qed.

Lemma do_bind_times_index (count : nat) (skip : Z) :
  forall s b,
    fst (do_bind_times h count skip s b) <> Stuck
    /\ forall s', fst (do_bind_times h count skip s b) = Returns s' ->
                  index s' = index s.
Proof.
  induction count as [|count IH]; intros s b; cbn [do_bind_times].
  - cbn. split; [discriminate |]. intros s' [= <-]. reflexivity.
  - destruct (seg_end_address s <=? address s);
      [cbn; split; [discriminate | discriminate] |].
    unfold_M. pose proof (h_not_stuck s b) as Hns.
    destruct (h s b) as [[[]|e|] b']; cbn [fst] in *;
      try (split; [congruence | discriminate]).
    destruct (IH (add_address_ov s (address s) (skip + sizeof_intptr_t s)) b')
      as [H1 H2].
    split; [exact H1 |]. intros s' Hs'. apply H2 in Hs'. exact Hs'.
Qed.

Lemma advances_opcodes :
  Forall (fun e => advances (snd e)) (normal_opcodes h ++ lazy_opcodes h).
Proof.
  unfold normal_opcodes, lazy_opcodes. cbn [app].
  repeat apply List.Forall_cons; cbn [snd]; try apply List.Forall_nil;
    try (intros s i blob b;
         first [ unfold n_opcode_done; reduce_call | unfold n_opcode_set_dylib_ordinal_imm; reduce_call
               | unfold n_opcode_set_dylib_ordinal_uleb; reduce_call
               | unfold n_opcode_set_type_imm; reduce_call
               | unfold n_opcode_set_addend_sleb; reduce_call
               | unfold n_opcode_add_addr_uleb; reduce_call ];
         cbn; split; [discriminate | intros s' [= <-]; cbn; lia]).
  - (* SET_DYLIB_SPECIAL_IMM *)
    intros s i blob b. unfold n_opcode_set_dylib_special_imm; reduce_call.
    destruct (i =? 0); cbn; (split; [discriminate |]);
      intros s' [= <-]; cbn; lia.
  - (* SET_SYMBOL_TRAILING_FLAGS_IMM *)
    intros s i blob b. unfold n_opcode_set_trailing_flags_imm; reduce_call.
    destruct (read_sym_name _ _) as [t|] eqn:E; cbn;
      (split; [discriminate |]); [| discriminate].
    intros s' [= <-]. apply read_sym_name_index in E. cbn in *. lia.
  - (* SET_SEGMENT_AND_OFFSET_ULEB *)
    intros s i blob b. unfold n_opcode_set_segment_and_offset_uleb; reduce_call.
    unfold_M. destruct (getitem _ _); cbn; (split; [discriminate |]);
      [| discriminate].
    intros s' [= <-]. cbn. lia.
  - (* DO_BIND *)
    intros s i blob b. unfold n_opcode_do_bind, check_address_bounds; reduce_call.
    destruct (seg_end_address s <=? address s);
      [cbn; split; discriminate |].
    destruct (advances_invoke s
                (add_address_ov s (address s) (sizeof_intptr_t s)) b)
      as [H1 H2].
    split; [exact H1 |]. intros s' Hs'. apply H2 in Hs'. subst s'. cbn. lia.
  - (* DO_BIND_ADD_ADDR_ULEB *)
    intros s i blob b. unfold n_opcode_do_bind_add_addr_uleb; reduce_call.
    destruct (seg_end_address s <=? address s);
      [cbn; split; discriminate |].
    match goal with
    | |- context [(h ?t ;; mret ?t') b] =>
        destruct (advances_invoke t t' b) as [H1 H2]
    end.
    split; [exact H1 |]. intros s' Hs'. apply H2 in Hs'. subst s'. cbn. lia.
  - (* DO_BIND_ADD_ADDR_IMM_SCALED *)
    intros s i blob b. unfold n_opcode_do_bind_add_addr_imm_scaled; reduce_call.
    destruct (seg_end_address s <=? address s);
      [cbn; split; discriminate |].
    match goal with
    | |- context [(h ?t ;; mret ?t') b] =>
        destruct (advances_invoke t t' b) as [H1 H2]
    end.
    split; [exact H1 |]. intros s' Hs'. apply H2 in Hs'. subst s'. cbn. lia.
  - (* DO_BIND_ULEB_TIMES_SKIPPING_ULEB *)
    intros s i blob b. unfold n_opcode_do_bind_uleb_times_skipping_uleb; reduce_call.
    match goal with
    | |- context [do_bind_times h ?c ?k ?t b] =>
        destruct (do_bind_times_index c k t b) as [H1 H2]
    end.
    split; [exact H1 |]. intros s' Hs'. apply H2 in Hs'. rewrite Hs'. cbn. lia.
  - (* lazy SET_DYLIB_SPECIAL_IMM *)
    intros s i blob b. unfold n_opcode_set_dylib_special_imm; reduce_call.
    destruct (i =? 0); cbn; (split; [discriminate |]);
      intros s' [= <-]; cbn; lia.
  - (* lazy SET_SYMBOL_TRAILING_FLAGS_IMM *)
    intros s i blob b. unfold n_opcode_set_trailing_flags_imm; reduce_call.
    destruct (read_sym_name _ _) as [t|] eqn:E; cbn;
      (split; [discriminate |]); [| discriminate].
    intros s' [= <-]. apply read_sym_name_index in E. cbn in *. lia.
  - (* lazy SET_SEGMENT_AND_OFFSET_ULEB *)
    intros s i blob b. unfold l_opcode_set_segment_and_offset_uleb; reduce_call.
    unfold_M. destruct (getitem _ _); cbn; (split; [discriminate |]);
      [| discriminate].
    intros s' [= <-]. cbn. lia.
  - (* lazy DO_BIND *)
    intros s i blob b. unfold l_opcode_do_bind; reduce_call.
    destruct (advances_invoke s s b) as [H1 H2].
    split; [exact H1 |]. intros s' Hs'. apply H2 in Hs'. subst s'. lia.
Qed.

Lemma advances_lookup (opcodes : list (Z * handler)) (op : Z) (hd : handler) :
  opcodes = normal_opcodes h \/ opcodes = lazy_opcodes h ->
  (list_to_map opcodes : gmap Z handler) !! op = Some hd -> advances hd.
Proof.
  intros Hop E. apply elem_of_list_to_map_2 in E.
  pose proof advances_opcodes as Hall. rewrite Forall_forall in Hall.
  apply (Hall (op, hd)). rewrite elem_of_app.
  destruct Hop as [<-|<-]; [left | right]; exact E.
Qed.

(** With as many iterations as bytes remain the dispatcher is never
    stuck; the cursor does not go back, and it goes forward when the
    loop is entered at all. *)
Lemma dispatch_enough_fuel (opcodes : list (Z * handler)) (blob : list byte) :
  opcodes = normal_opcodes h \/ opcodes = lazy_opcodes h ->
  forall fuel s b, (length blob - index s <= fuel)%nat ->
    fst (dispatch fuel blob s (list_to_map opcodes) b) <> Stuck
    /\ forall s', fst (dispatch fuel blob s (list_to_map opcodes) b)
                  = Returns s' ->
         (index s <= index s')%nat
         /\ (done s = false -> (index s < length blob)%nat ->
             (index s < index s')%nat).
Proof.
  intros Hop. induction fuel as [|fuel IH]; intros s b Hfuel;
    cbn [dispatch].
  - destruct (done s) eqn:Hd; cbn [negb andb].
    + cbn. split; [discriminate |]. intros s' [= <-].
      split; [lia | discriminate].
    + destruct (Nat.ltb_spec (index s) (length blob)); [lia |].
      cbn. split; [discriminate |]. intros s' [= <-]. lia.
  - destruct (done s) eqn:Hd; cbn [negb andb].
    { cbn. split; [discriminate |]. intros s' [= <-].
      split; [lia | discriminate]. }
    destruct (Nat.ltb_spec (index s) (length blob)) as [Hlt|Hge].
    2:{ cbn. split; [discriminate |]. intros s' [= <-]. lia. }
    destruct (blob !! index s) as [x|] eqn:Ex;
      [| cbn; split; discriminate].
    set (s1 := set_index (index s + 1) s).
    destruct (list_to_map opcodes !! _) as [hd|] eqn:E.
    + destruct (advances_lookup opcodes _ hd Hop E s1
                  (Z.land (chh x) mach_o.BIND_IMMEDIATE_MASK) blob b)
        as [Hns Hidx].
      pose proof (at_KeyError_frame h _ _ (lookup_table h opcodes _ hd Hop E)
                    s1 (Z.land (chh x) mach_o.BIND_IMMEDIATE_MASK) blob b)
        as (_ & _ & _ & Hcaught).
      cbn [index s1 set_index] in Hcaught.
      unfold mbind, M_bind, except_KeyError.
      destruct (hd s1 _ blob b) as [[s2|[]|] b2]; cbn [fst] in *;
        try (split; discriminate); try congruence.
      * specialize (Hidx s2 eq_refl). cbn [index s1 set_index] in Hidx.
        destruct (IH s2 b2 ltac:(lia)) as [H1 H2].
        split; [exact H1 |]. intros s' Hs'. apply H2 in Hs'. lia.
      * match goal with
        | |- context [dispatch fuel blob ?t _ b2] =>
            destruct (IH t b2 ltac:(lia)) as [H1 H2]
        end.
        split; [exact H1 |]. intros s' Hs'. apply H2 in Hs'. lia.
    + destruct (IH s1 b ltac:(cbn; lia)) as [H1 H2].
      split; [exact H1 |]. intros s' Hs'. apply H2 in Hs'. cbn in Hs'. lia.
Qed.

Lemma lazy_records_enough_fuel (blob : list byte) :
  forall fuel s b, (length blob - index s <= fuel)%nat ->
    fst (lazy_records h fuel blob s b) <> Stuck.
Proof.
  induction fuel as [|fuel IH]; intros s b Hfuel; cbn [lazy_records].
  - destruct (Nat.ltb_spec (index s) (length blob)); [lia | discriminate].
  - destruct (Nat.ltb_spec (index s) (length blob)) as [Hlt|];
      [| discriminate].
    unfold _do_bind_generic, segments_getitem. unfold mbind, M_bind.
    destruct (getitem _ _) as [seg|]; [| discriminate].
    set (s1 := set_seg_end_address _ (lazy_reinit s)).
    destruct (dispatch_enough_fuel (lazy_opcodes h) blob (or_intror eq_refl)
                (length blob) s1 b ltac:(lia)) as [H1 H2].
    destruct (dispatch _ _ _ _ b) as [[s2|e|] b2]; cbn [fst] in *;
      [| discriminate | congruence].
    destruct (H2 s2 eq_refl) as [_ Hprog].
    specialize (Hprog eq_refl Hlt). cbn in Hprog.
    apply IH. lia.
Qed.

(** Both passes end: they return or raise. *)
Lemma do_bind_terminates (blob : option (list byte)) (b : Binary) :
  fst (do_normal_bind_with h blob b) <> Stuck
  /\ fst (do_lazy_bind_with h blob b) <> Stuck.
Proof.
  destruct blob as [blob|]; [| split; discriminate]. split.
  - unfold do_normal_bind_with, _do_bind_generic, arch_is_64, segments_getitem.
    unfold mbind, M_bind, mret, M_ret.
    destruct (getitem (segments b) 0) as [seg0|]; [| discriminate].
    destruct (getitem (segments b) _) as [seg|]; [| discriminate].
    match goal with
    | |- context [dispatch ?f blob ?t ?d b] =>
        destruct (dispatch_enough_fuel (normal_opcodes h) blob
                    (or_introl eq_refl) f t b ltac:(lia)) as [H1 _];
        destruct (dispatch f blob t d b) as [[s2|e|] b2]
    end; cbn [fst] in *; congruence.
  - unfold do_lazy_bind_with, arch_is_64. unfold mbind, M_bind.
    apply lazy_records_enough_fuel. cbn. lia.
Qed.

End Termination.

(** ** Outcomes of a pass *)

(** C3: a blob whose [SET_SYMBOL_TRAILING_FLAGS_IMM] string has no NUL
    before the end makes either pass raise [IndexError], which is not the
    invalid-binary error; so does a [SET_SEGMENT_AND_OFFSET_ULEB] that
    names a segment the image does not have. *)
Theorem unterminated_symbol_raises_IndexError :
  let b := {| arch_bits := 64; struct_byteorder := little_endian;
              segments := [ {| vaddr := 0x1000; memsize := 0x1000 |} ];
              heap := []; symbols := []; _ordered_symbols := [];
              memory := ∅; lva_to_rva := fun a => a |} in
  do_normal_bind (Some [x40; x41]) b = (Raises IndexError, b)
  /\ do_lazy_bind (Some [x40; x41]) b = (Raises IndexError, b)
  /\ do_normal_bind (Some [x75; x00]) b = (Raises IndexError, b)
  /\ IndexError <> CLEInvalidBinaryError.
Proof.
  intros b.
  split; [vm_compute; reflexivity |].
  split; [vm_compute; reflexivity |].
  split; [vm_compute; reflexivity | discriminate].
Qed.

(** On every blob and image both passes end, by returning or by
    raising. *)
Lemma do_bind_returns_or_raises (blob : option (list byte)) (b : Binary) :
  (exists r, fst (do_normal_bind blob b) = r
             /\ (r = Returns tt \/ exists e, r = Raises e))
  /\ (exists r, fst (do_lazy_bind blob b) = r
                /\ (r = Returns tt \/ exists e, r = Raises e)).
Proof.
  destruct (do_bind_terminates default_binding_handler
              default_binding_handler_not_stuck blob b) as [Hn Hl].
  unfold do_normal_bind, do_lazy_bind.
  split.
  - destruct (fst (do_normal_bind_with _ blob b)) as [[]|e|]; eauto; congruence.
  - destruct (fst (do_lazy_bind_with _ blob b)) as [[]|e|]; eauto; congruence.
Qed.

(** * Further properties of the interpreter *)

(** ** Range and length of the decoders *)

Lemma read_uleb_loop_bounds (rest : list byte) :
  forall r s k, 0 <= s -> 0 <= r < 2 ^ s ->
  let p := read_uleb_loop rest r s k in
  (k <= snd p <= k + length rest)%nat
  /\ (rest <> [] -> (k < snd p)%nat)
  /\ r <= fst p < 2 ^ (s + 7 * (Z.of_nat (snd p) - Z.of_nat k)).
Proof.
  induction rest as [|x rest IH]; intros r s k Hs Hr; cbn [read_uleb_loop].
  - cbn. split; [lia | split; [congruence |]].
    replace (s + 7 * (Z.of_nat k - Z.of_nat k)) with s by lia. lia.
  - rewrite chh_low7.
    pose proof (Z.mod_pos_bound (chh x) 128 ltac:(lia)) as Hm.
    rewrite lor_shiftl_add by lia.
    assert (Hp : 0 < 2 ^ s) by (apply Z.pow_pos_nonneg; lia).
    assert (Hr' : 0 <= r + chh x mod 128 * 2 ^ s < 2 ^ (s + 7)).
    { rewrite Z.pow_add_r by lia. change (2 ^ 7) with 128. nia. }
    destruct (Z.land (chh x) 128 =? 0).
    + cbn [fst snd length]. split; [lia | split; [lia |]].
      replace (s + 7 * (Z.of_nat (S k) - Z.of_nat k)) with (s + 7) by lia.
      nia.
    + destruct (IH (r + chh x mod 128 * 2 ^ s) (s + 7) (S k)
                  ltac:(lia) Hr') as (Hn & _ & Hv).
      cbn [length]. split; [lia | split; [lia |]].
      replace (s + 7 * (Z.of_nat (snd (read_uleb_loop rest
                 (r + chh x mod 128 * 2 ^ s) (s + 7) (S k))) - Z.of_nat k))
        with (s + 7 + 7 * (Z.of_nat (snd (read_uleb_loop rest
                 (r + chh x mod 128 * 2 ^ s) (s + 7) (S k))) - Z.of_nat (S k)))
        by lia.
      nia.
Qed.

(** X1: [read_uleb] never reads past the end of the blob and always
    takes a byte when one is left; its value is not negative and fits
    seven bits per byte read. At or past the end it returns [(0, 0)]. *)
Theorem read_uleb_bounds (blob : list byte) (offset : nat) :
  (snd (read_uleb blob offset) <= length blob - offset)%nat
  /\ ((offset < length blob)%nat -> (0 < snd (read_uleb blob offset))%nat)
  /\ 0 <= fst (read_uleb blob offset)
       < 2 ^ (7 * Z.of_nat (snd (read_uleb blob offset)))
  /\ ((length blob <= offset)%nat -> read_uleb blob offset = (0, 0%nat)).
Proof.
  unfold read_uleb.
  destruct (read_uleb_loop_bounds (drop offset blob) 0 0 0%nat
              ltac:(lia) ltac:(cbn; lia)) as (Hn & Hpos & Hv).
  cbv zeta in Hn, Hpos, Hv. rewrite length_drop in Hn.
  split; [lia | split; [| split]].
  - intros Hlt. apply Hpos. intros Hnil.
    apply (f_equal length) in Hnil. rewrite length_drop in Hnil.
    cbn in Hnil. lia.
  - replace (7 * Z.of_nat (snd (read_uleb_loop (drop offset blob) 0 0 0)))
      with (0 + 7 * (Z.of_nat (snd (read_uleb_loop (drop offset blob) 0 0 0))
                     - Z.of_nat 0)) by lia.
    exact Hv.
  - intros Hge. rewrite drop_ge by lia. reflexivity.
Qed.

Lemma read_sleb_loop_uleb (rest : list byte) :
  forall r s k, 0 <= s -> 0 <= r < 2 ^ s ->
  let pu := read_uleb_loop rest r s k in
  let ps := read_sleb_loop rest r s k in
  snd ps = snd pu
  /\ (fst ps = fst pu
      \/ (fst ps = fst pu - 2 ^ (s + 7 * (Z.of_nat (snd pu) - Z.of_nat k))
          /\ 2 ^ (s + 7 * (Z.of_nat (snd pu) - Z.of_nat k)) <= 2 * fst pu)).
Proof.
  induction rest as [|x rest IH]; intros r s k Hs Hr;
    cbn [read_uleb_loop read_sleb_loop].
  - cbn. tauto.
  - rewrite chh_low7, chh_bit6.
    pose proof (Z.mod_pos_bound (chh x) 128 ltac:(lia)) as Hm.
    rewrite lor_shiftl_add by lia.
    assert (Hp : 0 < 2 ^ s) by (apply Z.pow_pos_nonneg; lia).
    assert (Hr' : 0 <= r + chh x mod 128 * 2 ^ s < 2 ^ (s + 7)).
    { rewrite Z.pow_add_r by lia. change (2 ^ 7) with 128. nia. }
    destruct (Z.land (chh x) 128 =? 0).
    + cbn [fst snd].
      replace (s + 7 * (Z.of_nat (S k) - Z.of_nat k)) with (s + 7) by lia.
      destruct (Z.ltb_spec (chh x mod 128) 64); cbn [negb fst snd].
      * tauto.
      * split; [reflexivity | right].
        rewrite Z.shiftl_mul_pow2 by lia.
        rewrite Z.pow_add_r by lia. change (2 ^ 7) with 128.
        split; [lia | nia].
    + destruct (IH (r + chh x mod 128 * 2 ^ s) (s + 7) (S k)
                  ltac:(lia) Hr') as (Hn & Hv).
      pose proof (read_uleb_loop_bounds rest (r + chh x mod 128 * 2 ^ s)
                    (s + 7) (S k) ltac:(lia) Hr') as (Hk & _).
      split; [exact Hn |].
      replace (s + 7 * (Z.of_nat (snd (read_uleb_loop rest
                 (r + chh x mod 128 * 2 ^ s) (s + 7) (S k))) - Z.of_nat k))
        with (s + 7 + 7 * (Z.of_nat (snd (read_uleb_loop rest
                 (r + chh x mod 128 * 2 ^ s) (s + 7) (S k))) - Z.of_nat (S k)))
        by lia.
      exact Hv.
Qed.

(** X2: [read_sleb] reads exactly the bytes that [read_uleb] reads, and
    its value is the unsigned one or, when negative, the unsigned one
    less [2^(7 n)] for the [n] bytes read; it lies in
    [-2^(7 n - 1), 2^(7 n)). *)
Theorem read_sleb_read_uleb (blob : list byte) (offset : nat) :
  let u := fst (read_uleb blob offset) in
  let v := fst (read_sleb blob offset) in
  let n := Z.of_nat (snd (read_uleb blob offset)) in
  snd (read_sleb blob offset) = snd (read_uleb blob offset)
  /\ (v = u \/ v = u - 2 ^ (7 * n))
  /\ (v < 0 -> v = u - 2 ^ (7 * n))
  /\ - 2 ^ (7 * n) <= 2 * v /\ v < 2 ^ (7 * n).
Proof.
  intros u v n. subst u v n. unfold read_uleb, read_sleb.
  destruct (read_uleb_loop_bounds (drop offset blob) 0 0 0%nat
              ltac:(lia) ltac:(cbn; lia)) as (_ & _ & Hu).
  destruct (read_sleb_loop_uleb (drop offset blob) 0 0 0%nat
              ltac:(lia) ltac:(cbn; lia)) as (Hn & Hv).
  cbv zeta in Hu, Hn, Hv.
  replace (0 + 7 * (Z.of_nat (snd (read_uleb_loop (drop offset blob) 0 0 0))
                    - Z.of_nat 0))
    with (7 * Z.of_nat (snd (read_uleb_loop (drop offset blob) 0 0 0)))
    in Hu by lia.
  replace (0 + 7 * (Z.of_nat (snd (read_uleb_loop (drop offset blob) 0 0 0))
                    - Z.of_nat 0))
    with (7 * Z.of_nat (snd (read_uleb_loop (drop offset blob) 0 0 0)))
    in Hv by lia.
  split; [exact Hn |]. lia.
Qed.

(** ** Backward jumps *)

(** X3: a backward jump by [k], encoded as the delta [2^64 - k], moves an
    address [a > k] to [a - k]; a forward delta that stays below [2^64]
    is added as it is; and whatever the operands, the new address is
    congruent to the sum modulo the wrap-around and no other register
    changes. *)
Theorem add_address_ov_jumps (s : BindingState) (a d : Z) :
  wraparound s = 2 ^ 64 ->
  (forall k, 0 <= k < a -> d = 2 ^ 64 - k ->
             address (add_address_ov s a d) = a - k)
  /\ (a + d <= 2 ^ 64 -> address (add_address_ov s a d) = a + d)
  /\ address (add_address_ov s a d) mod 2 ^ 64 = (a + d) mod 2 ^ 64
  /\ add_address_ov s a d = set_address (address (add_address_ov s a d)) s.
Proof.
  intros Hw. unfold add_address_ov. rewrite Hw. cbn [address set_address].
  split; [| split; [| split]].
  - intros k Hk ->. destruct (Z.ltb_spec (2 ^ 64) (a + (2 ^ 64 - k))); lia.
  - intros Hle. destruct (Z.ltb_spec (2 ^ 64) (a + d)); lia.
  - destruct (Z.ltb_spec (2 ^ 64) (a + d)); [| reflexivity].
    replace (a + d - 2 ^ 64) with (a + d + (-1) * 2 ^ 64) by lia.
    apply Z.mod_add. lia.
  - reflexivity.
Qed.

Lemma add_address_ov_jumps_witness :
  address (add_address_ov (BindingState_init true) 0x20 0xFFFFFFFFFFFFFFF0)
  = 0x10.
Proof.
  destruct (add_address_ov_jumps (BindingState_init true) 0x20
              0xFFFFFFFFFFFFFFF0 eq_refl) as (Hback & _).
  apply (Hback 0x10); [lia | reflexivity].
Defined.

(** ** Special library ordinals *)

(** X4: for an immediate [i] of four bits, [SET_DYLIB_SPECIAL_IMM] sets
    [lib_ord] to 0 when [i] is 0 and to [i - 16] otherwise (so 15 gives
    -1, 14 gives -2, and 1 gives -15); nothing else changes. *)
Theorem n_opcode_set_dylib_special_imm_value (s : BindingState) (i : Z)
  (blob : list byte) (b : Binary) :
  0 <= i < 16 ->
  n_opcode_set_dylib_special_imm s i blob b
  = (Returns (set_lib_ord (if i =? 0 then 0 else i - 16) s), b)
  /\ -15 <= (if i =? 0 then 0 else i - 16) <= 0.
Proof.
  intros Hi. unfold n_opcode_set_dylib_special_imm, mach_o.BIND_OPCODE_MASK; reduce_call.
  change 0xF0 with (Z.shiftl 15 4).
  rewrite lor_shiftl_add by (change (2 ^ 4) with 16; lia).
  change (2 ^ 4) with 16.
  destruct (Z.eqb_spec i 0) as [->|Hne].
  - split; [reflexivity | lia].
  - split; [| lia]. unfold mret, M_ret.
    replace (i + 15 * 16 - 256) with (i - 16) by lia. reflexivity.
Qed.

Lemma n_opcode_set_dylib_special_imm_value_witness :
  let b := {| arch_bits := 64; struct_byteorder := little_endian;
              segments := []; heap := []; symbols := [];
              _ordered_symbols := []; memory := ∅;
              lva_to_rva := fun a => a |} in
  n_opcode_set_dylib_special_imm (BindingState_init true) 15 [] b
  = (Returns (set_lib_ord (-1) (BindingState_init true)), b).
Proof.
  intros b.
  apply (n_opcode_set_dylib_special_imm_value (BindingState_init true) 15 [] b).
  lia.
Defined.

(** ** Symbol names *)

(** X5: [SET_SYMBOL_TRAILING_FLAGS_IMM] reads back a NUL-terminated
    name: with the cursor on the first byte of a name that has no NUL in
    it, followed by a NUL, it sets [sym_name] to the name, [sym_flags] to
    the immediate, and leaves the cursor just past the NUL; whatever name
    was set before is dropped. *)
Theorem n_opcode_set_trailing_flags_imm_reads_name (s : BindingState)
  (i : Z) (pre name post : list byte) (b : Binary) :
  Forall (fun x => x <> x00) name ->
  index s = length pre ->
  n_opcode_set_trailing_flags_imm s i (pre ++ name ++ x00 :: post) b
  = (Returns (set_index (length pre + length name + 1)
                (set_sym_name (string_of_list_byte name)
                   (set_sym_flags i s))), b).
Proof.
  intros Hname Hidx. unfold n_opcode_set_trailing_flags_imm; reduce_call.
  cbn [index set_sym_flags set_sym_name]. rewrite Hidx, drop_app_length.
  rewrite (read_sym_name_app name post Hname).
  destruct s; cbn in *. subst. reflexivity.
Qed.

Lemma n_opcode_set_trailing_flags_imm_reads_name_witness :
  let b := {| arch_bits := 64; struct_byteorder := little_endian;
              segments := []; heap := []; symbols := [];
              _ordered_symbols := []; memory := ∅;
              lva_to_rva := fun a => a |} in
  let s := set_sym_name "_old" (set_index 1 (BindingState_init true)) in
  n_opcode_set_trailing_flags_imm s 8 [x48; x5f; x66; x6f; x6f; x00; x90] b
  = (Returns (set_index 6 (set_sym_name "_foo" (set_sym_flags 8 s))), b).
Proof.
  intros b s.
  apply (n_opcode_set_trailing_flags_imm_reads_name s 8 [x48]
           [x5f; x66; x6f; x6f] [x90] b).
  - repeat constructor; discriminate.
  - reflexivity.
Defined.

(** ** What a pass does to the image *)

Section ImageFrame.

Variable h : BindingState -> M unit.
Variable P : Binary -> Prop.
Hypothesis h_keeps : forall s b, P b -> P (snd (h s b)).

Let preserves (hd : handler) : Prop :=
  forall s i blob b, P b -> P (snd (hd s i blob b)).

Lemma preserves_invoke (s s' : BindingState) (b : Binary) :
  P b -> P (snd ((h s ;; mret s' : M BindingState) b)).
Proof.
  intros HP. unfold_M. pose proof (h_keeps s b HP) as HP'.
  destruct (h s b) as [[[]|e|] b']; exact HP'.
Qed.

Lemma preserves_do_bind_times (count : nat) (skip : Z) :
  forall s b, P b -> P (snd (do_bind_times h count skip s b)).
Proof.
  induction count as [|count IH]; intros s b HP; cbn [do_bind_times].
  - exact HP.
  - destruct (seg_end_address s <=? address s); [exact HP |].
    unfold_M. pose proof (h_keeps s b HP) as HP'.
    destruct (h s b) as [[[]|e|] b']; cbn [snd] in *; try exact HP'.
    apply IH. exact HP'.
Qed.

Lemma preserves_opcodes :
  Forall (fun e => preserves (snd e)) (normal_opcodes h ++ lazy_opcodes h).
Proof.
  unfold normal_opcodes, lazy_opcodes. cbn [app].
  repeat apply List.Forall_cons; cbn [snd]; try apply List.Forall_nil;
    intros s i blob b HP;
    try (first [ unfold n_opcode_done; reduce_call | unfold n_opcode_set_dylib_ordinal_imm; reduce_call
               | unfold n_opcode_set_dylib_ordinal_uleb; reduce_call
               | unfold n_opcode_set_type_imm; reduce_call
               | unfold n_opcode_set_addend_sleb; reduce_call
               | unfold n_opcode_add_addr_uleb; reduce_call ];
         exact HP).
  - unfold n_opcode_set_dylib_special_imm; reduce_call. destruct (i =? 0); exact HP.
  - unfold n_opcode_set_trailing_flags_imm; reduce_call.
    destruct (read_sym_name _ _); exact HP.
  - unfold n_opcode_set_segment_and_offset_uleb; reduce_call. unfold_M.
    destruct (getitem _ _); exact HP.
  - unfold n_opcode_do_bind, check_address_bounds; reduce_call.
    destruct (seg_end_address s <=? address s); [exact HP |].
    apply (preserves_invoke s _ b HP).
  - unfold n_opcode_do_bind_add_addr_uleb; reduce_call.
    destruct (seg_end_address s <=? address s); [exact HP |].
    apply (preserves_invoke _ _ b HP).
  - unfold n_opcode_do_bind_add_addr_imm_scaled; reduce_call.
    destruct (seg_end_address s <=? address s); [exact HP |].
    apply (preserves_invoke s _ b HP).
  - unfold n_opcode_do_bind_uleb_times_skipping_uleb; reduce_call.
    apply preserves_do_bind_times. exact HP.
  - unfold n_opcode_set_dylib_special_imm; reduce_call. destruct (i =? 0); exact HP.
  - unfold n_opcode_set_trailing_flags_imm; reduce_call.
    destruct (read_sym_name _ _); exact HP.
  - unfold l_opcode_set_segment_and_offset_uleb; reduce_call. unfold_M.
    destruct (getitem _ _); exact HP.
  - unfold l_opcode_do_bind; reduce_call. apply (preserves_invoke s s b HP).
Qed.

Lemma preserves_dispatch (opcodes : list (Z * handler)) (blob : list byte) :
  opcodes = normal_opcodes h \/ opcodes = lazy_opcodes h ->
  forall fuel s b, P b -> P (snd (dispatch fuel blob s (list_to_map opcodes) b)).
Proof.
  intros Hop. induction fuel as [|fuel IH]; intros s b HP; cbn [dispatch].
  - destruct (negb (done s) && (index s <? length blob)%nat); exact HP.
  - destruct (negb (done s) && (index s <? length blob)%nat); [| exact HP].
    destruct (blob !! index s) as [x|]; [| exact HP].
    destruct (list_to_map opcodes !! _) as [hd|] eqn:E.
    + apply elem_of_list_to_map_2 in E.
      pose proof preserves_opcodes as Hall. rewrite Forall_forall in Hall.
      assert (Hhd : preserves hd).
      { apply (Hall (Z.land (chh x) mach_o.BIND_OPCODE_MASK, hd)).
        rewrite elem_of_app.
        destruct Hop as [<-|<-]; [left | right]; exact E. }
      unfold mbind, M_bind, except_KeyError.
      specialize (Hhd (set_index (index s + 1) s)
                    (Z.land (chh x) mach_o.BIND_IMMEDIATE_MASK) blob b HP).
      destruct (hd _ _ blob b) as [[s'|[]|] b']; cbn [snd] in *;
        try exact Hhd; apply IH; exact Hhd.
    + apply IH. exact HP.
Qed.

Lemma preserves_do_bind_generic (opcodes : list (Z * handler))
  (blob : list byte) (s : BindingState) (b : Binary) :
  opcodes = normal_opcodes h \/ opcodes = lazy_opcodes h ->
  P b -> P (snd (_do_bind_generic blob s (list_to_map opcodes) b)).
Proof.
  intros Hop HP. unfold _do_bind_generic, segments_getitem.
  unfold mbind, M_bind.
  destruct (getitem _ _); [| exact HP].
  apply preserves_dispatch; assumption.
Qed.

Lemma preserves_lazy_records (blob : list byte) :
  forall fuel s b, P b -> P (snd (lazy_records h fuel blob s b)).
Proof.
  induction fuel as [|fuel IH]; intros s b HP; cbn [lazy_records].
  - destruct (index s <? length blob)%nat; exact HP.
  - destruct (index s <? length blob)%nat; [| exact HP].
    unfold mbind, M_bind.
    pose proof (preserves_do_bind_generic (lazy_opcodes h) blob
                  (lazy_reinit s) b (or_intror eq_refl) HP) as HP'.
    destruct (_do_bind_generic _ _ _ b) as [[s'|e|] b']; cbn [snd] in *;
      try exact HP'.
    apply IH. exact HP'.
Qed.

Lemma preserves_passes (blob : option (list byte)) (b : Binary) :
  P b ->
  P (snd (do_normal_bind_with h blob b))
  /\ P (snd (do_lazy_bind_with h blob b)).
Proof.
  intros HP. destruct blob as [blob|]; [| split; exact HP]. split.
  - unfold do_normal_bind_with, arch_is_64, segments_getitem.
    unfold mbind, M_bind, mret, M_ret.
    destruct (getitem (segments b) 0); [| exact HP].
    match goal with
    | |- context [_do_bind_generic blob ?t ?d b] =>
        pose proof (preserves_do_bind_generic (normal_opcodes h) blob t b
                      (or_introl eq_refl) HP) as HP';
        destruct (_do_bind_generic blob t d b) as [[s'|e|] b']
    end; exact HP'.
  - unfold do_lazy_bind_with, arch_is_64. unfold mbind, M_bind.
    apply preserves_lazy_records. exact HP.
Qed.

End ImageFrame.

(** X7: a pass touches the image only by invoking the fixup handler:
    whatever property of the image every invocation of the handler keeps
    is kept by the normal and by the lazy pass, for every blob and
    whatever the outcome (return or exception). *)
Theorem passes_change_image_through_handler
  (h : BindingState -> M unit) (P : Binary -> Prop)
  (blob : option (list byte)) (b : Binary) :
  (forall s b, P b -> P (snd (h s b))) ->
  P b ->
  P (snd (do_normal_bind_with h blob b))
  /\ P (snd (do_lazy_bind_with h blob b)).
Proof. intros Hh HP. apply preserves_passes; assumption. Qed.

Lemma passes_change_image_through_handler_witness :
  let b := {| arch_bits := 64; struct_byteorder := little_endian;
              segments := [ {| vaddr := 0x1000; memsize := 0x1000 |} ];
              heap := []; symbols := []; _ordered_symbols := [];
              memory := ∅; lva_to_rva := fun a => a |} in
  let blob := Some [x51; x40; x5f; x61; x00; x70; x10; x90; x00] in
  segments (snd (do_normal_bind blob b)) = segments b
  /\ segments (snd (do_lazy_bind blob b)) = segments b.
Proof.
  intros b blob.
  apply (passes_change_image_through_handler default_binding_handler
           (fun b' => segments b' = segments b) blob b).
  - intros s b' Hb'. rewrite default_binding_handler_segments. exact Hb'.
  - reflexivity.
Defined.

(** ** The image under the default handler *)

Lemma image_extends_refl (b : Binary) : image_extends b b.
Proof.
  unfold image_extends. rewrite Nat.sub_diag. cbn [seq]. rewrite !app_nil_r.
  repeat split; try lia.
  intros r sym Hr. exists sym. repeat split; try assumption. reflexivity.
Qed.

Lemma image_extends_trans (b1 b2 b3 : Binary) :
  image_extends b1 b2 -> image_extends b2 b3 -> image_extends b1 b3.
Proof.
  intros (Ha & Ho & Hs & Ht & Hl & Hsy & Hos & Hh)
         (Ha' & Ho' & Hs' & Ht' & Hl' & Hsy' & Hos' & Hh').
  assert (Hseq : seq (length (heap b1)) (length (heap b3) - length (heap b1))
                 = seq (length (heap b1)) (length (heap b2) - length (heap b1))
                   ++ seq (length (heap b2))
                        (length (heap b3) - length (heap b2))).
  { replace (length (heap b3) - length (heap b1))%nat
      with ((length (heap b2) - length (heap b1))
            + (length (heap b3) - length (heap b2)))%nat by lia.
    rewrite seq_app. do 2 f_equal. lia. }
  unfold image_extends.
  split; [congruence | split; [congruence | split; [congruence |]]].
  split; [congruence | split; [lia |]].
  split; [rewrite Hsy', Hsy, Hseq, app_assoc; reflexivity |].
  split; [rewrite Hos', Hos, Hseq, app_assoc; reflexivity |].
  intros r sym Hr.
  destruct (Hh r sym Hr) as (sym2 & Hr2 & Hn & Hlo & Hst & Hla & Hx).
  destruct (Hh' r sym2 Hr2) as (sym3 & Hr3 & Hn' & Hlo' & Hst' & Hla' & Hx').
  exists sym3. repeat split; try congruence.
  etrans; eassumption.
Qed.

Lemma locate_symbol_extends (s : BindingState) (b : Binary) :
  image_extends b (snd (locate_symbol s b))
  /\ memory (snd (locate_symbol s b)) = memory b
  /\ xref_count (snd (locate_symbol s b)) = xref_count b.
Proof.
  unfold locate_symbol, add_binding_symbol. unfold_M.
  destruct (1 <? _)%nat;
    [split; [apply image_extends_refl | split; reflexivity] |].
  destruct (_ <? 1)%nat.
  2:{ destruct (List.filter _ _);
        (split; [apply image_extends_refl | split; reflexivity]). }
  cbn [snd]. split; [| split; [reflexivity |]].
  - unfold image_extends.
    cbn [arch_bits struct_byteorder segments lva_to_rva heap symbols
         _ordered_symbols set_heap set_symbols set_ordered_symbols].
    rewrite length_app. cbn [length].
    replace (length (heap b) + 1 - length (heap b))%nat with 1%nat by lia.
    cbn [seq]. repeat split; try lia.
    intros r sym Hr. exists sym. rewrite lookup_app_l
      by (apply lookup_lt_Some in Hr; exact Hr).
    repeat split; try assumption. reflexivity.
  - unfold xref_count. cbn [heap set_heap set_symbols set_ordered_symbols].
    rewrite sum_list_with_app. cbn. lia.
Qed.

Lemma sum_list_with_alter {A : Type} (f : A -> nat) (g : A -> A)
  (l : list A) (r : nat) (x : A) :
  l !! r = Some x ->
  (sum_list_with f (alter g r l) + f x = sum_list_with f l + f (g x))%nat.
Proof.
  revert r. induction l as [|y l IH]; intros [|r] Hr; cbn in *;
    try discriminate.
  - injection Hr as ->. lia.
  - specialize (IH r Hr). lia.
Qed.

Lemma alter_xref_extends (b : Binary) (r : nat) (loc : Z) (m : Clemory) :
  image_extends b
    (set_heap (alter (xref_append_sym loc) r (heap b)) (set_memory m b)).
Proof.
  unfold image_extends.
  cbn [arch_bits struct_byteorder segments lva_to_rva heap symbols
       _ordered_symbols set_heap set_memory].
  rewrite length_alter, Nat.sub_diag. cbn [seq]. rewrite !app_nil_r.
  repeat split; try lia.
  intros r0 sym Hr0. rewrite list_lookup_alter.
  destruct (decide (r = r0)) as [->|Hne]; rewrite Hr0; cbn.
  - eexists. split; [reflexivity |]. cbn. repeat split.
    apply prefix_app_r. reflexivity.
  - exists sym. repeat split. reflexivity.
Qed.

Lemma set_memory_extends (b : Binary) (m : Clemory) :
  image_extends b (set_memory m b).
Proof. exact (image_extends_refl b). Qed.

Lemma struct_pack_length (order : byteorder) (w : nat) (v : Z)
  (data : list byte) :
  struct_pack order w v = Some data -> length data = w.
Proof.
  unfold struct_pack. destruct (_ && _); [| discriminate].
  destruct order; intros [= <-];
    [| rewrite length_rev]; apply le_bytes_length.
Qed.

(** What [bind_location] does by outcome: on return, one cross
    reference more and an image that extends the old one; otherwise no
    cross reference, and nothing at all unless it is the memory that has
    refused the store, which leaves the image as it was but for the
    bytes written before the refusal. *)
Lemma bind_location_outcome (s : BindingState) (r : nat) (b : Binary) :
  symbol_matches s b r = true ->
  (fst (bind_location s r b) = Returns tt
   /\ image_extends b (snd (bind_location s r b))
   /\ xref_count (snd (bind_location s r b)) = S (xref_count b))
  \/ (exists e rva data,
        fst (bind_location s r b) = Raises e
        /\ snd (bind_location s r b)
           = set_memory (snd (store rva data (memory b))) b
        /\ (length data <= 8)%nat
        /\ (binding_type s <> 1 -> (length data <= 4)%nat)
        /\ (e <> KeyError -> data = [])
        /\ (e = KeyError ->
            fst (store rva data (memory b)) = false
            /\ (binding_type s = 1 \/ binding_type s = 2
                \/ binding_type s = 3))).
Proof.
  unfold symbol_matches, bind_location.
  destruct (heap b !! r) as [sym|] eqn:Hr; [intros _ | discriminate].
  assert (Hcount : forall loc m,
            xref_count (set_heap (alter (xref_append_sym loc) r (heap b))
                          (set_memory m b)) = S (xref_count b)).
  { intros loc m. unfold xref_count. cbn [heap set_heap set_memory].
    pose proof (sum_list_with_alter (fun sym => length (bind_xrefs sym))
                  (xref_append_sym loc) (heap b) r sym Hr) as Hsum.
    cbn [xref_append_sym bind_xrefs] in Hsum. rewrite length_app in Hsum.
    cbn [length] in Hsum. lia. }
  assert (Hquiet : forall e,
            e <> KeyError ->
            exists e' rva data,
              fst ((raise e : M unit) b) = Raises e'
              /\ snd ((raise e : M unit) b)
                 = set_memory (snd (store rva data (memory b))) b
              /\ (length data <= 8)%nat
              /\ (binding_type s <> 1 -> (length data <= 4)%nat)
              /\ (e' <> KeyError -> data = [])
              /\ (e' = KeyError ->
                  fst (store rva data (memory b)) = false
                  /\ (binding_type s = 1 \/ binding_type s = 2
                      \/ binding_type s = 3))).
  { intros e He. exists e, 0, []. unfold raise. cbn [store fst snd length].
    split; [reflexivity |]. split; [destruct b; reflexivity |].
    repeat split; try lia; congruence. }
  assert (Hpatch : forall rva data loc,
            (length data <= 8)%nat ->
            (binding_type s <> 1 -> (length data <= 4)%nat) ->
            binding_type s = 1 \/ binding_type s = 2 \/ binding_type s = 3 ->
            let run := (memory_store rva data ;;
                        bind_xrefs_append r loc : M unit) b in
            (fst run = Returns tt
             /\ image_extends b (snd run)
             /\ xref_count (snd run) = S (xref_count b))
            \/ (exists e rva data,
                  fst run = Raises e
                  /\ snd run = set_memory (snd (store rva data (memory b))) b
                  /\ (length data <= 8)%nat
                  /\ (binding_type s <> 1 -> (length data <= 4)%nat)
                  /\ (e <> KeyError -> data = [])
                  /\ (e = KeyError ->
                      fst (store rva data (memory b)) = false
                      /\ (binding_type s = 1 \/ binding_type s = 2
                          \/ binding_type s = 3)))).
  { intros rva data loc Hlen Hlen4 Hty run. subst run.
    rewrite patch_outcome.
    destruct (fst (store rva data (memory b))) eqn:Hok; cbn [fst snd].
    - left. split; [reflexivity |].
      split; [apply alter_xref_extends | apply Hcount].
    - right. exists KeyError, rva, data.
      repeat split; try assumption; congruence. }
  destruct (Z.eqb_spec (binding_type s) 1) as [H1|H1].
  { destruct (struct_pack _ _ _) as [data|] eqn:Hpack.
    - apply Hpatch; [| intros H; contradiction | left; exact H1].
      apply struct_pack_length in Hpack. rewrite Hpack.
      destruct (arch_bits b =? 64); lia.
    - right. apply Hquiet. discriminate. }
  destruct (Z.eqb_spec (binding_type s) 2) as [H2|H2].
  { destruct (struct_pack _ _ _) as [data|] eqn:Hpack.
    - apply struct_pack_length in Hpack.
      apply Hpatch; [lia | lia | right; left; exact H2].
    - right. apply Hquiet. discriminate. }
  destruct (Z.eqb_spec (binding_type s) 3) as [H3|H3].
  { destruct (struct_pack _ _ _) as [data|] eqn:Hpack.
    - apply struct_pack_length in Hpack.
      apply Hpatch; [lia | lia | right; right; exact H3].
    - right. apply Hquiet. discriminate. }
  right. apply Hquiet. discriminate.
Qed.

Lemma default_binding_handler_extends (s : BindingState) (b : Binary) :
  image_extends b (snd (default_binding_handler s b)).
Proof.
  unfold default_binding_handler. unfold mbind, M_bind.
  destruct (locate_symbol_extends s b) as (Hext & _).
  pose proof (locate_symbol_valid s b) as Hv.
  destruct (locate_symbol s b) as [[r|e|] b1]; cbn [snd] in *;
    try exact Hext.
  destruct (bind_location_outcome s r b1 (Hv b1 r eq_refl))
    as [(_ & Hext' & _) | (e & rva & data & _ & -> & _)]; [| exact Hext].
  eapply image_extends_trans; eassumption.
Qed.

(** X8: both passes with the default handler only add to the image:
    architecture, byte order, segments and address translation stay as
    they are; every symbol keeps its name, library ordinal, stab flag and
    linked address and has its [bind_xrefs] only extended; and
    [symbols] and [_ordered_symbols] are extended by the same
    references, one for each symbol object created. This holds also when
    the pass ends in an exception. *)
Theorem passes_extend_image (blob : option (list byte)) (b : Binary) :
  image_extends b (snd (do_normal_bind blob b))
  /\ image_extends b (snd (do_lazy_bind blob b)).
Proof.
  apply (preserves_passes default_binding_handler (image_extends b)).
  - intros s b' Hb'. eapply image_extends_trans; [exact Hb' |].
    apply default_binding_handler_extends.
  - apply image_extends_refl.
Qed.


(** ** The 32-bit fixups and the unknown binding type *)

(** The two ways a patch can go, by what the memory backs. *)
Lemma patch_cases (rva : Z) (data : list byte) (r : nat) (loc : Z)
  (b : Binary) (sym : Symbol) :
  heap b !! r = Some sym ->
  let run := (memory_store rva data ;; bind_xrefs_append r loc : M unit) b in
  ((forall k, (k < length data)%nat ->
      backed (memory b) (rva + Z.of_nat k) = true) ->
   exists b2,
     run = (Returns tt, b2)
     /\ store rva data (memory b) = (true, memory b2)
     /\ (forall k x, data !! k = Some x ->
           memory b2 !! (rva + Z.of_nat k) = Some x)
     /\ (forall a, a < rva \/ rva + Z.of_nat (length data) <= a ->
           memory b2 !! a = memory b !! a)
     /\ heap b2 = alter (xref_append_sym loc) r (heap b)
     /\ bind_xrefs <$> heap b2 !! r = Some (bind_xrefs sym ++ [loc]))
  /\ (forall n, (n < length data)%nat ->
        backed (memory b) (rva + Z.of_nat n) = false ->
        (forall k, (k < n)%nat ->
           backed (memory b) (rva + Z.of_nat k) = true) ->
      exists b2,
        run = (Raises KeyError, b2)
        /\ store rva (take n data) (memory b) = (true, memory b2)
        /\ (forall a, a < rva \/ rva + Z.of_nat n <= a ->
              memory b2 !! a = memory b !! a)
        /\ heap b2 = heap b).
Proof.
  intros Hsym run. subst run. rewrite patch_outcome. split.
  - intros Hbacked. apply store_ok in Hbacked as Hok. rewrite Hok.
    eexists. split; [reflexivity |].
    cbn [memory heap set_heap set_memory].
    split; [rewrite <- Hok; destruct (store _ _ _); reflexivity |].
    split; [intros k x Hk; apply store_lookup_inside; assumption |].
    split; [intros a Ha; apply store_lookup_outside; exact Ha |].
    split; [reflexivity |].
    rewrite list_lookup_alter, Hsym. rewrite decide_True by reflexivity.
    reflexivity.
  - intros n Hn Hno Hyes.
    destruct (store_refused data rva (memory b) n Hn Hno Hyes) as [Hst Hpre].
    rewrite Hst. cbn [fst snd]. eexists. split; [reflexivity |].
    cbn [memory heap set_heap set_memory].
    split; [rewrite <- Hpre; apply surjective_pairing |].
    split; [| reflexivity].
    intros a Ha. apply store_lookup_outside. rewrite length_take. lia.
Qed.



(** X11: with a binding type other than 1, 2 and 3 (such as the 0 that a
    normal pass starts with) every fixup raises the invalid-binary error,
    and only after the lookup: memory and cross references are as
    before, but the placeholder of a missing symbol has been added. *)
Theorem unknown_binding_type (s : BindingState) (b : Binary) :
  binding_type s <> 1 -> binding_type s <> 2 -> binding_type s <> 3 ->
  default_binding_handler s b
  = (Raises CLEInvalidBinaryError, snd (locate_symbol s b))
  /\ (List.filter (symbol_matches s b) (symbols b) = [] ->
      heap (snd (default_binding_handler s b))
      = heap b ++ [BindingSymbol (sym_name s) (lib_ord s)])
  /\ memory (snd (default_binding_handler s b)) = memory b.
Proof.
  intros H1 H2 H3.
  assert (Hrun : default_binding_handler s b
                 = (Raises CLEInvalidBinaryError, snd (locate_symbol s b))).
  { unfold default_binding_handler. unfold mbind, M_bind.
    pose proof (locate_symbol_valid s b) as Hv.
    pose proof (locate_symbol_not_stuck s b) as Hns.
    destruct (locate_symbol s b) as [[r|e|] b1] eqn:E; cbn [fst snd] in *.
    - specialize (Hv b1 r eq_refl). unfold symbol_matches in Hv.
      unfold bind_location. destruct (heap b1 !! r); [| discriminate].
      apply Z.eqb_neq in H1, H2, H3. rewrite H1, H2, H3. reflexivity.
    - revert E. unfold locate_symbol, add_binding_symbol. unfold_M.
      destruct (1 <? _)%nat; [intros [= <- <-]; reflexivity |].
      destruct (_ <? 1)%nat; [discriminate |].
      destruct (List.filter _ _); discriminate.
    - congruence. }
  rewrite Hrun. cbn [snd]. split; [reflexivity | split].
  - intros Hnil. unfold locate_symbol. rewrite Hnil. reflexivity.
  - apply locate_symbol_frame.
Qed.

Lemma unknown_binding_type_witness :
  let b := {| arch_bits := 64; struct_byteorder := little_endian;
              segments := [ {| vaddr := 0x1000; memsize := 0x1000 |} ];
              heap := []; symbols := []; _ordered_symbols := [];
              memory := ∅; lva_to_rva := fun a => a |} in
  fst (do_normal_bind (Some [x40; x5f; x61; x00; x70; x10; x90; x00]) b)
  = Raises CLEInvalidBinaryError
  /\ heap (snd (default_binding_handler
                  (set_sym_name "_a" (BindingState_init true)) b))
     = [BindingSymbol "_a" 0].
Proof.
  intros b. split; [vm_compute; reflexivity |].
  destruct (unknown_binding_type (set_sym_name "_a" (BindingState_init true))
              b) as (_ & Hheap & _); try (cbn; lia).
  apply Hheap. reflexivity.
Defined.

(** ** The cursor *)

Lemma read_uleb_snd_le (blob : list byte) (offset : nat) :
  (snd (read_uleb blob offset) <= length blob - offset)%nat.
Proof.
  unfold read_uleb.
  destruct (read_uleb_loop_bounds (drop offset blob) 0 0 0%nat
              ltac:(lia) ltac:(cbn; lia)) as (Hn & _).
  cbv zeta in Hn. rewrite length_drop in Hn. lia.
Qed.

Lemma read_sleb_snd_le (blob : list byte) (offset : nat) :
  (snd (read_sleb blob offset) <= length blob - offset)%nat.
Proof.
  pose proof (read_uleb_snd_le blob offset) as Hu.
  unfold read_uleb, read_sleb in *.
  destruct (read_sleb_loop_uleb (drop offset blob) 0 0 0%nat
              ltac:(lia) ltac:(cbn; lia)) as (Hn & _).
  cbv zeta in Hn. rewrite Hn. exact Hu.
Qed.

Lemma read_sym_name_within (rest : list byte) :
  forall t t', read_sym_name rest t = Some t' ->
    (index t <= index t' < index t + length rest)%nat.
Proof.
  induction rest as [|x rest IH]; intros t t'; cbn [read_sym_name length];
    [discriminate |].
  destruct (negb (chh x =? 0)).
  - intros Hr. apply IH in Hr. cbn in Hr. lia.
  - intros [= <-]. lia.
Qed.

Section Cursor.

Variable h : BindingState -> M unit.

(** A handler that returns has not moved the cursor back, nor past the
    end of the blob. *)
Let in_blob (hd : handler) : Prop :=
  forall s i blob b s', fst (hd s i blob b) = Returns s' ->
    (index s <= index s')%nat
    /\ ((index s <= length blob)%nat -> (index s' <= length blob)%nat).

Lemma invoke_returns (s s' s'' : BindingState) (b : Binary) :
  fst ((h s ;; mret s' : M BindingState) b) = Returns s'' -> s'' = s'.
Proof.
  unfold_M. destruct (h s b) as [[[]|e|] b']; cbn; congruence.
Qed.

Lemma do_bind_times_returns (count : nat) (skip : Z) :
  forall s b s', fst (do_bind_times h count skip s b) = Returns s' ->
                 index s' = index s.
Proof.
  induction count as [|count IH]; intros s b s'; cbn [do_bind_times].
  - intros [= <-]. reflexivity.
  - destruct (seg_end_address s <=? address s); [discriminate |].
    unfold_M. destruct (h s b) as [[[]|e|] b']; cbn [fst]; try discriminate.
    intros Hr. apply IH in Hr. exact Hr.
Qed.

Lemma in_blob_opcodes :
  Forall (fun e => in_blob (snd e)) (normal_opcodes h ++ lazy_opcodes h).
Proof.
  pose proof read_uleb_snd_le as Hu. pose proof read_sleb_snd_le as Hsl.
  unfold normal_opcodes, lazy_opcodes. cbn [app].
  repeat apply List.Forall_cons; cbn [snd]; try apply List.Forall_nil;
    intros s i blob b s';
    try (first [ unfold n_opcode_done; reduce_call | unfold n_opcode_set_dylib_ordinal_imm; reduce_call
               | unfold n_opcode_set_type_imm; reduce_call ];
         intros [= <-]; cbn; lia).
  - unfold n_opcode_set_dylib_ordinal_uleb; reduce_call. intros [= <-]. cbn.
    specialize (Hu blob (index s)). lia.
  - unfold n_opcode_set_dylib_special_imm; reduce_call.
    destruct (i =? 0); intros [= <-]; cbn; lia.
  - unfold n_opcode_set_trailing_flags_imm; reduce_call.
    destruct (read_sym_name _ _) as [t|] eqn:E; [| discriminate].
    intros [= <-]. apply read_sym_name_within in E.
    rewrite length_drop in E. cbn in *. lia.
  - unfold n_opcode_set_addend_sleb; reduce_call. intros [= <-]. cbn.
    specialize (Hsl blob (index s)). lia.
  - unfold n_opcode_set_segment_and_offset_uleb; reduce_call. unfold_M.
    destruct (getitem _ _); [| discriminate]. intros [= <-]. cbn.
    specialize (Hu blob (index s)). lia.
  - unfold n_opcode_add_addr_uleb; reduce_call. intros [= <-]. cbn.
    specialize (Hu blob (index s)). lia.
  - unfold n_opcode_do_bind, check_address_bounds; reduce_call.
    destruct (seg_end_address s <=? address s); [discriminate |].
    intros Hr. apply invoke_returns in Hr. subst s'. cbn. lia.
  - unfold n_opcode_do_bind_add_addr_uleb; reduce_call.
    destruct (seg_end_address s <=? address s); [discriminate |].
    intros Hr. apply invoke_returns in Hr. subst s'. cbn.
    specialize (Hu blob (index s)). lia.
  - unfold n_opcode_do_bind_add_addr_imm_scaled; reduce_call.
    destruct (seg_end_address s <=? address s); [discriminate |].
    intros Hr. apply invoke_returns in Hr. subst s'. cbn. lia.
  - unfold n_opcode_do_bind_uleb_times_skipping_uleb; reduce_call.
    intros Hr. apply do_bind_times_returns in Hr. rewrite Hr.
    cbn [index set_index].
    pose proof (Hu blob (index s)).
    pose proof (Hu blob (index s + snd (read_uleb blob (index s)))%nat). lia.
  - unfold n_opcode_set_dylib_ordinal_uleb; reduce_call. intros [= <-]. cbn.
    specialize (Hu blob (index s)). lia.
  - unfold n_opcode_set_dylib_special_imm; reduce_call.
    destruct (i =? 0); intros [= <-]; cbn; lia.
  - unfold n_opcode_set_trailing_flags_imm; reduce_call.
    destruct (read_sym_name _ _) as [t|] eqn:E; [| discriminate].
    intros [= <-]. apply read_sym_name_within in E.
    rewrite length_drop in E. cbn in *. lia.
  - unfold l_opcode_set_segment_and_offset_uleb; reduce_call. unfold_M.
    destruct (getitem _ _); [| discriminate]. intros [= <-]. cbn.
    specialize (Hu blob (index s)). lia.
  - unfold l_opcode_do_bind; reduce_call. intros Hr. apply invoke_returns in Hr.
    subst s'. lia.
Qed.

Lemma at_KeyError_in_blob (op : Z) (hd : handler) :
  (op, hd) ∈ normal_opcodes h ++ lazy_opcodes h ->
  forall s i blob b,
    (index s <= length blob)%nat ->
    (index (at_KeyError hd s i blob b) <= length blob)%nat.
Proof.
  pose proof read_uleb_snd_le as Hu.
  intros Hin. apply list_elem_of_In in Hin.
  unfold normal_opcodes, lazy_opcodes in Hin. cbn [app In] in Hin.
  repeat (destruct Hin as [[= <- <-]|Hin];
          [intros s i blob b Hs; try exact Hs |]);
    try contradiction.
  - unfold n_opcode_do_bind_add_addr_uleb; reduce_call.
    cbn [index set_index]. specialize (Hu blob (index s)). lia.
  - unfold n_opcode_do_bind_uleb_times_skipping_uleb; reduce_call.
    match goal with
    | |- context [do_bind_times_at_KeyError h ?c ?k ?t b] =>
        destruct (do_bind_times_at_KeyError_frame h c k t b)
          as (_ & _ & _ & Hx)
    end.
    rewrite Hx. cbn [index set_index].
    pose proof (Hu blob (index s)).
    pose proof (Hu blob (index s + snd (read_uleb blob (index s)))%nat). lia.
Qed.

Lemma dispatch_cursor (opcodes : list (Z * handler)) (blob : list byte) :
  opcodes = normal_opcodes h \/ opcodes = lazy_opcodes h ->
  forall fuel s b s',
    fst (dispatch fuel blob s (list_to_map opcodes) b) = Returns s' ->
    (index s <= index s')%nat
    /\ ((index s <= length blob)%nat -> (index s' <= length blob)%nat)
    /\ (done s' = true \/ (length blob <= index s')%nat).
Proof.
  intros Hop. induction fuel as [|fuel IH]; intros s b s'; cbn [dispatch].
  - destruct (done s) eqn:Hd; cbn [negb andb].
    + intros [= <-]. split; [lia | split; [lia | left; exact Hd]].
    + destruct (Nat.ltb_spec (index s) (length blob)); [discriminate |].
      intros [= <-]. split; [lia | split; [lia | right; lia]].
  - destruct (done s) eqn:Hd; cbn [negb andb].
    { intros [= <-]. split; [lia | split; [lia | left; exact Hd]]. }
    destruct (Nat.ltb_spec (index s) (length blob)) as [Hlt|Hge].
    2:{ intros [= <-]. split; [lia | split; [lia | right; lia]]. }
    destruct (blob !! index s) as [x|]; [| discriminate].
    destruct (list_to_map opcodes !! _) as [hd|] eqn:E.
    + pose proof (lookup_table h opcodes _ hd Hop E) as Hin.
      pose proof (at_KeyError_frame h _ _ Hin (set_index (index s + 1) s)
                    (Z.land (chh x) mach_o.BIND_IMMEDIATE_MASK) blob b)
        as (_ & _ & _ & Hc1).
      pose proof (at_KeyError_in_blob _ _ Hin (set_index (index s + 1) s)
                    (Z.land (chh x) mach_o.BIND_IMMEDIATE_MASK) blob b)
        as Hc2.
      cbn [index set_index] in Hc1, Hc2.
      pose proof in_blob_opcodes as Hall. rewrite Forall_forall in Hall.
      assert (Hhd : in_blob hd)
        by exact (Hall (Z.land (chh x) mach_o.BIND_OPCODE_MASK, hd) Hin).
      unfold mbind, M_bind, except_KeyError.
      specialize (Hhd (set_index (index s + 1) s)
                    (Z.land (chh x) mach_o.BIND_IMMEDIATE_MASK) blob b).
      destruct (hd _ _ blob b) as [[s2|[]|] b2]; cbn [fst] in *;
        try discriminate.
      * destruct (Hhd s2 eq_refl) as [H1 H2].
        cbn [index set_index] in H1, H2.
        intros Hr. apply IH in Hr. destruct Hr as (Ha & Hb & Hc).
        split; [lia | split; [lia | exact Hc]].
      * intros Hr. apply IH in Hr. destruct Hr as (Ha & Hb & Hc).
        split; [lia | split; [lia | exact Hc]].
    + intros Hr. apply IH in Hr. cbn [index set_index] in Hr.
      destruct Hr as (Ha & Hb & Hc).
      split; [lia | split; [lia | exact Hc]].
Qed.

End Cursor.

(** X6: when the dispatcher returns, from either handler table and with
    any fixup handler, the cursor has not moved back and has not passed
    the end of the blob, and the loop has ended for one of its two
    reasons: [done] is set, or the cursor is at the end of the blob. *)
Theorem _do_bind_generic_cursor (h : BindingState -> M unit)
  (lazy : bool) (blob : list byte) (s s' : BindingState) (b : Binary) :
  (index s <= length blob)%nat ->
  fst (_do_bind_generic blob s
         (list_to_map (if lazy then lazy_opcodes h else normal_opcodes h)) b)
  = Returns s' ->
  (index s <= index s' <= length blob)%nat
  /\ (done s' = true \/ index s' = length blob).
Proof.
  intros Hidx. unfold _do_bind_generic, segments_getitem.
  unfold mbind, M_bind.
  destruct (getitem _ _) as [seg|]; [| discriminate].
  intros Hr.
  apply (dispatch_cursor h
           (if lazy then lazy_opcodes h else normal_opcodes h) blob) in Hr;
    [| destruct lazy; [right | left]; reflexivity].
  cbn [index set_seg_end_address] in Hr. destruct Hr as (Ha & Hb & Hc).
  split; [lia |]. destruct Hc as [Hc|Hc]; [left; exact Hc | right; lia].
Qed.

Lemma _do_bind_generic_cursor_witness :
  let b := {| arch_bits := 64; struct_byteorder := little_endian;
              segments := [ {| vaddr := 0x1000; memsize := 0x1000 |} ];
              heap := []; symbols := []; _ordered_symbols := [];
              memory := ∅; lva_to_rva := fun a => a |} in
  let blob := [x11; x40; x5f; x61; x00; x00; x12] in
  let s' := set_seg_end_address 0x2000 (set_done true (set_index 6
              (set_sym_name "_a" (set_lib_ord 1
                 (lazy_reinit (BindingState_init true)))))) in
  (0 <= index s' <= 7)%nat /\ (done s' = true \/ index s' = 7%nat).
Proof.
  intros b blob s'.
  apply (_do_bind_generic_cursor default_binding_handler true blob
           (lazy_reinit (BindingState_init true)) s' b).
  - cbn. lia.
  - vm_compute. reflexivity.
Defined.

(** ** Where exceptions come from *)

Section Exceptions.

Variable h : BindingState -> M unit.

Let from_handler (e : exn) : Prop :=
  exists s b, fst (h s b) = Raises e.

(** The exceptions of a handler are those of [Q] or of the fixup
    handler. *)
Let raises_only (Q : exn -> Prop) (hd : handler) : Prop :=
  forall s i blob b e, fst (hd s i blob b) = Raises e -> Q e \/ from_handler e.

Lemma invoke_raises (s s' : BindingState) (b : Binary) (e : exn) :
  fst ((h s ;; mret s' : M BindingState) b) = Raises e -> from_handler e.
Proof.
  unfold_M. destruct (h s b) as [[[]|e'|] b'] eqn:E; cbn; try discriminate.
  intros [= <-]. exists s, b. rewrite E. reflexivity.
Qed.

Lemma do_bind_times_raises (count : nat) (skip : Z) :
  forall s b e, fst (do_bind_times h count skip s b) = Raises e ->
                e = CLEInvalidBinaryError \/ from_handler e.
Proof.
  induction count as [|count IH]; intros s b e; cbn [do_bind_times].
  - discriminate.
  - destruct (seg_end_address s <=? address s);
      [intros [= <-]; left; reflexivity |].
    unfold_M. destruct (h s b) as [[[]|e'|] b'] eqn:E; cbn [fst];
      try discriminate.
    + apply IH.
    + intros [= <-]. right. exists s, b. rewrite E. reflexivity.
Qed.

Lemma raises_only_lazy :
  Forall (fun e => raises_only (fun e => e = IndexError) (snd e))
    (lazy_opcodes h).
Proof.
  unfold lazy_opcodes.
  repeat apply List.Forall_cons; cbn [snd]; try apply List.Forall_nil;
    intros s i blob b e;
    try (first [ unfold n_opcode_done; reduce_call | unfold n_opcode_set_dylib_ordinal_imm; reduce_call
               | unfold n_opcode_set_dylib_ordinal_uleb; reduce_call
               | unfold n_opcode_set_type_imm; reduce_call ];
         discriminate).
  - unfold n_opcode_set_dylib_special_imm; reduce_call. destruct (i =? 0); discriminate.
  - unfold n_opcode_set_trailing_flags_imm; reduce_call.
    destruct (read_sym_name _ _); [discriminate |].
    intros [= <-]. left. reflexivity.
  - unfold l_opcode_set_segment_and_offset_uleb; reduce_call. unfold_M.
    destruct (getitem _ _); [discriminate |].
    intros [= <-]. left. reflexivity.
  - unfold l_opcode_do_bind; reduce_call. intros Hr. right.
    apply invoke_raises in Hr. exact Hr.
Qed.

Lemma raises_only_normal :
  Forall (fun e => raises_only
            (fun e => e = IndexError \/ e = CLEInvalidBinaryError) (snd e))
    (normal_opcodes h).
Proof.
  unfold normal_opcodes.
  repeat apply List.Forall_cons; cbn [snd]; try apply List.Forall_nil;
    intros s i blob b e;
    try (first [ unfold n_opcode_done; reduce_call | unfold n_opcode_set_dylib_ordinal_imm; reduce_call
               | unfold n_opcode_set_dylib_ordinal_uleb; reduce_call
               | unfold n_opcode_set_type_imm; reduce_call
               | unfold n_opcode_set_addend_sleb; reduce_call
               | unfold n_opcode_add_addr_uleb; reduce_call ];
         discriminate).
  - unfold n_opcode_set_dylib_special_imm; reduce_call. destruct (i =? 0); discriminate.
  - unfold n_opcode_set_trailing_flags_imm; reduce_call.
    destruct (read_sym_name _ _); [discriminate |].
    intros [= <-]. left. left. reflexivity.
  - unfold n_opcode_set_segment_and_offset_uleb; reduce_call. unfold_M.
    destruct (getitem _ _); [discriminate |].
    intros [= <-]. left. left. reflexivity.
  - unfold n_opcode_do_bind, check_address_bounds; reduce_call.
    destruct (seg_end_address s <=? address s);
      [intros [= <-]; left; right; reflexivity |].
    intros Hr. right. apply invoke_raises in Hr. exact Hr.
  - unfold n_opcode_do_bind_add_addr_uleb; reduce_call.
    destruct (seg_end_address s <=? address s);
      [intros [= <-]; left; right; reflexivity |].
    intros Hr. right. apply invoke_raises in Hr. exact Hr.
  - unfold n_opcode_do_bind_add_addr_imm_scaled; reduce_call.
    destruct (seg_end_address s <=? address s);
      [intros [= <-]; left; right; reflexivity |].
    intros Hr. right. apply invoke_raises in Hr. exact Hr.
  - unfold n_opcode_do_bind_uleb_times_skipping_uleb; reduce_call.
    intros Hr. apply do_bind_times_raises in Hr. tauto.
Qed.

Lemma dispatch_raises (Q : exn -> Prop) (opcodes : list (Z * handler))
  (blob : list byte) :
  Forall (fun e => raises_only Q (snd e)) opcodes ->
  Q IndexError ->
  forall fuel s b e,
    fst (dispatch fuel blob s (list_to_map opcodes) b) = Raises e ->
    Q e \/ from_handler e.
Proof.
  intros Hall HQ. rewrite Forall_forall in Hall.
  induction fuel as [|fuel IH]; intros s b e; cbn [dispatch].
  - destruct (negb (done s) && (index s <? length blob)%nat); discriminate.
  - destruct (negb (done s) && (index s <? length blob)%nat);
      [| discriminate].
    destruct (blob !! index s) as [x|];
      [| intros [= <-]; left; exact HQ].
    destruct (list_to_map opcodes !! _) as [hd|] eqn:E; [| apply IH].
    apply elem_of_list_to_map_2 in E. apply Hall in E. cbn [snd] in E.
    unfold mbind, M_bind, except_KeyError.
    specialize (E (set_index (index s + 1) s)
                  (Z.land (chh x) mach_o.BIND_IMMEDIATE_MASK) blob b).
    destruct (hd _ _ blob b) as [[s2|[]|] b2]; cbn [fst] in *;
      try apply IH; try discriminate;
      intros [= <-]; apply E; reflexivity.
Qed.

Lemma do_bind_generic_raises (Q : exn -> Prop)
  (opcodes : list (Z * handler)) (blob : list byte) (s : BindingState)
  (b : Binary) (e : exn) :
  Forall (fun e => raises_only Q (snd e)) opcodes ->
  Q IndexError ->
  fst (_do_bind_generic blob s (list_to_map opcodes) b) = Raises e ->
  Q e \/ from_handler e.
Proof.
  intros Hall HQ. unfold _do_bind_generic, segments_getitem.
  unfold mbind, M_bind.
  destruct (getitem _ _); [| intros [= <-]; left; exact HQ].
  apply dispatch_raises; assumption.
Qed.

Lemma lazy_records_raises (blob : list byte) :
  forall fuel s b e, fst (lazy_records h fuel blob s b) = Raises e ->
                     e = IndexError \/ from_handler e.
Proof.
  induction fuel as [|fuel IH]; intros s b e; cbn [lazy_records].
  - destruct (index s <? length blob)%nat; discriminate.
  - destruct (index s <? length blob)%nat; [| discriminate].
    unfold mbind, M_bind.
    pose proof (do_bind_generic_raises (fun e => e = IndexError)
                  (lazy_opcodes h) blob (lazy_reinit s) b) as Hg.
    destruct (_do_bind_generic _ _ _ b) as [[s'|e'|] b']; cbn [fst] in *.
    + apply IH.
    + intros [= <-]. apply Hg; [apply raises_only_lazy | reflexivity..].
    + discriminate.
Qed.

Lemma passes_raise (blob : option (list byte)) (b : Binary) (e : exn) :
  (fst (do_lazy_bind_with h blob b) = Raises e ->
   e = IndexError \/ from_handler e)
  /\ (fst (do_normal_bind_with h blob b) = Raises e ->
      (e = IndexError \/ e = CLEInvalidBinaryError) \/ from_handler e).
Proof.
  destruct blob as [blob|]; [| split; discriminate]. split.
  - unfold do_lazy_bind_with, arch_is_64. unfold mbind, M_bind.
    apply lazy_records_raises.
  - unfold do_normal_bind_with, arch_is_64, segments_getitem.
    unfold mbind, M_bind, mret, M_ret.
    destruct (getitem (segments b) 0);
      [| intros [= <-]; left; left; reflexivity].
    match goal with
    | |- context [_do_bind_generic blob ?t ?d b] =>
        pose proof (do_bind_generic_raises
                      (fun e => e = IndexError \/ e = CLEInvalidBinaryError)
                      (normal_opcodes h) blob t b) as Hg;
        destruct (_do_bind_generic blob t d b) as [[s'|e'|] b']
    end; cbn [fst] in *; try discriminate.
    intros [= <-]. apply Hg; [apply raises_only_normal | left | ]; reflexivity.
Qed.

End Exceptions.

(** X12: the lazy pass never raises the invalid-binary error of its own:
    an exception that leaves it is [IndexError] or one that the fixup
    handler raised on some invocation. The normal pass adds to these
    only the invalid-binary error of its bounds checks. *)
Theorem passes_exceptions (h : BindingState -> M unit)
  (blob : option (list byte)) (b : Binary) (e : exn) :
  (fst (do_lazy_bind_with h blob b) = Raises e ->
   e = IndexError \/ exists s0 b0, fst (h s0 b0) = Raises e)
  /\ (fst (do_normal_bind_with h blob b) = Raises e ->
      e = IndexError \/ e = CLEInvalidBinaryError
      \/ exists s0 b0, fst (h s0 b0) = Raises e).
Proof.
  destruct (passes_raise h blob b e) as [Hl Hn].
  split; [exact Hl | intros Hr; apply Hn in Hr; tauto].
Qed.

Lemma passes_exceptions_witness :
  let b := {| arch_bits := 64; struct_byteorder := little_endian;
              segments := [ {| vaddr := 0x1000; memsize := 0x1000 |} ];
              heap := []; symbols := []; _ordered_symbols := [];
              memory := ∅; lva_to_rva := fun a => a |} in
  let quiet : BindingState -> M unit := fun s b => (Returns tt, b) in
  IndexError = IndexError \/ exists s0 b0, fst (quiet s0 b0) = Raises IndexError.
Proof.
  intros b quiet.
  apply (passes_exceptions quiet (Some [x70; x80; x20; x90; x75; x00]) b
           IndexError).
  vm_compute. reflexivity.
Defined.

(** ** Selecting a segment *)

(** X13: [SET_SEGMENT_AND_OFFSET_ULEB] with an immediate that names no
    segment raises [IndexError] in both modes and leaves the image as it
    was. With a segment, both variants consume the same operand and set
    the same address, [vaddr + offset] while that sum does not exceed
    [2^64]; the normal variant differs from the lazy one in recording
    [segment_index] and [seg_end_address = vaddr + memsize], and in
    nothing else. No check relates the offset to [memsize]. *)
Theorem set_segment_and_offset_uleb (s : BindingState) (i : Z)
  (blob : list byte) (b : Binary) :
  0 <= i ->
  ((length (segments b) <= Z.to_nat i)%nat ->
   n_opcode_set_segment_and_offset_uleb s i blob b = (Raises IndexError, b)
   /\ l_opcode_set_segment_and_offset_uleb s i blob b
      = (Raises IndexError, b))
  /\ (forall seg, segments b !! Z.to_nat i = Some seg ->
      let offset := read_uleb blob (index s) in
      let s_l := set_index (index s + snd offset)
                   (add_address_ov s (vaddr seg) (fst offset)) in
      l_opcode_set_segment_and_offset_uleb s i blob b = (Returns s_l, b)
      /\ n_opcode_set_segment_and_offset_uleb s i blob b
         = (Returns (set_seg_end_address (vaddr seg + memsize seg)
                       (set_segment_index i s_l)), b)
      /\ (wraparound s = 2 ^ 64 -> vaddr seg + fst offset <= 2 ^ 64 ->
          address s_l = vaddr seg + fst offset)).
Proof.
  intros Hi.
  assert (Hget : getitem (segments b) i = segments b !! Z.to_nat i).
  { unfold getitem. destruct (Z.leb_spec 0 i); [reflexivity | lia]. }
  unfold n_opcode_set_segment_and_offset_uleb,
    l_opcode_set_segment_and_offset_uleb; reduce_call. unfold_M.
  cbn [segment_index set_index set_segment_index]. rewrite Hget. split.
  - intros Hlen. rewrite (lookup_ge_None_2 _ _ Hlen). split; reflexivity.
  - intros seg Hseg. cbv zeta. rewrite Hseg.
    split; [reflexivity | split; [reflexivity |]].
    intros Hw Hle. cbn [address set_index].
    unfold add_address_ov. rewrite Hw. cbn [address set_address].
    destruct (Z.ltb_spec (2 ^ 64)
                (vaddr seg + fst (read_uleb blob (index s)))); [lia |].
    reflexivity.
Qed.

Lemma set_segment_and_offset_uleb_witness :
  let b := {| arch_bits := 64; struct_byteorder := little_endian;
              segments := [ {| vaddr := 0x1000; memsize := 0x1000 |} ];
              heap := []; symbols := []; _ordered_symbols := [];
              memory := ∅; lva_to_rva := fun a => a |} in
  let s := set_index 1 (BindingState_init true) in
  n_opcode_set_segment_and_offset_uleb s 1 [x71; x10] b
  = (Raises IndexError, b)
  /\ l_opcode_set_segment_and_offset_uleb s 1 [x71; x10] b
     = (Raises IndexError, b).
Proof.
  intros b s.
  apply (set_segment_and_offset_uleb s 1 [x71; x10] b); [lia |].
  cbn. lia.
Defined.

(** ** Placeholders *)

Lemma bind_location_returns (s : BindingState) (r : nat) (b b1 : Binary) :
  bind_location s r b = (Returns tt, b1) ->
  exists loc m,
    b1 = set_heap (alter (xref_append_sym loc) r (heap b)) (set_memory m b).
Proof.
  unfold bind_location.
  destruct (heap b !! r); [| discriminate].
  repeat match goal with
         | |- context [if ?c then _ else _] => destruct c
         | |- context [match struct_pack ?o ?w ?v with _ => _ end] =>
             destruct (struct_pack o w v)
         end; try discriminate; rewrite patch_outcome;
    destruct (fst (store _ _ _)); try discriminate;
    intros [= <-]; eexists _, _; reflexivity.
Qed.

(** X14: a symbol that is missing from the image gets one placeholder,
    and later binds reuse it: after a fixup for a name and ordinal that
    no symbol matched has returned, the lookup for the same name and
    ordinal finds the placeholder, the one object added to the store,
    and changes nothing. The references of [symbols] are taken to point
    into the store. *)
Theorem placeholder_reused (s s2 : BindingState) (b b1 : Binary) :
  Forall (fun r => (r < length (heap b))%nat) (symbols b) ->
  List.filter (symbol_matches s b) (symbols b) = [] ->
  default_binding_handler s b = (Returns tt, b1) ->
  sym_name s2 = sym_name s -> lib_ord s2 = lib_ord s ->
  locate_symbol s2 b1 = (Returns (length (heap b)), b1)
  /\ length (heap b1) = S (length (heap b))
  /\ symbols b1 = symbols b ++ [length (heap b)].
Proof.
  intros Hwf Hnil Hrun Hname Hord.
  set (n := length (heap b)).
  set (ph := BindingSymbol (sym_name s) (lib_ord s)).
  set (b' := set_ordered_symbols (_ordered_symbols b ++ [n])
               (set_symbols (symbols b ++ [n])
                  (set_heap (heap b ++ [ph]) b))).
  assert (Hloc : locate_symbol s b = (Returns n, b')).
  { unfold locate_symbol. rewrite Hnil. reflexivity. }
  revert Hrun. unfold default_binding_handler. unfold mbind, M_bind.
  rewrite Hloc. intros Hrun.
  apply bind_location_returns in Hrun as (loc & m & ->).
  assert (Hheap : heap (set_heap (alter (xref_append_sym loc) n (heap b'))
                          (set_memory m b'))
                  = alter (xref_append_sym loc) n (heap b ++ [ph]))
    by reflexivity.
  assert (Hsyms : symbols (set_heap (alter (xref_append_sym loc) n (heap b'))
                             (set_memory m b'))
                  = symbols b ++ [n]) by reflexivity.
  split; [| split; [| exact Hsyms]].
  2:{ rewrite Hheap, length_alter, length_app. cbn. lia. }
  unfold locate_symbol. rewrite Hsyms, List.filter_app.
  assert (Hold : List.filter
                   (symbol_matches s2
                      (set_heap (alter (xref_append_sym loc) n (heap b'))
                         (set_memory m b'))) (symbols b) = []).
  { rewrite <- Hnil. apply List.filter_ext_in. intros r Hin.
    rewrite Forall_forall in Hwf.
    assert (Hr : (r < n)%nat) by (apply Hwf, list_elem_of_In; exact Hin).
    unfold symbol_matches. rewrite Hheap.
    rewrite list_lookup_alter_ne by lia.
    rewrite lookup_app_l by exact Hr. rewrite Hname, Hord. reflexivity. }
  rewrite Hold.
  assert (Hnew : symbol_matches s2
                   (set_heap (alter (xref_append_sym loc) n (heap b'))
                      (set_memory m b')) n = true).
  { unfold symbol_matches. rewrite Hheap, list_lookup_alter.
    rewrite decide_True by reflexivity.
    rewrite lookup_app_r by (subst n; lia).
    replace (n - length (heap b))%nat with 0%nat by (subst n; lia).
    cbn. rewrite Hname, Hord, String.eqb_refl, Z.eqb_refl. reflexivity. }
  cbn [List.filter app]. rewrite Hnew. reflexivity.
Qed.

Lemma placeholder_reused_witness :
  let s := set_sym_name "_bar" (set_lib_ord 2 (set_binding_type 1
             (BindingState_init true))) in
  let foo := {| name := "_foo"; library_ordinal := 1; is_stab := false;
                linked_addr := 0x2000; bind_xrefs := [] |} in
  let b := {| arch_bits := 64; struct_byteorder := little_endian;
              segments := [ {| vaddr := 0x1000; memsize := 0x1000 |} ];
              heap := [foo]; symbols := [0%nat]; _ordered_symbols := [0%nat];
              memory := ∅; lva_to_rva := fun a => a |} in
  fst (locate_symbol (set_address 8 s) (snd (default_binding_handler s b)))
  = Returns 1%nat
  /\ length (heap (snd (default_binding_handler s b))) = 2%nat.
Proof.
  intros s foo b.
  destruct (placeholder_reused s (set_address 8 s) b
              (snd (default_binding_handler s b)))
    as (Hloc & Hlen & _).
  - repeat constructor.
  - reflexivity.
  - vm_compute. reflexivity.
  - reflexivity.
  - reflexivity.
  - rewrite Hloc. split; [reflexivity | exact Hlen].
Defined.

(** ** The strided bind *)

Lemma set_address_same (s : BindingState) : set_address (address s) s = s.
Proof. destruct s. reflexivity. Qed.

(** X16: with a fixup handler that returns, the loop of
    [DO_BIND_ULEB_TIMES_SKIPPING_ULEB] over [count] slots of stride
    [skip + pointer_size] that stay within [2^64] returns exactly when
    [count] is 0 or the last slot, at
    [address + (count - 1) * stride], lies below [seg_end_address]; the
    address is then [address + count * stride] and nothing else has
    changed in the state. Otherwise it raises the invalid-binary
    error. *)
Theorem do_bind_times_stride (h : BindingState -> M unit) (count : nat)
  (skip : Z) (s : BindingState) (b : Binary) :
  (forall s b, fst (h s b) = Returns tt) ->
  wraparound s = 2 ^ 64 ->
  0 <= skip + sizeof_intptr_t s ->
  address s + Z.of_nat count * (skip + sizeof_intptr_t s) <= 2 ^ 64 ->
  fst (do_bind_times h count skip s b)
  = if (count =? 0)%nat
       || (address s + (Z.of_nat count - 1) * (skip + sizeof_intptr_t s)
           <? seg_end_address s)
    then Returns (set_address
                    (address s + Z.of_nat count * (skip + sizeof_intptr_t s))
                    s)
    else Raises CLEInvalidBinaryError.
Proof.
  intros Hh. revert s b.
  induction count as [|count IH]; intros s b Hw Hstride Hfit;
    cbn [do_bind_times].
  - cbn [Nat.eqb orb]. cbn [fst mret M_ret].
    replace (address s + Z.of_nat 0 * (skip + sizeof_intptr_t s))
      with (address s) by lia.
    rewrite set_address_same. reflexivity.
  - cbn [Nat.eqb orb].
    destruct (Z.leb_spec (seg_end_address s) (address s)) as [Hge|Hlt].
    + destruct (Z.ltb_spec
                  (address s
                   + (Z.of_nat (S count) - 1) * (skip + sizeof_intptr_t s))
                  (seg_end_address s)); [nia | reflexivity].
    + unfold mbind, M_bind. pose proof (Hh s b) as Hret.
      destruct (h s b) as [[[]|e|] b']; cbn [fst] in Hret;
        try discriminate.
      set (s1 := add_address_ov s (address s) (skip + sizeof_intptr_t s)).
      assert (Ha1 : address s1 = address s + (skip + sizeof_intptr_t s)).
      { subst s1. unfold add_address_ov. rewrite Hw.
        cbn [address set_address].
        destruct (Z.ltb_spec (2 ^ 64)
                    (address s + (skip + sizeof_intptr_t s))); [nia |].
        reflexivity. }
      rewrite (IH s1 b'); [| exact Hw | exact Hstride | rewrite Ha1;
        change (sizeof_intptr_t s1) with (sizeof_intptr_t s); nia].
      change (sizeof_intptr_t s1) with (sizeof_intptr_t s).
      change (seg_end_address s1) with (seg_end_address s).
      rewrite Ha1.
      replace (set_address
                 (address s + (skip + sizeof_intptr_t s)
                  + Z.of_nat count * (skip + sizeof_intptr_t s)) s1)
        with (set_address
                (address s
                 + Z.of_nat (S count) * (skip + sizeof_intptr_t s)) s)
        by (subst s1; unfold add_address_ov, set_address; cbn;
            f_equal; lia).
      destruct count as [|count].
      * cbn [Nat.eqb orb].
        destruct (Z.ltb_spec
                    (address s
                     + (Z.of_nat 1 - 1) * (skip + sizeof_intptr_t s))
                    (seg_end_address s)); [reflexivity | lia].
      * cbn [Nat.eqb orb].
        replace (address s + (skip + sizeof_intptr_t s)
                 + (Z.of_nat (S count) - 1) * (skip + sizeof_intptr_t s))
          with (address s
                + (Z.of_nat (S (S count)) - 1) * (skip + sizeof_intptr_t s))
          by lia.
        reflexivity.
Qed.

Lemma do_bind_times_stride_witness :
  let b := {| arch_bits := 64; struct_byteorder := little_endian;
              segments := [ {| vaddr := 0x1000; memsize := 0x48 |} ];
              heap := []; symbols := []; _ordered_symbols := [];
              memory := ∅; lva_to_rva := fun a => a |} in
  let quiet : BindingState -> M unit := fun s b => (Returns tt, b) in
  let s := set_seg_end_address 0x1048 (set_address 0x1000
             (BindingState_init true)) in
  fst (do_bind_times quiet 5 8 s b) = Returns (set_address 0x1050 s)
  /\ fst (do_bind_times quiet 6 8 s b) = Raises CLEInvalidBinaryError.
Proof.
  intros b quiet s. split.
  - rewrite (do_bind_times_stride quiet 5 8 s b);
      [reflexivity | reflexivity | reflexivity | cbn; lia | cbn; lia].
  - rewrite (do_bind_times_stride quiet 6 8 s b);
      [reflexivity | reflexivity | reflexivity | cbn; lia | cbn; lia].
Defined.

(** X15: the four binding opcodes of the normal table are one loop:
    [DO_BIND] is [DO_BIND_ADD_ADDR_IMM_SCALED] with immediate 0, and
    [DO_BIND], [DO_BIND_ADD_ADDR_IMM_SCALED] and, once its operand is
    consumed, [DO_BIND_ADD_ADDR_ULEB] each act as one iteration of the
    loop of [DO_BIND_ULEB_TIMES_SKIPPING_ULEB], with skip 0,
    [immediate * pointer_size] and the operand. *)
Theorem do_bind_opcodes_are_one_loop (h : BindingState -> M unit)
  (s : BindingState) (i : Z) (blob : list byte) (b : Binary) :
  n_opcode_do_bind h s i blob b
  = n_opcode_do_bind_add_addr_imm_scaled h s 0 blob b
  /\ n_opcode_do_bind h s i blob b = do_bind_times h 1 0 s b
  /\ n_opcode_do_bind_add_addr_imm_scaled h s i blob b
     = do_bind_times h 1 (i * sizeof_intptr_t s) s b
  /\ n_opcode_do_bind_add_addr_uleb h s i blob b
     = do_bind_times h 1 (fst (read_uleb blob (index s)))
         (set_index (index s + snd (read_uleb blob (index s))) s) b.
Proof.
  unfold n_opcode_do_bind, n_opcode_do_bind_add_addr_imm_scaled,
    n_opcode_do_bind_add_addr_uleb; reduce_call. cbn [do_bind_times]. unfold_M.
  cbn [seg_end_address address sizeof_intptr_t set_index].
  destruct (seg_end_address s <=? address s);
    [repeat split |].
  repeat split;
    match goal with
    | |- context [h ?t b] => destruct (h t b) as [[[]|e|] b']
    end; reflexivity.
Qed.

(** ** Edge cases of the lazy pass *)

(** X17: on an image without segments the lazy pass raises [IndexError]
    as soon as the blob has a byte, and does nothing on an empty blob
    (the normal pass raises on both). *)
Theorem do_lazy_bind_without_segments (h : BindingState -> M unit)
  (blob : list byte) (b : Binary) :
  segments b = [] ->
  do_lazy_bind_with h (Some blob) b
  = (match blob with [] => Returns tt | _ :: _ => Raises IndexError end, b).
Proof.
  intros Hs. unfold do_lazy_bind_with, arch_is_64. unfold mbind, M_bind.
  destruct blob as [|x blob]; [reflexivity |].
  cbn [length lazy_records]. cbn [index set_index BindingState_init].
  change (0 <? S (length blob))%nat with true. cbv iota.
  unfold _do_bind_generic, segments_getitem, getitem. unfold mbind, M_bind.
  rewrite Hs. reflexivity.
Qed.

Lemma do_lazy_bind_without_segments_witness :
  let b := {| arch_bits := 64; struct_byteorder := little_endian;
              segments := []; heap := []; symbols := [];
              _ordered_symbols := []; memory := ∅;
              lva_to_rva := fun a => a |} in
  do_lazy_bind (Some [x00]) b = (Raises IndexError, b).
Proof.
  intros b.
  apply (do_lazy_bind_without_segments default_binding_handler [x00] b).
  reflexivity.
Defined.

(** ** Operands written by the standard encoders *)

(** X18: the operand opcodes read back what the standard encoders
    write: with the cursor on the encoding, [SET_ADDEND_SLEB] sets
    [addend] to any integer [n], and [SET_DYLIB_ORDINAL_ULEB] and
    [ADD_ADDR_ULEB] take any [n >= 0] as ordinal and as delta; each
    leaves the cursor just past the encoding. *)
Theorem operand_opcodes_read_encodings (s : BindingState) (i n : Z)
  (pre post : list byte) (b : Binary) :
  index s = length pre ->
  n_opcode_set_addend_sleb s i (pre ++ encode_sleb n ++ post) b
  = (Returns (set_index (length pre + length (encode_sleb n))
                (set_addend n s)), b)
  /\ (0 <= n ->
      n_opcode_set_dylib_ordinal_uleb s i (pre ++ encode_uleb n ++ post) b
      = (Returns (set_index (length pre + length (encode_uleb n))
                    (set_lib_ord n s)), b)
      /\ n_opcode_add_addr_uleb s i (pre ++ encode_uleb n ++ post) b
         = (Returns (set_index (length pre + length (encode_uleb n))
                       (add_address_ov s (address s) n)), b)).
Proof.
  intros Hidx.
  assert (Hs : read_sleb (pre ++ encode_sleb n ++ post) (index s)
               = (n, length (encode_sleb n))).
  { unfold read_sleb. rewrite Hidx, drop_app_length.
    rewrite read_sleb_loop_encode by (cbn; lia).
    f_equal. change (2 ^ 0) with 1. lia. }
  split.
  - unfold n_opcode_set_addend_sleb; reduce_call. rewrite Hs.
    cbn [fst snd index set_addend]. rewrite Hidx. reflexivity.
  - intros Hn.
    assert (Hu : read_uleb (pre ++ encode_uleb n ++ post) (index s)
                 = (n, length (encode_uleb n))).
    { unfold read_uleb. rewrite Hidx, drop_app_length.
      rewrite read_uleb_loop_encode by (cbn; lia).
      f_equal. change (2 ^ 0) with 1. lia. }
    unfold n_opcode_set_dylib_ordinal_uleb, n_opcode_add_addr_uleb; reduce_call.
    rewrite Hu. cbn [fst snd index set_lib_ord].
    change (index (add_address_ov s (address s) n)) with (index s).
    rewrite Hidx. split; reflexivity.
Qed.

Lemma operand_opcodes_read_encodings_witness :
  let b := {| arch_bits := 64; struct_byteorder := little_endian;
              segments := []; heap := []; symbols := [];
              _ordered_symbols := []; memory := ∅;
              lva_to_rva := fun a => a |} in
  let s := set_index 1 (BindingState_init true) in
  n_opcode_set_addend_sleb s 0 ([x60] ++ encode_sleb (-123456) ++ [x00]) b
  = (Returns (set_index (1 + length (encode_sleb (-123456)))
                (set_addend (-123456) s)), b).
Proof.
  intros b s.
  apply (operand_opcodes_read_encodings s 0 (-123456) [x60] [x00] b).
  reflexivity.
Defined.

(** ** Opcodes without a handler *)

(** X19: a byte whose opcode has no entry in the handler table is
    skipped: the dispatcher moves the cursor by one and goes on, with no
    exception and no other change, so that the operands of that opcode
    are taken as opcodes next. The normal table lacks [0xD0], [0xE0] and
    [0xF0]; the lazy table lacks these and also [SET_ADDEND_SLEB],
    [ADD_ADDR_ULEB] and the three binding opcodes with operands. *)
Theorem dispatch_skips_unknown_opcode (h : BindingState -> M unit)
  (lazy : bool) (fuel : nat) (blob : list byte) (s : BindingState)
  (x : byte) :
  done s = false ->
  blob !! index s = Some x ->
  In (Z.land (chh x) mach_o.BIND_OPCODE_MASK)
     (if lazy then [0x60; 0x80; 0xA0; 0xB0; 0xC0; 0xD0; 0xE0; 0xF0]
      else [0xD0; 0xE0; 0xF0]) ->
  let opcode_dict : gmap Z handler :=
    list_to_map (if lazy then lazy_opcodes h else normal_opcodes h) in
  dispatch (S fuel) blob s opcode_dict
  = dispatch fuel blob (set_index (index s + 1) s) opcode_dict.
Proof.
  intros Hd Hx Hop opcode_dict. cbn [dispatch]. rewrite Hd, Hx.
  cbn [negb andb].
  assert (Hlt : (index s <? length blob)%nat = true)
    by (apply Nat.ltb_lt; eapply lookup_lt_Some; exact Hx).
  rewrite Hlt.
  assert (Hnone : opcode_dict !! Z.land (chh x) mach_o.BIND_OPCODE_MASK
                  = None).
  { subst opcode_dict. destruct lazy; cbn [In] in Hop;
      repeat (destruct Hop as [<-|Hop]; [vm_compute; reflexivity |]);
      destruct Hop. }
  match goal with
  | |- match ?l with _ => _ end = _ =>
      assert (Hl : l = None) by exact Hnone; rewrite Hl
  end.
  reflexivity.
Qed.

Lemma dispatch_skips_unknown_opcode_witness :
  let b := {| arch_bits := 64; struct_byteorder := little_endian;
              segments := [ {| vaddr := 0x1000; memsize := 0x1000 |} ];
              heap := []; symbols := []; _ordered_symbols := [];
              memory := ∅; lva_to_rva := fun a => a |} in
  let s := lazy_reinit (BindingState_init true) in
  let opcode_dict : gmap Z handler :=
    list_to_map (lazy_opcodes default_binding_handler) in
  dispatch 2 [x60; x11] s opcode_dict b
  = (Returns (set_lib_ord 1 (set_index 2 s)), b).
Proof.
  intros b s opcode_dict.
  assert (Hskip := dispatch_skips_unknown_opcode default_binding_handler
                     true 1 [x60; x11] s x60 eq_refl eq_refl
                     (or_introl eq_refl)).
  apply (f_equal (fun f => f b)) in Hskip.
  etransitivity; [exact Hskip | vm_compute; reflexivity].
Defined.
